(** * Caesar trading terminal: signer, circuit breaker, decoders, writer, validator

    A shallow embedding of the Go sources (internal/signer, internal/adapter,
    internal/adapter/kalshi, internal/adapter/poly, internal/engine) and the
    properties of the specification that they decide.

    Conventions.  A Go [int], [int64] or [time.Duration] is a [Z] with the
    wrap-around or saturation written where the source relies on it; a
    [*big.Int] is an unbounded [Z]; a [[]byte] is a list of [Z] in [0, 256);
    a [time.Time] is the number of nanoseconds since Go's zero time; a Go map
    is a [gmap]; a buffered channel is the list of values waiting in it.  Every
    clock reading ([time.Now], the breaker's [nowFunc]) is an explicit
    argument. *)

From Stdlib Require Import ZArith List Bool Lia Floats Ascii String.
From stdpp Require Import gmap strings list pretty.

Local Open Scope Z_scope.

(* Decimal literals such as 0.48 denote the nearest binary64 value. *)
#[local] Set Warnings "-inexact-float".

(** ** Go runtime and standard-library helpers *)

Module Go.

Abbreviation bytes := (list Z) (only parsing).

Abbreviation Time := Z (only parsing).
Abbreviation Duration := Z (only parsing).

Definition Millisecond : Duration := 1000000.
Definition Second : Duration := 1000000000.

Definition minInt64 : Z := -9223372036854775808.
Definition maxInt64 : Z := 9223372036854775807.

(** Two's-complement wrap-around of 64-bit signed arithmetic. *)
Definition wrap64 (z : Z) : Z :=
  (z + 9223372036854775808) `mod` 18446744073709551616 - 9223372036854775808.

(** [Time.Sub]: the difference as a Duration, saturated at the int64 range. *)
Definition Sub (t u : Time) : Duration :=
  Z.max minInt64 (Z.min maxInt64 (t - u)).

Definition Add (t : Time) (d : Duration) : Time := t + d.

(** [Time.After], strict. *)
Definition After (t u : Time) : bool := u <? t.

Definition IsZero (t : Time) : bool := t =? 0.

(** Nanoseconds between Go's zero time (year 1) and the Unix epoch. *)
Definition unixEpoch : Time := 62135596800 * Second.

(** [Time.UnixMilli]. *)
Definition UnixMilli (t : Time) : Z := (t - unixEpoch) `div` Millisecond.

(** [strconv.FormatInt(n, 10)] and [big.Int.String]. *)
Definition FormatInt (n : Z) : string := pretty n.

(** [[]byte(s)]. *)
Definition bytes_of_string (s : string) : bytes :=
  (fun a => Z.of_nat (nat_of_ascii a)) <$> list_ascii_of_string s.

(** Little-endian base-256 digits of a non-negative number. *)
Fixpoint le_digits (fuel : nat) (n : Z) : bytes :=
  match fuel with
  | O => []
  | S fuel' => if n =? 0 then [] else (n `mod` 256) :: le_digits fuel' (n `div` 256)
  end.

(** [big.Int.Bytes]: big-endian bytes of the absolute value, empty for 0. *)
Definition big_Bytes (z : Z) : bytes :=
  rev (le_digits (S (Z.to_nat (Z.log2 (Z.abs z)))) (Z.abs z)).

(** go-ethereum's [common.LeftPadBytes]: a slice at least [l] long is
    returned as it is. *)
Definition LeftPadBytes (slice : bytes) (l : nat) : bytes :=
  if (l <=? length slice)%nat then slice
  else replicate (l - length slice) 0 ++ slice.

Definition digit_of_ascii (a : ascii) : option Z :=
  let n := Z.of_nat (nat_of_ascii a) in
  if (48 <=? n) && (n <=? 57) then Some (n - 48) else None.

Fixpoint scan_digits (acc : Z) (s : string) : option Z :=
  match s with
  | EmptyString => Some acc
  | String a s' =>
      match digit_of_ascii a with
      | Some d => scan_digits (10 * acc + d) s'
      | None => None
      end
  end.

Definition scan_nat (s : string) : option Z :=
  match s with
  | EmptyString => None
  | _ => scan_digits 0 s
  end.

(** [big.Int.SetString(s, 10)]: an optional sign, then one or more decimal
    digits, and nothing else; [None] is the [ok = false] result. *)
Definition big_SetString (s : string) : option Z :=
  match s with
  | String "-" r => Z.opp <$> scan_nat r
  | String "+" r => scan_nat r
  | _ => scan_nat s
  end.

Definition hex_digit (n : Z) : ascii :=
  ascii_of_nat (Z.to_nat (if n <? 10 then 48 + n else 87 + n)).

(** [hex.EncodeToString]. *)
Fixpoint hex_EncodeToString (b : bytes) : string :=
  match b with
  | [] => EmptyString
  | x :: b' => String (hex_digit (x `div` 16)) (String (hex_digit (x `mod` 16)) (hex_EncodeToString b'))
  end.

(** [float64(n)] for a Go integer. *)
Definition float64_of_int (n : Z) : float :=
  SF2Prim (binary_normalize prec emax n 0 false).

(** [int64(f)]: truncation toward zero; NaN, infinities and values outside
    the int64 range give the smallest int64, as on amd64. *)
Definition int64_of_float (f : float) : Z :=
  match Prim2SF f with
  | S754_zero _ => 0
  | S754_finite s m e =>
      let v := if 0 <=? e then Z.pos m * 2 ^ e else Z.pos m `div` 2 ^ (- e) in
      let r := if s then - v else v in
      if (minInt64 <=? r) && (r <=? maxInt64) then r else minInt64
  | _ => minInt64
  end.

(** [Duration.Seconds]. *)
Definition Seconds (d : Duration) : float :=
  PrimFloat.add (float64_of_int (Z.quot d Second))
                (PrimFloat.div (float64_of_int (Z.rem d Second)) 1e9%float).

(** A non-blocking send on a buffered channel of capacity [cap]: the value
    is dropped when the buffer is full. *)
Definition trySend {A} (cap : nat) (ch : list A) (x : A) : list A :=
  if (length ch <? cap)%nat then ch ++ [x] else ch.

(** ** Facts about the helpers *)

(** A sequence of non-blocking sends fills the buffer up to its capacity,
    in order, and drops what comes after. *)
Lemma foldl_trySend {A} (cap : nat) (ch xs : list A) :
  foldl (trySend cap) ch xs = ch ++ take (cap - length ch) xs.
Proof.
  revert ch. induction xs as [|x xs IH]; intros ch; simpl.
  { by rewrite take_nil, app_nil_r. }
  rewrite IH. unfold trySend.
  destruct (Nat.ltb_spec (length ch) cap) as [Hlt|Hge].
  - rewrite length_app. simpl.
    replace (cap - length ch)%nat with (S (cap - (length ch + 1))) by lia.
    simpl. by rewrite <- app_assoc.
  - by replace (cap - length ch)%nat with 0%nat by lia.
Qed.

Lemma trySend_length {A} (cap : nat) (ch : list A) (x : A) :
  (length ch <= cap)%nat -> (length (trySend cap ch x) <= cap)%nat.
Proof.
  intros Hle. unfold trySend.
  destruct (Nat.ltb_spec (length ch) cap); [|done].
  rewrite length_app. simpl. lia.
Qed.

(** The number that a big-endian byte string denotes. *)
Definition be_value (b : bytes) : Z := foldl (fun acc x => acc * 256 + x) 0 b.

Definition le_value (b : bytes) : Z := foldr (fun x acc => x + 256 * acc) 0 b.

Lemma be_value_app (b1 b2 : list Z) :
  be_value (b1 ++ b2) = be_value b1 * 256 ^ Z.of_nat (length b2) + be_value b2.
Proof.
  unfold be_value. revert b1. induction b2 as [|x b2 IH] using rev_ind; intros b1.
  { rewrite app_nil_r. simpl. lia. }
  rewrite app_assoc, (foldl_app _ (b1 ++ b2)), (foldl_app _ b2). simpl.
  rewrite IH, length_app. simpl.
  rewrite Nat2Z.inj_add, Z.pow_add_r by lia. lia.
Qed.

Lemma be_value_rev (b : list Z) : be_value (rev b) = le_value b.
Proof.
  induction b as [|x b IH]; [done|].
  simpl. rewrite be_value_app, IH. unfold be_value. simpl. lia.
Qed.

Lemma be_value_zeros (n : nat) (b : list Z) : be_value (replicate n 0 ++ b) = be_value b.
Proof.
  rewrite be_value_app.
  assert (be_value (replicate n 0) = 0) as ->; [|lia].
  induction n as [|n IH]; [done|].
  change (replicate (S n) 0) with ([0] ++ replicate n 0).
  rewrite be_value_app, IH. unfold be_value. simpl. lia.
Qed.

Lemma le_digits_value (fuel : nat) (n : Z) :
  0 <= n < 256 ^ Z.of_nat fuel -> le_value (le_digits fuel n) = n.
Proof.
  revert n. induction fuel as [|fuel IH]; intros n Hn.
  { simpl in *. lia. }
  simpl. destruct (Z.eqb_spec n 0) as [->|Hne]; [done|].
  simpl. rewrite IH.
  - pose proof (Z.div_mod n 256). lia.
  - rewrite Nat2Z.inj_succ, Z.pow_succ_r in Hn by lia.
    split; [apply Z.div_pos; lia|].
    apply Z.div_lt_upper_bound; lia.
Qed.

Lemma le_digits_length (fuel k : nat) (n : Z) :
  0 <= n < 256 ^ Z.of_nat k -> (length (le_digits fuel n) <= k)%nat.
Proof.
  revert n k. induction fuel as [|fuel IH]; intros n k Hn; simpl; [lia|].
  destruct (Z.eqb_spec n 0) as [->|Hne]; simpl; [lia|].
  destruct k as [|k]; [simpl in Hn; lia|].
  apply le_n_S, IH.
  rewrite Nat2Z.inj_succ, Z.pow_succ_r in Hn by lia.
  split; [apply Z.div_pos; lia|].
  apply Z.div_lt_upper_bound; lia.
Qed.

Lemma le_digits_bytes (fuel : nat) (n : Z) :
  Forall (fun x => 0 <= x < 256) (le_digits fuel n).
Proof.
  revert n. induction fuel as [|fuel IH]; intros n; simpl; [constructor|].
  destruct (n =? 0); constructor; [|apply IH].
  apply Z.mod_pos_bound. lia.
Qed.

Lemma enough_fuel (n : Z) : 0 <= n -> n < 256 ^ Z.of_nat (S (Z.to_nat (Z.log2 n))).
Proof.
  intros Hn. destruct (Z.eqb_spec n 0) as [->|Hne].
  { simpl. lia. }
  pose proof (Z.log2_nonneg n) as Hl.
  pose proof (Z.log2_spec n ltac:(lia)) as [_ Hlt].
  rewrite Nat2Z.inj_succ, Z2Nat.id by lia.
  eapply Z.lt_le_trans; [exact Hlt|].
  change 256 with (2 ^ 8). rewrite <- Z.pow_mul_r by lia.
  apply Z.pow_le_mono_r; lia.
Qed.

(** [big.Int.Bytes] is the big-endian form of the absolute value. *)
Lemma big_Bytes_value (z : Z) : be_value (big_Bytes z) = Z.abs z.
Proof.
  unfold big_Bytes. rewrite be_value_rev.
  apply le_digits_value. split; [lia|]. apply enough_fuel. lia.
Qed.

Lemma big_Bytes_length (z : Z) (k : nat) :
  Z.abs z < 256 ^ Z.of_nat k -> (length (big_Bytes z) <= k)%nat.
Proof.
  intros Hz. unfold big_Bytes. rewrite length_rev.
  apply le_digits_length. lia.
Qed.

Lemma big_Bytes_opp (z : Z) : big_Bytes (- z) = big_Bytes z.
Proof. unfold big_Bytes. by rewrite Z.abs_opp. Qed.

Lemma scan_digits_nonneg (s : string) (acc n : Z) :
  0 <= acc -> scan_digits acc s = Some n -> 0 <= n.
Proof.
  revert acc. induction s as [|a s IH]; intros acc Hacc; simpl.
  { intros [= <-]. done. }
  unfold digit_of_ascii.
  destruct ((48 <=? Z.of_nat (nat_of_ascii a)) && (Z.of_nat (nat_of_ascii a) <=? 57)) eqn:E;
    [|done].
  apply andb_true_iff in E as [E1%Z.leb_le E2%Z.leb_le].
  apply IH. lia.
Qed.

Lemma scan_nat_nonneg (s : string) (n : Z) : scan_nat s = Some n -> 0 <= n.
Proof.
  destruct s; [done|]. unfold scan_nat. by apply scan_digits_nonneg.
Qed.

Lemma LeftPadBytes_length (b : bytes) (l : nat) :
  (length b <= l)%nat -> length (LeftPadBytes b l) = l.
Proof.
  intros Hl. unfold LeftPadBytes.
  destruct (Nat.leb_spec l (length b)); [lia|].
  rewrite length_app, length_replicate. lia.
Qed.

Lemma LeftPadBytes_value (b : bytes) (l : nat) :
  be_value (LeftPadBytes b l) = be_value b.
Proof.
  unfold LeftPadBytes. destruct (l <=? length b)%nat; [done|].
  apply be_value_zeros.
Qed.

End Go.

(** ** internal/signer: session.go and handler.go *)

Module signer.
Import Go.

(** The library functions the signer calls, from go-ethereum ([crypto],
    [common]) and math/big: they are outside the repository and are taken as
    an interface. *)
Class Primitives := {
  (** [*ecdsa.PrivateKey] *)
  PrivateKey : Type;
  (** [crypto.Keccak256] of the concatenated arguments *)
  Keccak256 : bytes -> bytes;
  (** [crypto.ToECDSA]; [None] is the error result *)
  ToECDSA : bytes -> option PrivateKey;
  (** [crypto.PubkeyToAddress(k.PublicKey).Hex()] *)
  AddressHex : PrivateKey -> string;
  (** [crypto.Sign(digest, key)]: secp256k1 ECDSA; [None] is the error result *)
  crypto_Sign : bytes -> PrivateKey -> option bytes;
  (** [common.HexToAddress(s).Bytes()] *)
  HexToAddress : string -> bytes;
  (** the value math/big leaves in the receiver when [SetString] fails
      (documented as undefined) *)
  SetString_failed : string -> Z;
}.

(** The contract of [crypto.Sign]: 65 bytes in the [R || S || V] format
    where V is 0 or 1. *)
Definition Sign_contract `{Primitives} : Prop :=
  forall digest key sig,
    crypto_Sign digest key = Some sig ->
    length sig = 65%nat /\ (sig !! 64%nat = Some 0 \/ sig !! 64%nat = Some 1).

Inductive error :=
  | ErrNoActiveSession
  | ErrSessionExpired
  | ErrValueLimitExceeded
  | ErrInvalidPrivateKey   (* "invalid private key: %w" *)
  | ErrOpenEnclave         (* "open enclave: %w" *)
  | ErrParsePrivateKey     (* "parse private key: %w" *)
  | ErrEcdsaSign           (* "ecdsa sign: %w" *)
  | Panic.                 (* a run-time panic: nil dereference, index out of range *)

Record OrderData := {
  Salt : Z;
  Maker : bytes;
  Signer : bytes;
  Taker : bytes;
  TokenID : Z;
  MakerAmount : Z;
  TakerAmount : Z;
  Expiration : Z;
  Nonce : Z;
  FeeRateBps : Z;
  Side : Z;
  SignatureType : Z;
}.

Record DomainData := {
  Name : string;
  Version : string;
  ChainID : Z;
  VerifyingContract : bytes;
}.

(** [enclave] holds the sealed key bytes ([None] is the nil pointer);
    [maxValueLimit] is [None] for the nil pointer. *)
Record SessionManager := {
  enclave : option bytes;
  address : string;
  expiresAt : Time;
  maxValueLimit : option Z;
  valueUsed : Z;
  ttl : Duration;
}.

Definition NewSessionManager (ttl : Duration) : SessionManager :=
  {| enclave := None; address := ""; expiresAt := 0;
     maxValueLimit := None; valueUsed := 0; ttl := ttl |}.

Definition Activate `{Primitives} (sm : SessionManager) (now : Time)
    (keyBytes : bytes) (maxValueLimit : Z) : SessionManager * option error :=
  match ToECDSA keyBytes with
  | None => (sm, Some ErrInvalidPrivateKey)
  | Some privKey =>
      ({| enclave := Some keyBytes;
          address := AddressHex privKey;
          expiresAt := Add now (ttl sm);
          maxValueLimit := Some maxValueLimit;
          valueUsed := 0;
          ttl := ttl sm |}, None)
  end.

Definition destroyLocked (sm : SessionManager) : SessionManager :=
  {| enclave := None; address := ""; expiresAt := expiresAt sm;
     maxValueLimit := None; valueUsed := 0; ttl := ttl sm |}.

Definition Destroy (sm : SessionManager) : SessionManager := destroyLocked sm.

Definition isExpired (sm : SessionManager) (now : Time) : bool :=
  After now (expiresAt sm).

Definition set_valueUsed (sm : SessionManager) (v : Z) : SessionManager :=
  {| enclave := enclave sm; address := address sm; expiresAt := expiresAt sm;
     maxValueLimit := maxValueLimit sm; valueUsed := v; ttl := ttl sm |}.

Section Hashing.
Context `{Primitives}.

Definition eip712DomainTypeHash : bytes :=
  Keccak256 (bytes_of_string
    "EIP712Domain(string name,string version,uint256 chainId,address verifyingContract)").

Definition orderTypeHash : bytes :=
  Keccak256 (bytes_of_string
    "Order(uint256 salt,address maker,address signer,address taker,uint256 tokenId,uint256 makerAmount,uint256 takerAmount,uint256 expiration,uint256 nonce,uint256 feeRateBps,uint8 side,uint8 signatureType)").

Definition hashDomain (d : DomainData) : bytes :=
  Keccak256 (eip712DomainTypeHash
    ++ Keccak256 (bytes_of_string (Name d))
    ++ Keccak256 (bytes_of_string (Version d))
    ++ LeftPadBytes (big_Bytes (ChainID d)) 32
    ++ LeftPadBytes (VerifyingContract d) 32).

Definition hashOrder (o : OrderData) : bytes :=
  Keccak256 (orderTypeHash
    ++ LeftPadBytes (big_Bytes (Salt o)) 32
    ++ LeftPadBytes (Maker o) 32
    ++ LeftPadBytes (Signer o) 32
    ++ LeftPadBytes (Taker o) 32
    ++ LeftPadBytes (big_Bytes (TokenID o)) 32
    ++ LeftPadBytes (big_Bytes (MakerAmount o)) 32
    ++ LeftPadBytes (big_Bytes (TakerAmount o)) 32
    ++ LeftPadBytes (big_Bytes (Expiration o)) 32
    ++ LeftPadBytes (big_Bytes (Nonce o)) 32
    ++ LeftPadBytes (big_Bytes (FeeRateBps o)) 32
    ++ LeftPadBytes (big_Bytes (Side o)) 32
    ++ LeftPadBytes (big_Bytes (SignatureType o)) 32).

Definition eip712Digest (domainHash structHash : bytes) : bytes :=
  Keccak256 ([25; 1] ++ domainHash ++ structHash).

(** [SessionManager.Sign].  [now] is the clock read by [isExpired];
    [open_ok] tells whether [enclave.Open] succeeds on this call. *)
Definition Sign (sm : SessionManager) (now : Time) (open_ok : bool)
    (orderValue : Z) (domain : DomainData) (order : OrderData)
    : SessionManager * (bytes + error) :=
  match enclave sm with
  | None => (sm, inr ErrNoActiveSession)
  | Some sealed =>
      if isExpired sm now then (destroyLocked sm, inr ErrSessionExpired)
      else
        let newTotal := valueUsed sm + orderValue in
        match maxValueLimit sm with
        | None => (sm, inr Panic)
        | Some limit =>
            if limit <? newTotal then (sm, inr ErrValueLimitExceeded)
            else
              let domainHash := hashDomain domain in
              let orderHash := hashOrder order in
              let digest := eip712Digest domainHash orderHash in
              if negb open_ok then (sm, inr ErrOpenEnclave)
              else
                match ToECDSA sealed with
                | None => (sm, inr ErrParsePrivateKey)
                | Some privKey =>
                    match crypto_Sign digest privKey with
                    | None => (sm, inr ErrEcdsaSign)
                    | Some sig =>
                        match sig !! 64%nat with
                        | None => (sm, inr Panic)
                        | Some v =>
                            (set_valueUsed sm newTotal,
                             inl (<[64%nat := (v + 27) `mod` 256]> sig))
                        end
                    end
                end
        end
  end.

End Hashing.

(** The decimal string of a possibly nil [*big.Int]. *)
Definition big_String (x : option Z) : string :=
  match x with
  | None => "<nil>"
  | Some z => FormatInt z
  end.

(** [SessionManager.Status].  [now] is the clock read by [isExpired] and
    [now'] the later one read by [time.Until]. *)
Definition Status (sm : SessionManager) (now now' : Time)
    : bool * Z * string * string * string :=
  match enclave sm with
  | None => (false, 0, "0", "0", "")
  | Some _ =>
      if isExpired sm now then (false, 0, "0", "0", "")
      else
        let remaining := Seconds (Sub (expiresAt sm) now') in
        let remaining := if PrimFloat.ltb remaining 0%float then 0%float else remaining in
        (true, int64_of_float remaining, big_String (maxValueLimit sm),
         FormatInt (valueUsed sm), address sm)
  end.

(** Modelled from the spec: the generated protobuf package
    internal/gen/signer/v1 is not among the sources.  Its request and
    response messages ([sign_order_request(domain, order)],
    [sign_order_response(signature_hex, signer_address, signed_at_ns)]) carry
    the fields that the handler and the integration test read and write; an
    enum value outside the named ones is kept with its number. *)
Module signerv1.

Inductive OrderSide :=
  | ORDER_SIDE_BUY
  | ORDER_SIDE_SELL
  | ORDER_SIDE_other (n : Z).

Inductive SignatureType :=
  | SIGNATURE_TYPE_EOA
  | SIGNATURE_TYPE_POLY_PROXY
  | SIGNATURE_TYPE_POLY_GNOSIS_SAFE
  | SIGNATURE_TYPE_other (n : Z).

Record EIP712Domain := {
  Name : string;
  Version : string;
  ChainId : Z;
  VerifyingContract : string;
}.

Record PolymarketOrder := {
  Maker : string;
  Taker : string;
  TokenId : string;
  ConditionId : string;
  Side : OrderSide;
  MakerAmount : string;
  TakerAmount : string;
  Expiration : Z;
  Nonce : Z;
  FeeRateBps : Z;
  SignatureType_ : SignatureType;
}.

Record SignOrderRequest := {
  Domain : option EIP712Domain;
  Order : option PolymarketOrder;
}.

Record SignOrderResponse := {
  Signature : string;
  SignerAddress : string;
  SignedAt : Z;
}.

Record GetSessionStatusResponse := {
  Active : bool;
  TtlSeconds : Z;
  MaxValueLimit : string;
  ValueUsed : string;
  SessionAddress : string;
}.

End signerv1.

(** gRPC status errors returned by the handler. *)
Inductive rpc_error :=
  | InvalidArgument (msg : string)
  | FailedPrecondition (msg : string)
  | ResourceExhausted (msg : string)
  | Internal (cause : error).

Definition protoSideToUint8 (s : signerv1.OrderSide) : Z :=
  match s with
  | signerv1.ORDER_SIDE_BUY => 0
  | signerv1.ORDER_SIDE_SELL => 1
  | _ => 0
  end.

Definition protoSigTypeToUint8 (s : signerv1.SignatureType) : Z :=
  match s with
  | signerv1.SIGNATURE_TYPE_EOA => 0
  | signerv1.SIGNATURE_TYPE_POLY_PROXY => 1
  | signerv1.SIGNATURE_TYPE_POLY_GNOSIS_SAFE => 2
  | _ => 0
  end.

Section Handler.
Context `{Primitives}.

(** [new(big.Int).SetString(s, 10)] with the [ok] result ignored. *)
Definition SetString_unchecked (s : string) : Z :=
  match big_SetString s with
  | Some z => z
  | None => SetString_failed s
  end.

(** The [DomainData] literal of [Handler.SignOrder]. *)
Definition domainOfRequest (d : signerv1.EIP712Domain) : DomainData :=
  {| Name := signerv1.Name d;
     Version := signerv1.Version d;
     ChainID := signerv1.ChainId d;
     VerifyingContract := HexToAddress (signerv1.VerifyingContract d) |}.

(** The [OrderData] literal of [Handler.SignOrder]. *)
Definition orderOfRequest (o : signerv1.PolymarketOrder) : OrderData :=
  {| Salt := 0;
     Maker := HexToAddress (signerv1.Maker o);
     Signer := HexToAddress (signerv1.Maker o);
     Taker := HexToAddress (signerv1.Taker o);
     TokenID := SetString_unchecked (signerv1.TokenId o);
     MakerAmount := SetString_unchecked (signerv1.MakerAmount o);
     TakerAmount := SetString_unchecked (signerv1.TakerAmount o);
     Expiration := signerv1.Expiration o;
     Nonce := signerv1.Nonce o;
     FeeRateBps := signerv1.FeeRateBps o;
     Side := protoSideToUint8 (signerv1.Side o);
     SignatureType := protoSigTypeToUint8 (signerv1.SignatureType_ o) |}.

(** [Handler.SignOrder].  [now] is the clock read inside [Sign],
    [now_status] the one read by the [Status] call that fetches the address,
    [now_signed] the one stamped on the response. *)
Definition SignOrder (sm : SessionManager) (now now_status now_signed : Time)
    (open_ok : bool) (req : signerv1.SignOrderRequest)
    : SessionManager * (signerv1.SignOrderResponse + rpc_error) :=
  match signerv1.Order req with
  | None => (sm, inr (InvalidArgument "order is required"))
  | Some o =>
      match signerv1.Domain req with
      | None => (sm, inr (InvalidArgument "domain is required"))
      | Some d =>
          match big_SetString (signerv1.MakerAmount o) with
          | None =>
              (sm, inr (InvalidArgument ("invalid maker_amount: " +:+ signerv1.MakerAmount o)))
          | Some orderValue =>
              match Sign sm now open_ok orderValue (domainOfRequest d) (orderOfRequest o) with
              | (sm', inr ErrNoActiveSession) =>
                  (sm', inr (FailedPrecondition "no active session"))
              | (sm', inr ErrSessionExpired) =>
                  (sm', inr (FailedPrecondition "session expired"))
              | (sm', inr ErrValueLimitExceeded) =>
                  (sm', inr (ResourceExhausted "cumulative value limit exceeded"))
              | (sm', inr err) => (sm', inr (Internal err))
              | (sm', inl sig) =>
                  let '(_, _, _, _, addr) := Status sm' now_status now_status in
                  (sm', inl {| signerv1.Signature := "0x" +:+ hex_EncodeToString sig;
                               signerv1.SignerAddress := addr;
                               signerv1.SignedAt := now_signed - unixEpoch |})
              end
          end
      end
  end.

Definition GetSessionStatus (sm : SessionManager) (now now' : Time)
    : signerv1.GetSessionStatusResponse :=
  let '(active, ttl, maxLimit, used, addr) := Status sm now now' in
  {| signerv1.Active := active;
     signerv1.TtlSeconds := ttl;
     signerv1.MaxValueLimit := maxLimit;
     signerv1.ValueUsed := used;
     signerv1.SessionAddress := addr |}.

(** A sequence of [Sign] calls against one session manager, with the state
    before and after each call. *)
Record SignCall := {
  call_now : Time;
  call_open_ok : bool;
  call_value : Z;
  call_domain : DomainData;
  call_order : OrderData;
}.

Record SignStep := {
  before : SessionManager;
  call : SignCall;
  outcome : bytes + error;
  after : SessionManager;
}.

Definition sign_call (sm : SessionManager) (c : SignCall) : SessionManager * (bytes + error) :=
  Sign sm (call_now c) (call_open_ok c) (call_value c) (call_domain c) (call_order c).

Fixpoint run (sm : SessionManager) (calls : list SignCall) : list SignStep :=
  match calls with
  | [] => []
  | c :: calls' =>
      let r := sign_call sm c in
      {| before := sm; call := c; outcome := r.2; after := r.1 |} :: run r.1 calls'
  end.

(** The notional of a call that was approved, 0 for a rejected one. *)
Definition approved_notional (st : SignStep) : Z :=
  match outcome st with
  | inl _ => call_value (call st)
  | inr _ => 0
  end.

Definition approved_total (tr : list SignStep) : Z :=
  foldr (fun st acc => approved_notional st + acc) 0 tr.

End Handler.

(** What the specification says of one step of a session: an approved call
    adds its notional to [valueUsed]; a call refused for expiry destroys the
    session; a call refused for any other reason changes nothing. *)
Definition step_accounting (st : SignStep) : Prop :=
  match outcome st with
  | inl _ => valueUsed (after st) = valueUsed (before st) + call_value (call st)
  | inr ErrSessionExpired =>
      valueUsed (after st) = 0 /\ enclave (after st) = None
  | inr _ => after st = before st
  end.

(** The byte strings that [hashOrder] hands to [common.LeftPadBytes], in the
    order in which it appends them. *)
Definition order_fields (o : OrderData) : list bytes :=
  [ big_Bytes (Salt o); Maker o; Signer o; Taker o;
    big_Bytes (TokenID o); big_Bytes (MakerAmount o); big_Bytes (TakerAmount o);
    big_Bytes (Expiration o); big_Bytes (Nonce o); big_Bytes (FeeRateBps o);
    big_Bytes (Side o); big_Bytes (SignatureType o) ].

(** The specification's EIP-712 digest, written from its words and not from
    the code.  The fields have the types of the two type strings: a uint256
    is a number below 2^256, a uint8 a number below 2^8, an address has 20
    bytes. *)
Definition uint256 (z : Z) : Prop := 0 <= z < 2 ^ 256.

Definition uint8 (z : Z) : Prop := 0 <= z < 2 ^ 8.

Definition address20 (a : bytes) : Prop := length a = 20%nat.

Definition typed_domain (d : DomainData) : Prop :=
  uint256 (ChainID d) /\ address20 (VerifyingContract d).

Definition typed_order (o : OrderData) : Prop :=
  uint256 (Salt o) /\ address20 (Maker o) /\ address20 (Signer o) /\
  address20 (Taker o) /\ uint256 (TokenID o) /\ uint256 (MakerAmount o) /\
  uint256 (TakerAmount o) /\ uint256 (Expiration o) /\ uint256 (Nonce o) /\
  uint256 (FeeRateBps o) /\ uint8 (Side o) /\ uint8 (SignatureType o).

(** The [n] low base-256 digits of [z], most significant first. *)
Fixpoint be_bytes (n : nat) (z : Z) : bytes :=
  match n with
  | O => []
  | S n' => be_bytes n' (z `div` 256) ++ [z `mod` 256]
  end.

(** [left_pad_32] of an integer, of an address and of an 8-bit value: always
    32 bytes. *)
Definition uint256_word (z : Z) : bytes := be_bytes 32 z.

Definition address_word (a : bytes) : bytes := replicate 12 0 ++ a.

Definition uint8_word (z : Z) : bytes := replicate 31 0 ++ [z].

Section Specification.
Context `{Primitives}.

Definition typeHash_domain_spec : bytes :=
  Keccak256 (bytes_of_string
    "EIP712Domain(string name,string version,uint256 chainId,address verifyingContract)").

Definition typeHash_order_spec : bytes :=
  Keccak256 (bytes_of_string
    "Order(uint256 salt,address maker,address signer,address taker,uint256 tokenId,uint256 makerAmount,uint256 takerAmount,uint256 expiration,uint256 nonce,uint256 feeRateBps,uint8 side,uint8 signatureType)").

Definition domainSeparator_spec (d : DomainData) : bytes :=
  Keccak256 (typeHash_domain_spec
    ++ Keccak256 (bytes_of_string (Name d))
    ++ Keccak256 (bytes_of_string (Version d))
    ++ uint256_word (ChainID d)
    ++ address_word (VerifyingContract d)).

Definition structHash_spec (o : OrderData) : bytes :=
  Keccak256 (typeHash_order_spec
    ++ uint256_word (Salt o)
    ++ address_word (Maker o)
    ++ address_word (Signer o)
    ++ address_word (Taker o)
    ++ uint256_word (TokenID o)
    ++ uint256_word (MakerAmount o)
    ++ uint256_word (TakerAmount o)
    ++ uint256_word (Expiration o)
    ++ uint256_word (Nonce o)
    ++ uint256_word (FeeRateBps o)
    ++ uint8_word (Side o)
    ++ uint8_word (SignatureType o)).

Definition digest_spec (d : DomainData) (o : OrderData) : bytes :=
  Keccak256 ([25; 1] ++ domainSeparator_spec d ++ structHash_spec o).

End Specification.

(** Two requests that agree on every field the order protocol sees. *)
Definition same_signed_fields
    (d1 d2 : signerv1.EIP712Domain) (o1 o2 : signerv1.PolymarketOrder) : Prop :=
  signerv1.Name d1 = signerv1.Name d2 /\
  signerv1.Version d1 = signerv1.Version d2 /\
  signerv1.ChainId d1 = signerv1.ChainId d2 /\
  signerv1.VerifyingContract d1 = signerv1.VerifyingContract d2 /\
  signerv1.Maker o1 = signerv1.Maker o2 /\
  signerv1.Taker o1 = signerv1.Taker o2 /\
  signerv1.TokenId o1 = signerv1.TokenId o2 /\
  signerv1.MakerAmount o1 = signerv1.MakerAmount o2 /\
  signerv1.TakerAmount o1 = signerv1.TakerAmount o2 /\
  signerv1.Expiration o1 = signerv1.Expiration o2 /\
  signerv1.Nonce o1 = signerv1.Nonce o2 /\
  signerv1.FeeRateBps o1 = signerv1.FeeRateBps o2 /\
  signerv1.Side o1 = signerv1.Side o2 /\
  signerv1.SignatureType_ o1 = signerv1.SignatureType_ o2.

(** A stand-in for the cryptographic library, used to run the model on
    concrete inputs: a checksum for the hash, and a signature made of the
    key, the digest and a parity bit. *)
Definition checksum (b : bytes) : bytes :=
  replicate 31 0 ++ [foldr Z.add 0 b `mod` 256].

Definition fit (n : nat) (b : bytes) : bytes := take n (b ++ replicate n 0).

Definition stand_in : Primitives := {|
  PrivateKey := bytes;
  Keccak256 := checksum;
  ToECDSA := fun k => if (length k =? 32)%nat then Some k else None;
  AddressHex := fun k => "0x" +:+ hex_EncodeToString (fit 20 k);
  crypto_Sign := fun digest k =>
    Some (fit 32 k ++ fit 32 digest ++ [foldr Z.add 0 digest `mod` 2]);
  HexToAddress := fun s => fit 20 (bytes_of_string s);
  SetString_failed := fun _ => 0;
|}.

Definition test_key : bytes := replicate 32 7.

Definition test_domain : signerv1.EIP712Domain :=
  {| signerv1.Name := "ClobExchange";
     signerv1.Version := "1";
     signerv1.ChainId := 137;
     signerv1.VerifyingContract := "0x4bFb41d5B3570DeFd03C39a9A4D8dE6Bd8B8982E" |}.

Definition test_order (amount condition : string) : signerv1.PolymarketOrder :=
  {| signerv1.Maker := "0x1234567890abcdef1234567890abcdef12345678";
     signerv1.Taker := "0x0000000000000000000000000000000000000000";
     signerv1.TokenId := "12345";
     signerv1.ConditionId := condition;
     signerv1.Side := signerv1.ORDER_SIDE_BUY;
     signerv1.MakerAmount := amount;
     signerv1.TakerAmount := "50000000";
     signerv1.Expiration := 0;
     signerv1.Nonce := 1;
     signerv1.FeeRateBps := 100;
     signerv1.SignatureType_ := signerv1.SIGNATURE_TYPE_EOA |}.

(** A call at time [now] for the given notional, with the test order. *)
Definition test_call (now : Time) (value : Z) : SignCall :=
  {| call_now := now; call_open_ok := true; call_value := value;
     call_domain := @domainOfRequest stand_in test_domain;
     call_order := @orderOfRequest stand_in (test_order (FormatInt value) "") |}.

(** A session activated at time 1000 with a ten-second TTL and a limit of
    200 USDC. *)
Definition test_session : SessionManager :=
  (@Activate stand_in (NewSessionManager (10 * Second)) 1000 test_key 200000000).1.

(** *** The 32-byte words *)

Lemma be_bytes_length (n : nat) (z : Z) : length (be_bytes n z) = n.
Proof.
  revert z. induction n as [|n IH]; intros z; simpl; [done|].
  rewrite length_app, IH. simpl. lia.
Qed.

Lemma be_bytes_range (n : nat) (z : Z) : Forall (fun x => 0 <= x < 256) (be_bytes n z).
Proof.
  revert z. induction n as [|n IH]; intros z; simpl; [constructor|].
  apply Forall_app. split; [apply IH|].
  constructor; [|constructor]. apply Z.mod_pos_bound. lia.
Qed.

Lemma be_bytes_value (n : nat) (z : Z) :
  0 <= z < 256 ^ Z.of_nat n -> be_value (be_bytes n z) = z.
Proof.
  revert z. induction n as [|n IH]; intros z Hz.
  { simpl in *. unfold be_value. simpl. lia. }
  simpl. rewrite be_value_app. simpl length.
  rewrite IH.
  - unfold be_value at 1. simpl. pose proof (Z.div_mod z 256). lia.
  - rewrite Nat2Z.inj_succ, Z.pow_succ_r in Hz by lia.
    split; [apply Z.div_pos; lia|].
    apply Z.div_lt_upper_bound; lia.
Qed.

Lemma be_value_snoc (b : bytes) (x : Z) : be_value (b ++ [x]) = be_value b * 256 + x.
Proof. unfold be_value. by rewrite foldl_app. Qed.

(** Byte strings of one length with one big-endian value are equal. *)
Lemma be_value_inj (a b : bytes) :
  length a = length b ->
  Forall (fun x => 0 <= x < 256) a -> Forall (fun x => 0 <= x < 256) b ->
  be_value a = be_value b -> a = b.
Proof.
  revert b. induction a as [|x a IH] using rev_ind; intros b Hlen Ha Hb Hv.
  { destruct b; [done|]. simpl in Hlen. lia. }
  destruct b as [|y b _] using rev_ind.
  { rewrite length_app in Hlen. simpl in Hlen. lia. }
  rewrite !length_app in Hlen. simpl in Hlen.
  apply Forall_app in Ha as [Ha Hx]. apply Forall_app in Hb as [Hb Hy].
  rewrite Forall_singleton in Hx. rewrite Forall_singleton in Hy.
  rewrite !be_value_snoc in Hv.
  assert (x = y /\ be_value a = be_value b) as [-> Hv'] by lia.
  f_equal. apply IH; [lia|done..].
Qed.

Lemma big_Bytes_range (z : Z) : Forall (fun x => 0 <= x < 256) (big_Bytes z).
Proof. unfold big_Bytes. apply Forall_rev, le_digits_bytes. Qed.

Lemma LeftPadBytes_range (b : bytes) (l : nat) :
  Forall (fun x => 0 <= x < 256) b -> Forall (fun x => 0 <= x < 256) (LeftPadBytes b l).
Proof.
  intros Hb. unfold LeftPadBytes. destruct (l <=? length b)%nat; [done|].
  apply Forall_app. split; [|done].
  apply Forall_replicate. lia.
Qed.

Lemma LeftPadBytes_uint (n : nat) (z : Z) :
  0 <= z < 256 ^ Z.of_nat n -> LeftPadBytes (big_Bytes z) n = be_bytes n z.
Proof.
  intros Hz. apply be_value_inj.
  - rewrite be_bytes_length. apply LeftPadBytes_length, big_Bytes_length. lia.
  - apply LeftPadBytes_range, big_Bytes_range.
  - apply be_bytes_range.
  - rewrite LeftPadBytes_value, big_Bytes_value, be_bytes_value by done. lia.
Qed.

(** For a uint256 the code's padded [Bytes()] is the 32-byte word. *)
Lemma LeftPadBytes_uint256 (z : Z) :
  uint256 z -> LeftPadBytes (big_Bytes z) 32 = uint256_word z.
Proof.
  intros Hz. apply LeftPadBytes_uint.
  replace (256 ^ Z.of_nat 32) with (2 ^ 256) by (vm_compute; reflexivity). done.
Qed.

Lemma LeftPadBytes_uint8 (z : Z) :
  uint8 z -> LeftPadBytes (big_Bytes z) 32 = uint8_word z.
Proof.
  intros Hz. unfold uint8 in Hz.
  rewrite LeftPadBytes_uint256 by (unfold uint256; lia).
  unfold uint256_word, uint8_word.
  change (be_bytes 32 z) with (be_bytes 31 (z `div` 256) ++ [z `mod` 256]).
  rewrite Z.div_small, Z.mod_small by lia. reflexivity.
Qed.

Lemma LeftPadBytes_address (a : bytes) :
  address20 a -> LeftPadBytes a 32 = address_word a.
Proof. intros Ha. unfold LeftPadBytes, address_word. by rewrite Ha. Qed.

Lemma uint256_word_length (z : Z) : length (uint256_word z) = 32%nat.
Proof. apply be_bytes_length. Qed.

Lemma uint256_word_value (z : Z) : uint256 z -> be_value (uint256_word z) = z.
Proof.
  intros Hz. apply be_bytes_value.
  replace (256 ^ Z.of_nat 32) with (2 ^ 256) by (vm_compute; reflexivity). done.
Qed.

Example uint256_word_137 : uint256_word 137 = replicate 31 0 ++ [137].
Proof. reflexivity. Qed.

Example uint256_word_50000000 :
  uint256_word 50000000 = replicate 28 0 ++ [2; 250; 240; 128].
Proof. reflexivity. Qed.

Section Properties.
Context `{Primitives}.

(** For fields of the specification's types the code's hashes are the
    specification's. *)
Lemma hashDomain_spec (d : DomainData) :
  typed_domain d -> hashDomain d = domainSeparator_spec d.
Proof.
  intros (Hc & Ha). unfold hashDomain, domainSeparator_spec.
  by rewrite (LeftPadBytes_uint256 _ Hc), (LeftPadBytes_address _ Ha).
Qed.

Lemma hashOrder_spec (o : OrderData) :
  typed_order o -> hashOrder o = structHash_spec o.
Proof.
  intros (H1 & H2 & H3 & H4 & H5 & H6 & H7 & H8 & H9 & H10 & H11 & H12).
  unfold hashOrder, structHash_spec.
  rewrite (LeftPadBytes_uint256 _ H1), (LeftPadBytes_address _ H2),
    (LeftPadBytes_address _ H3), (LeftPadBytes_address _ H4),
    (LeftPadBytes_uint256 _ H5), (LeftPadBytes_uint256 _ H6),
    (LeftPadBytes_uint256 _ H7), (LeftPadBytes_uint256 _ H8),
    (LeftPadBytes_uint256 _ H9), (LeftPadBytes_uint256 _ H10),
    (LeftPadBytes_uint8 _ H11), (LeftPadBytes_uint8 _ H12).
  done.
Qed.

Lemma eip712Digest_spec (d : DomainData) (o : OrderData) :
  typed_domain d -> typed_order o ->
  eip712Digest (hashDomain d) (hashOrder o) = digest_spec d o.
Proof.
  intros Hd Ho. unfold eip712Digest, digest_spec.
  by rewrite hashDomain_spec, hashOrder_spec.
Qed.

(** The outcomes of [Sign], one lemma per exit of the function. *)
Lemma Sign_no_session sm now ok v d o :
  enclave sm = None -> Sign sm now ok v d o = (sm, inr ErrNoActiveSession).
Proof. intros E. unfold Sign. by rewrite E. Qed.

Lemma Sign_expired sm now ok v d o :
  enclave sm <> None -> expiresAt sm < now ->
  Sign sm now ok v d o = (destroyLocked sm, inr ErrSessionExpired).
Proof.
  intros E Hlt. unfold Sign. destruct (enclave sm); [|done].
  unfold isExpired, After.
  by rewrite (proj2 (Z.ltb_lt _ _) Hlt).
Qed.

Lemma Sign_approved sm now ok v d o sm' sig :
  Sign sm now ok v d o = (sm', inl sig) ->
  exists sealed limit key raw rec_id,
    enclave sm = Some sealed /\ now <= expiresAt sm /\
    maxValueLimit sm = Some limit /\ valueUsed sm + v <= limit /\
    ok = true /\ ToECDSA sealed = Some key /\
    crypto_Sign (eip712Digest (hashDomain d) (hashOrder o)) key = Some raw /\
    raw !! 64%nat = Some rec_id /\
    sig = <[64%nat := (rec_id + 27) `mod` 256]> raw /\
    sm' = set_valueUsed sm (valueUsed sm + v).
Proof.
  unfold Sign, isExpired, After. intros Hs.
  repeat case_match; simplify_eq.
  eexists _, _, _, _, _. repeat split; try done; try lia.
  by destruct ok.
Qed.

Lemma Sign_rejected sm now ok v d o sm' e :
  Sign sm now ok v d o = (sm', inr e) ->
  (e = ErrSessionExpired /\ sm' = destroyLocked sm) \/
  (e <> ErrSessionExpired /\ sm' = sm).
Proof.
  unfold Sign. intros Hs.
  repeat case_match; simplify_eq; (by left) || (by right).
Qed.

Lemma step_accounting_run sm calls :
  Forall step_accounting (run sm calls).
Proof.
  revert sm. induction calls as [|c calls IH]; intros sm; simpl; constructor; [|done].
  unfold step_accounting, sign_call. simpl.
  destruct (Sign sm _ _ _ _ _) as [sm' [sig|e]] eqn:Hs; simpl.
  - apply Sign_approved in Hs as (?&?&?&?&?&?&?&?&?&?&?&?&?&?&->). done.
  - apply Sign_rejected in Hs as [[-> ->]|[Hne ->]]; [done|].
    by destruct e.
Qed.

Lemma run_no_session sm calls :
  enclave sm = None ->
  Forall (fun st => outcome st = inr ErrNoActiveSession /\ after st = sm /\ before st = sm)
         (run sm calls).
Proof.
  intros E. induction calls as [|c calls IH]; simpl; [constructor|].
  unfold sign_call. rewrite (Sign_no_session _ _ _ _ _ _ E). simpl.
  by constructor.
Qed.

Lemma approved_total_no_session sm calls :
  enclave sm = None -> approved_total (run sm calls) = 0.
Proof.
  intros E. pose proof (run_no_session sm calls E) as HF.
  induction HF as [|st tr [Ho _] _ IH]; [done|].
  simpl. unfold approved_notional. rewrite Ho. simpl. lia.
Qed.

(** Budget invariant: from a state whose used notional is within the limit,
    what later calls add stays within what is left. *)
Lemma run_within_limit limit sm calls :
  0 <= limit ->
  (enclave sm = None \/ maxValueLimit sm = Some limit) ->
  0 <= valueUsed sm <= limit ->
  Forall (fun c => 0 <= call_value c) calls ->
  approved_total (run sm calls) + valueUsed sm <= limit /\
  Forall (fun st => 0 <= valueUsed (after st) <= limit) (run sm calls).
Proof.
  intros Hlim Hinv Hused Hnn. revert sm Hinv Hused.
  induction Hnn as [|c calls Hc Hnn IH]; intros sm Hinv Hused; simpl.
  { split; [lia|constructor]. }
  unfold approved_notional at 1. simpl. unfold sign_call.
  destruct (Sign sm _ _ _ _ _) as [sm' [sig|e]] eqn:Hs; simpl.
  - apply Sign_approved in Hs
      as (sealed&lim&key&raw&rid&He&Hnow&Hmax&Hle&_&_&_&_&_&->).
    assert (lim = limit) as -> by (destruct Hinv; congruence).
    destruct (IH (set_valueUsed sm (valueUsed sm + call_value c))) as [IH1 IH2];
      simpl; [by right|lia|].
    simpl in IH1. split; [lia|]. constructor; [simpl; lia|done].
  - apply Sign_rejected in Hs as [[-> ->]|[Hne ->]].
    + rewrite approved_total_no_session by done.
      split; [lia|]. constructor; [simpl; lia|].
      eapply Forall_impl; [apply (run_no_session (destroyLocked sm)); done|].
      simpl. intros st (_ & -> & _). simpl. lia.
    + destruct (IH sm) as [IH1 IH2]; [done..|].
      split; [lia|]. by constructor.
Qed.

Lemma Activate_ok sm now key limit sm0 :
  Activate sm now key limit = (sm0, None) ->
  enclave sm0 = Some key /\ maxValueLimit sm0 = Some limit /\
  valueUsed sm0 = 0 /\ expiresAt sm0 = Add now (ttl sm).
Proof.
  unfold Activate. destruct (ToECDSA key); intros ?; simplify_eq. done.
Qed.

(** C1 (as amended).  Against a session activated with a non-negative limit,
    for every sequence of sign calls with non-negative notionals: the
    notionals of the approved calls sum to at most the limit; an approved
    call adds exactly its notional to [valueUsed]; a call refused for
    expiry destroys the session, which resets [valueUsed] to zero; a call
    refused for any other reason (no session, limit exceeded, signing
    failure) leaves the session as it was; and [valueUsed] stays between
    zero and the limit throughout. *)
Theorem sign_notional_invariant sm now key limit sm0 calls :
  Activate sm now key limit = (sm0, None) ->
  0 <= limit ->
  Forall (fun c => 0 <= call_value c) calls ->
  approved_total (run sm0 calls) <= limit /\
  Forall (fun st => step_accounting st /\ 0 <= valueUsed (after st) <= limit)
         (run sm0 calls).
Proof.
  intros Hact Hlim Hnn.
  apply Activate_ok in Hact as (He & Hmax & Hused & _).
  destruct (run_within_limit limit sm0 calls) as [Hsum Hall]; auto; [lia|].
  split; [lia|].
  apply Forall_and. split; [apply step_accounting_run|done].
Qed.

Lemma signature_split (raw : bytes) (rec_id x : Z) :
  length raw = 65%nat -> raw !! 64%nat = Some rec_id ->
  exists r s, raw = r ++ s ++ [rec_id] /\ length r = 32%nat /\ length s = 32%nat /\
    <[64%nat := x]> raw = r ++ s ++ [x].
Proof.
  intros Hlen Hv.
  assert (drop 64 raw = [rec_id]) as Hlast.
  { rewrite (drop_S _ _ _ Hv). by rewrite drop_ge by lia. }
  assert (length (take 32 raw) = 32%nat) as Hr by (rewrite length_take; lia).
  assert (length (take 32 (drop 32 raw)) = 32%nat) as Hs
    by (rewrite length_take, length_drop; lia).
  assert (raw = take 32 raw ++ take 32 (drop 32 raw) ++ [rec_id]) as Hraw.
  { rewrite <- Hlast. replace (drop 64 raw) with (drop 32 (drop 32 raw))
      by (by rewrite drop_drop).
    by rewrite !take_drop. }
  revert Hr Hs Hraw.
  generalize (take 32 raw) (take 32 (drop 32 raw)). intros r s Hr Hs ->.
  exists r, s. repeat split; try done.
  rewrite insert_app_r_alt by lia. rewrite Hr.
  rewrite insert_app_r_alt by lia. rewrite Hs. done.
Qed.

(** The signature of an approved call.  Provided the library's
    [crypto.Sign] honours its contract (65 bytes [R || S || V] with V in
    {0, 1}), every approved sign call returns exactly 65 bytes
    [r (32) || s (32) || v (1)] with [v] in {27, 28}, the first 64 bytes and
    the recovery id being those of the secp256k1 ECDSA signature, under the
    session key, of the code's digest.  When the domain and the order have
    the specification's types, that digest is the specification's:
    [keccak256(0x19 || 0x01 || domainSeparator || structHash)], where
    [structHash] is the keccak256 of the order type hash followed by the
    twelve order fields, in declared order, each a 32-byte word. *)
Theorem sign_signature_shape sm now ok v d o sm' sig :
  Sign_contract ->
  Sign sm now ok v d o = (sm', inl sig) ->
  exists sealed key r s rec_id,
    enclave sm = Some sealed /\ ToECDSA sealed = Some key /\
    crypto_Sign (eip712Digest (hashDomain d) (hashOrder o)) key
      = Some (r ++ s ++ [rec_id]) /\
    length r = 32%nat /\ length s = 32%nat /\
    sig = r ++ s ++ [rec_id + 27] /\
    (rec_id + 27 = 27 \/ rec_id + 27 = 28) /\
    length sig = 65%nat /\
    (typed_domain d -> typed_order o ->
     eip712Digest (hashDomain d) (hashOrder o) = digest_spec d o /\
     crypto_Sign (digest_spec d o) key = Some (r ++ s ++ [rec_id])).
Proof.
  intros Hc Hs.
  apply Sign_approved in Hs
    as (sealed&lim&key&raw&rid&He&_&_&_&_&Hk&Hraw&Hv&->&_).
  destruct (Hc _ _ _ Hraw) as [Hlen Hrid].
  assert (rid = 0 \/ rid = 1) as Hrid' by (destruct Hrid; simplify_eq; auto).
  assert ((rid + 27) `mod` 256 = rid + 27) as ->
    by (destruct Hrid' as [-> | ->]; reflexivity).
  destruct (signature_split raw rid (rid + 27) Hlen Hv)
    as (r & s & Hsplit & Hr & Hs & Hins).
  exists sealed, key, r, s, rid.
  rewrite Hsplit in Hraw.
  repeat split; try done.
  - lia.
  - rewrite length_insert. done.
  - by apply eip712Digest_spec.
  - by rewrite <- eip712Digest_spec.
Qed.

(** The status reported once the clock is past [expiresAt]. *)
Lemma Status_expired sm now now' :
  expiresAt sm < now -> Status sm now now' = (false, 0, "0", "0", "").
Proof.
  intros Hlt. unfold Status, isExpired, After.
  destruct (enclave sm); [|done].
  by rewrite (proj2 (Z.ltb_lt _ _) Hlt).
Qed.

Lemma run_expired E sm calls :
  expiresAt sm = E ->
  Forall (fun c => E < call_now c) calls ->
  Forall (fun st =>
    match enclave (before st) with
    | Some _ => outcome st = inr ErrSessionExpired
    | None => outcome st = inr ErrNoActiveSession
    end /\ enclave (after st) = None /\ expiresAt (after st) = E)
    (run sm calls).
Proof.
  intros HE Hall. revert sm HE.
  induction Hall as [|c calls Hc Hall IH]; intros sm HE; simpl; [constructor|].
  unfold sign_call.
  destruct (enclave sm) as [sealed|] eqn:He.
  - rewrite Sign_expired by (rewrite ?He, ?HE; done).
    constructor; [simpl; by rewrite He|]. by apply IH.
  - rewrite Sign_no_session by done.
    constructor; [simpl; by rewrite He|]. by apply IH.
Qed.

(** C5 (as amended).  At every instant strictly after [expires_at],
    get_session_status reports [active = false] with ttl 0, the strings "0"
    for both amounts and an empty address, and every sign call fails without
    a signature: with session_expired while the session still exists (that
    call destroys it), with no_session afterwards.  At the instant
    [expires_at] itself an existing session is still reported active. *)
Theorem expired_session_refuses sm calls :
  Forall (fun c => expiresAt sm < call_now c) calls ->
  Forall (fun st =>
    match enclave (before st) with
    | Some _ => outcome st = inr ErrSessionExpired
    | None => outcome st = inr ErrNoActiveSession
    end /\
    enclave (after st) = None /\
    forall now now', expiresAt sm < now ->
      GetSessionStatus (after st) now now' =
        {| signerv1.Active := false; signerv1.TtlSeconds := 0;
           signerv1.MaxValueLimit := "0"; signerv1.ValueUsed := "0";
           signerv1.SessionAddress := "" |})
    (run sm calls) /\
  (forall now now', expiresAt sm < now ->
    GetSessionStatus sm now now' =
      {| signerv1.Active := false; signerv1.TtlSeconds := 0;
         signerv1.MaxValueLimit := "0"; signerv1.ValueUsed := "0";
         signerv1.SessionAddress := "" |}) /\
  (enclave sm <> None ->
   forall now', signerv1.Active (GetSessionStatus sm (expiresAt sm) now') = true).
Proof.
  intros Hall. split; [|split].
  - eapply Forall_impl; [by apply (run_expired (expiresAt sm))|].
    simpl. intros st (Ho & He & HE). repeat split; try done.
    intros now now' Hlt. unfold GetSessionStatus.
    by rewrite Status_expired by lia.
  - intros now now' Hlt. unfold GetSessionStatus.
    by rewrite Status_expired.
  - intros He now'. unfold GetSessionStatus, Status, isExpired, After.
    destruct (enclave sm); [|done]. by rewrite Z.ltb_irrefl.
Qed.

Lemma same_signed_fields_requests d1 d2 o1 o2 :
  same_signed_fields d1 d2 o1 o2 ->
  domainOfRequest d1 = domainOfRequest d2 /\ orderOfRequest o1 = orderOfRequest o2.
Proof.
  intros (?&?&?&?&?&?&?&?&?&?&?&?&?&?).
  unfold domainOfRequest, orderOfRequest. split; congruence.
Qed.

(** C10.  The order that the sign_order RPC hashes has salt zero and its
    signer equal to the maker address, whatever the request holds; two
    requests that agree on the domain and order fields the protocol sees
    have the same digest and get the same response; and the signature of an
    approved request is the one over that digest. *)
Theorem sign_order_salt_and_signer_fixed d1 d2 o1 o2 :
  same_signed_fields d1 d2 o1 o2 ->
  Salt (orderOfRequest o1) = 0 /\
  Signer (orderOfRequest o1) = HexToAddress (signerv1.Maker o1) /\
  Maker (orderOfRequest o1) = HexToAddress (signerv1.Maker o1) /\
  hashOrder (orderOfRequest o1) =
    Keccak256 (orderTypeHash
      ++ replicate 32 0
      ++ LeftPadBytes (HexToAddress (signerv1.Maker o1)) 32
      ++ LeftPadBytes (HexToAddress (signerv1.Maker o1)) 32
      ++ LeftPadBytes (HexToAddress (signerv1.Taker o1)) 32
      ++ LeftPadBytes (big_Bytes (SetString_unchecked (signerv1.TokenId o1))) 32
      ++ LeftPadBytes (big_Bytes (SetString_unchecked (signerv1.MakerAmount o1))) 32
      ++ LeftPadBytes (big_Bytes (SetString_unchecked (signerv1.TakerAmount o1))) 32
      ++ LeftPadBytes (big_Bytes (signerv1.Expiration o1)) 32
      ++ LeftPadBytes (big_Bytes (signerv1.Nonce o1)) 32
      ++ LeftPadBytes (big_Bytes (signerv1.FeeRateBps o1)) 32
      ++ LeftPadBytes (big_Bytes (protoSideToUint8 (signerv1.Side o1))) 32
      ++ LeftPadBytes (big_Bytes (protoSigTypeToUint8 (signerv1.SignatureType_ o1))) 32) /\
  eip712Digest (hashDomain (domainOfRequest d1)) (hashOrder (orderOfRequest o1)) =
    eip712Digest (hashDomain (domainOfRequest d2)) (hashOrder (orderOfRequest o2)) /\
  (forall sm now now_status now_signed ok,
     SignOrder sm now now_status now_signed ok
       {| signerv1.Domain := Some d1; signerv1.Order := Some o1 |} =
     SignOrder sm now now_status now_signed ok
       {| signerv1.Domain := Some d2; signerv1.Order := Some o2 |}) /\
  (forall sm now now_status now_signed ok sm' resp,
     SignOrder sm now now_status now_signed ok
       {| signerv1.Domain := Some d1; signerv1.Order := Some o1 |} = (sm', inl resp) ->
     exists sealed key raw rec_id,
       enclave sm = Some sealed /\ ToECDSA sealed = Some key /\
       crypto_Sign
         (eip712Digest (hashDomain (domainOfRequest d1)) (hashOrder (orderOfRequest o1)))
         key = Some raw /\
       raw !! 64%nat = Some rec_id /\
       signerv1.Signature resp =
         "0x" +:+ hex_EncodeToString (<[64%nat := (rec_id + 27) `mod` 256]> raw)).
Proof.
  intros Hsame.
  destruct (same_signed_fields_requests _ _ _ _ Hsame) as [Hd Ho].
  destruct Hsame as (_&_&_&_&_&_&_&Hamt&_).
  repeat split; try done.
  - by rewrite Hd, Ho.
  - intros. unfold SignOrder. simpl. by rewrite Hd, Ho, Hamt.
  - intros sm now ns nsg ok sm' resp. unfold SignOrder. simpl.
    destruct (big_SetString _) as [v|]; [|done].
    destruct (Sign sm now ok v _ _) as [sm1 [sig|e]] eqn:Hs.
    + apply Sign_approved in Hs
        as (sealed&lim&key&raw&rid&He&_&_&_&_&Hk&Hraw&Hv&->&_).
      destruct (Status _ _ _) as [[[[? ?] ?] ?] addr].
      intros ?; simplify_eq. simpl. by exists sealed, key, raw, rid.
    + by destruct e.
Qed.

End Properties.

(** *** Further properties of the session manager and the handler *)

(** The request order with another maker amount. *)
Definition with_MakerAmount (o : signerv1.PolymarketOrder) (amount : string)
    : signerv1.PolymarketOrder :=
  {| signerv1.Maker := signerv1.Maker o;
     signerv1.Taker := signerv1.Taker o;
     signerv1.TokenId := signerv1.TokenId o;
     signerv1.ConditionId := signerv1.ConditionId o;
     signerv1.Side := signerv1.Side o;
     signerv1.MakerAmount := amount;
     signerv1.TakerAmount := signerv1.TakerAmount o;
     signerv1.Expiration := signerv1.Expiration o;
     signerv1.Nonce := signerv1.Nonce o;
     signerv1.FeeRateBps := signerv1.FeeRateBps o;
     signerv1.SignatureType_ := signerv1.SignatureType_ o |}.

(** The integer fields of an order fit a uint256 and its addresses fit a
    32-byte word. *)
Definition fits_words (o : OrderData) : Prop :=
  Forall (fun z => Z.abs z < 2 ^ 256)
    [Salt o; TokenID o; MakerAmount o; TakerAmount o; Expiration o; Nonce o;
     FeeRateBps o; Side o; SignatureType o] /\
  Forall (fun a : list Z => (length a <= 32)%nat) [Maker o; Signer o; Taker o].

Lemma hex_EncodeToString_length (b : bytes) :
  String.length (hex_EncodeToString b) = (2 * length b)%nat.
Proof. induction b as [|x b IH]; simpl; [done|]. rewrite IH. lia. Qed.

Lemma scan_nat_SetString (s : string) (n : Z) :
  scan_nat s = Some n -> big_SetString s = Some n.
Proof.
  destruct s as [|a s]; [done|].
  destruct a as [[] [] [] [] [] [] [] []]; simpl; try done.
Qed.

Section MoreProperties.
Context `{Primitives}.

(** Why a sign call is refused, and what the refusal does to the session. *)
Lemma Sign_refused sm now ok v d o sm' e :
  Sign sm now ok v d o = (sm', inr e) ->
  match e with
  | ErrNoActiveSession => enclave sm = None /\ sm' = sm
  | ErrSessionExpired =>
      enclave sm <> None /\ expiresAt sm < now /\ sm' = destroyLocked sm
  | ErrValueLimitExceeded =>
      enclave sm <> None /\ now <= expiresAt sm /\ sm' = sm /\
      exists limit, maxValueLimit sm = Some limit /\ limit < valueUsed sm + v
  | ErrOpenEnclave => ok = false /\ sm' = sm
  | ErrParsePrivateKey =>
      sm' = sm /\ exists sealed, enclave sm = Some sealed /\ ToECDSA sealed = None
  | ErrEcdsaSign => sm' = sm
  | Panic =>
      sm' = sm /\
      (maxValueLimit sm = None \/
       exists digest key sig, crypto_Sign digest key = Some sig /\ sig !! 64%nat = None)
  | ErrInvalidPrivateKey => False
  end.
Proof.
  unfold Sign, isExpired, After. intros Hs.
  destruct (enclave sm) as [sealed|] eqn:He; [|by simplify_eq].
  destruct (Z.ltb_spec (expiresAt sm) now); [by simplify_eq|].
  destruct (maxValueLimit sm) as [limit|] eqn:Hmax; [|simplify_eq; auto].
  destruct (Z.ltb_spec limit (valueUsed sm + v)); [simplify_eq; eauto 10|].
  destruct ok; simpl in Hs; [|by simplify_eq].
  destruct (ToECDSA sealed) as [key|] eqn:Hk; [|simplify_eq; eauto].
  destruct (crypto_Sign _ key) as [sig|] eqn:Hsig; [|by simplify_eq].
  destruct (sig !! 64%nat) eqn:Hv; simplify_eq. eauto 10.
Qed.

(** X1.  [Destroy] ends the session for good: whatever the state was,
    every later sign call fails with no_session and leaves the state as
    it is, the status is inactive at any time, the counters are wiped, and
    destroying twice is the same as destroying once. *)
Theorem destroy_ends_session sm calls now now' :
  Forall (fun st => outcome st = inr ErrNoActiveSession /\ after st = Destroy sm)
         (run (Destroy sm) calls) /\
  approved_total (run (Destroy sm) calls) = 0 /\
  Status (Destroy sm) now now' = (false, 0, "0", "0", "") /\
  valueUsed (Destroy sm) = 0 /\ maxValueLimit (Destroy sm) = None /\
  address (Destroy sm) = "" /\
  Destroy (Destroy sm) = Destroy sm.
Proof.
  split.
  { eapply Forall_impl; [by apply (run_no_session (Destroy sm))|].
    simpl. by intros st (? & ? & ?). }
  split; [by apply approved_total_no_session|]. done.
Qed.

(** X2.  After a successful [Activate], and provided [crypto.Sign] keeps
    its result format, no sign call ever fails on parsing the sealed key or
    panics: the key that activation accepted is the key that signing opens.
    A call made while the session exists, not after expiry, within the
    limit and with the enclave opening, is approved unless the ECDSA
    library itself reports an error. *)
Theorem activated_session_outcomes sm0 now key limit sm calls :
  Sign_contract ->
  Activate sm0 now key limit = (sm, None) ->
  Forall (fun st =>
    outcome st <> inr ErrParsePrivateKey /\
    outcome st <> inr Panic /\
    outcome st <> inr ErrInvalidPrivateKey /\
    (enclave (before st) <> None ->
     call_now (call st) <= expiresAt sm ->
     valueUsed (before st) + call_value (call st) <= limit ->
     call_open_ok (call st) = true ->
     (exists sig, outcome st = inl sig) \/ outcome st = inr ErrEcdsaSign))
    (run sm calls).
Proof.
  intros Hc Hact.
  assert (exists priv, ToECDSA key = Some priv) as [priv Hpriv].
  { unfold Activate in Hact. destruct (ToECDSA key); [eauto|by simplify_eq]. }
  apply Activate_ok in Hact as (He & Hmax & _ & _).
  assert (expiresAt sm = expiresAt sm /\
          (enclave sm = None \/ (enclave sm = Some key /\ maxValueLimit sm = Some limit)))
    as Hinv by auto.
  revert Hinv. generalize (expiresAt sm) at 1 3 as E. clear He Hmax.
  intros E Hinv. revert sm Hinv.
  induction calls as [|c calls IH]; intros sm [HE Hinv]; simpl; [constructor|].
  unfold sign_call.
  destruct (Sign sm _ _ _ _ _) as [sm1 [sig|e]] eqn:Hs; simpl.
  - constructor; simpl.
    + repeat split; try done. eauto.
    + apply Sign_approved in Hs as (?&?&?&?&?&He&_&Hm&_&_&_&_&_&_&->).
      apply IH. simpl. split; [done|]. right.
      destruct Hinv as [?|[? ?]]; [congruence|]. split; congruence.
  - pose proof (Sign_refused _ _ _ _ _ _ _ _ Hs) as Hr.
    assert (enclave sm <> None -> enclave sm = Some key /\ maxValueLimit sm = Some limit)
      as Hlive by (destruct Hinv as [?|?]; [done|auto]).
    constructor; simpl.
    + split; [|split; [|split]].
      * intros [= ->]. destruct Hr as (_ & sealed & Hsl & Hno).
        destruct Hlive as [? _]; congruence.
      * intros [= ->]. destruct Hr as (_ & [Hno|(dg & k & s & Hsg & Hv)]).
        -- unfold Sign in Hs. destruct (enclave sm) eqn:He; [|done].
           destruct Hlive as [_ ?]; congruence.
        -- destruct (Hc _ _ _ Hsg) as [_ [?|?]]; congruence.
      * intros [= ->]. done.
      * intros He Hnow Hv Hok. right.
        destruct (Hlive He) as [Hk Hm].
        destruct e; try done.
        -- destruct Hr; congruence.
        -- destruct Hr as (_ & ? & _). lia.
        -- destruct Hr as (_ & _ & _ & l & Hl & ?). simplify_eq. lia.
        -- destruct Hr; congruence.
        -- destruct Hr as (_ & sealed & Hsl & Hno). congruence.
        -- destruct Hr as (_ & [Hno|(dg & k & s & Hsg & Hv')]); [congruence|].
           destruct (Hc _ _ _ Hsg) as [_ [?|?]]; congruence.
    + apply IH.
      apply Sign_rejected in Hs as [[-> ->]|[Hne ->]].
      * simpl. auto.
      * done.
Qed.

(** The address that [Status] reports for a session that exists. *)
Lemma Status_address sm now now' sealed :
  enclave sm = Some sealed ->
  (Status sm now now').2 = if expiresAt sm <? now then "" else address sm.
Proof.
  intros He. unfold Status, isExpired, After. rewrite He.
  by destruct (expiresAt sm <? now).
Qed.

(** X3.  How [SignOrder] fails.  A malformed request (no order, no domain,
    a maker amount that is not a decimal integer) is an invalid-argument
    error whatever the session is, even when there is none, and only such a
    request is; for a well-formed request, no session and an expired
    session are failed-precondition errors, and only expiry changes the
    session (it destroys it); a breach of the limit is resource-exhausted
    and leaves the used notional as it was; every other failure of [Sign]
    is internal and leaves the session as it was. *)
Theorem sign_order_errors sm now now_status now_signed ok req :
  let r := SignOrder sm now now_status now_signed ok req in
  (forall sm' err, r = (sm', inr err) ->
     match err with
     | InvalidArgument _ =>
         sm' = sm /\
         (signerv1.Order req = None \/ signerv1.Domain req = None \/
          exists o, signerv1.Order req = Some o /\
                    big_SetString (signerv1.MakerAmount o) = None)
     | FailedPrecondition msg =>
         (msg = "no active session" /\ enclave sm = None /\ sm' = sm) \/
         (msg = "session expired" /\ enclave sm <> None /\ expiresAt sm < now /\
          sm' = destroyLocked sm)
     | ResourceExhausted _ =>
         sm' = sm /\ enclave sm <> None /\ now <= expiresAt sm /\
         exists o v limit,
           signerv1.Order req = Some o /\
           big_SetString (signerv1.MakerAmount o) = Some v /\
           maxValueLimit sm = Some limit /\ limit < valueUsed sm + v
     | Internal cause =>
         sm' = sm /\ enclave sm <> None /\ now <= expiresAt sm /\
         (cause = ErrOpenEnclave \/ cause = ErrParsePrivateKey \/
          cause = ErrEcdsaSign \/ cause = Panic)
     end) /\
  ((signerv1.Order req = None \/ signerv1.Domain req = None \/
    exists o, signerv1.Order req = Some o /\
              big_SetString (signerv1.MakerAmount o) = None) ->
   exists msg, r = (sm, inr (InvalidArgument msg))) /\
  (forall o d v,
     signerv1.Order req = Some o -> signerv1.Domain req = Some d ->
     big_SetString (signerv1.MakerAmount o) = Some v ->
     (enclave sm = None ->
        r = (sm, inr (FailedPrecondition "no active session"))) /\
     (enclave sm <> None -> expiresAt sm < now ->
        r = (destroyLocked sm, inr (FailedPrecondition "session expired"))) /\
     (enclave sm <> None -> now <= expiresAt sm ->
      forall limit, maxValueLimit sm = Some limit -> limit < valueUsed sm + v ->
        r = (sm, inr (ResourceExhausted "cumulative value limit exceeded")))).
Proof.
  intros r. unfold r, SignOrder. split; [|split].
  - intros sm' err Hs.
    destruct (signerv1.Order req) as [o|] eqn:Ho; [|simplify_eq; auto].
    destruct (signerv1.Domain req) as [d|] eqn:Hd; [|simplify_eq; auto].
    destruct (big_SetString _) as [v|] eqn:Hv; [|simplify_eq; eauto 6].
    destruct (Sign sm now ok v _ _) as [sm1 [sig|e]] eqn:HS.
    { by destruct (Status _ _ _) as [[[[? ?] ?] ?] ?]. }
    pose proof (Sign_refused _ _ _ _ _ _ _ _ HS) as Hr.
    assert (e <> ErrNoActiveSession -> enclave sm <> None /\
            (e <> ErrSessionExpired -> now <= expiresAt sm)) as Hlive.
    { intros Hne. unfold Sign, isExpired, After in HS.
      destruct (enclave sm); [|by simplify_eq]. split; [done|]. intros Hne'.
      destruct (Z.ltb_spec (expiresAt sm) now); [by simplify_eq|done]. }
    destruct e; simpl in Hr; simplify_eq; try done.
    + left. intuition.
    + right. intuition.
    + destruct Hr as (? & ? & ? & limit & ? & ?). eauto 10.
    + destruct Hlive as [? Hl]; [done|]. specialize (Hl ltac:(done)). intuition.
    + destruct Hlive as [? Hl]; [done|]. specialize (Hl ltac:(done)). intuition.
    + destruct Hlive as [? Hl]; [done|]. specialize (Hl ltac:(done)). intuition.
    + destruct Hlive as [? Hl]; [done|]. specialize (Hl ltac:(done)). intuition.
  - intros [Ho|[Hd|(o & Ho & Hv)]].
    + rewrite Ho. eauto.
    + rewrite Hd. destruct (signerv1.Order req); eauto.
    + rewrite Ho, Hv. destruct (signerv1.Domain req); eauto.
  - intros o d v Ho Hd Hv. rewrite Ho, Hd, Hv. split; [|split].
    + intros He. by rewrite Sign_no_session.
    + intros He Hlt. by rewrite Sign_expired.
    + intros He Hnow limit Hm Hlt. unfold Sign, isExpired, After.
      destruct (enclave sm); [|done].
      rewrite (proj2 (Z.ltb_ge _ _) Hnow), Hm.
      by rewrite (proj2 (Z.ltb_lt _ _) Hlt).
Qed.

(** X4.  What a successful [SignOrder] returns and does.  The signature is
    the two characters 0x followed by 130 hexadecimal characters; the
    time stamp is the handler's clock in nanoseconds since the Unix epoch;
    the used notional grows by the parsed maker amount and nothing else of
    the session changes.  The signer address is read by a separate [Status]
    call after signing: it is the session's address, except that it is
    empty when the session expires between the two clock readings. *)
Theorem sign_order_response sm now now_status now_signed ok req sm' resp :
  Sign_contract ->
  SignOrder sm now now_status now_signed ok req = (sm', inl resp) ->
  (exists sig, signerv1.Signature resp = "0x" +:+ hex_EncodeToString sig /\
               length sig = 65%nat /\
               String.length (hex_EncodeToString sig) = 130%nat) /\
  signerv1.SignedAt resp = now_signed - unixEpoch /\
  signerv1.SignerAddress resp =
    (if expiresAt sm <? now_status then "" else address sm) /\
  now <= expiresAt sm /\
  exists o v,
    signerv1.Order req = Some o /\
    big_SetString (signerv1.MakerAmount o) = Some v /\
    sm' = set_valueUsed sm (valueUsed sm + v).
Proof.
  unfold SignOrder. intros Hc Hs.
  destruct (signerv1.Order req) as [o|] eqn:Ho; [|by simplify_eq].
  destruct (signerv1.Domain req) as [d|] eqn:Hd; [|by simplify_eq].
  destruct (big_SetString _) as [v|] eqn:Hv; [|by simplify_eq].
  destruct (Sign sm now ok v _ _) as [sm1 [sig|e]] eqn:HS; [|by destruct e].
  apply Sign_approved in HS as
    (sealed & limit & key & raw & rid & He & Hnow & Hm & Hle & _ & _ & Hsg & Hrid & -> & ->).
  pose proof (Status_address (set_valueUsed sm (valueUsed sm + v))
                now_status now_status sealed He) as Ha.
  destruct (Status _ _ _) as [[[[? ?] ?] ?] addr]. simpl in Ha. simplify_eq.
  destruct (Hc _ _ _ Hsg) as [Hlen _].
  split; [|repeat split; try done; eauto].
  eexists. split; [done|].
  by rewrite hex_EncodeToString_length, length_insert, Hlen.
Qed.

(** X5.  A maker amount with a minus sign.  [SetString] accepts it, and
    [big.Int.Bytes] encodes the absolute value: the order that is hashed and
    signed is the one with the positive amount, the signature is the one the
    positive request gets, yet the used notional goes down by the amount
    instead of up, and within an unexceeded limit the request is never
    refused for the limit. *)
Theorem negative_amount_signs_positive_order
    sm now now_status now_signed ok req o d digits n :
  signerv1.Order req = Some o ->
  signerv1.Domain req = Some d ->
  signerv1.MakerAmount o = String "-" digits ->
  scan_nat digits = Some n ->
  let positive :=
    {| signerv1.Domain := Some d;
       signerv1.Order := Some (with_MakerAmount o digits) |} in
  hashOrder (orderOfRequest o) = hashOrder (orderOfRequest (with_MakerAmount o digits)) /\
  (forall sm1 resp, SignOrder sm now now_status now_signed ok req = (sm1, inl resp) ->
     valueUsed sm1 = valueUsed sm - n /\
     forall sm2 resp2,
       SignOrder sm now now_status now_signed ok positive = (sm2, inl resp2) ->
       signerv1.Signature resp2 = signerv1.Signature resp /\
       valueUsed sm2 = valueUsed sm + n) /\
  (forall limit sm1 msg,
     maxValueLimit sm = Some limit -> valueUsed sm <= limit ->
     SignOrder sm now now_status now_signed ok req <> (sm1, inr (ResourceExhausted msg))).
Proof.
  intros Ho Hd Hamt Hn positive.
  assert (big_SetString (signerv1.MakerAmount o) = Some (- n)) as Hneg.
  { rewrite Hamt. simpl. by rewrite Hn. }
  assert (big_SetString digits = Some n) as Hpos by by apply scan_nat_SetString.
  assert (0 <= n) as Hnn by by eapply scan_nat_nonneg.
  assert (hashOrder (orderOfRequest o)
          = hashOrder (orderOfRequest (with_MakerAmount o digits))) as Hh.
  { unfold hashOrder, orderOfRequest, SetString_unchecked. simpl.
    rewrite Hneg, Hpos. by rewrite big_Bytes_opp. }
  split; [done|]. split.
  - intros sm1 resp Hs. unfold SignOrder in Hs. rewrite Ho, Hd, Hneg in Hs.
    destruct (Sign sm now ok (- n) _ _) as [sm1' [sig|e]] eqn:HS; [|by destruct e].
    apply Sign_approved in HS as
      (sealed & limit & key & raw & rid & He & _ & _ & _ & _ & Hk & Hsg & Hrid & -> & ->).
    destruct (Status _ _ _) as [[[[? ?] ?] ?] addr]. simplify_eq.
    split; [simpl; lia|].
    intros sm2 resp2 Hs2. unfold SignOrder, positive in Hs2. simpl in Hs2.
    rewrite Hpos in Hs2.
    destruct (Sign sm now ok n _ _) as [sm2' [sig2|e]] eqn:HS2; [|by destruct e].
    apply Sign_approved in HS2 as
      (sealed2 & limit2 & key2 & raw2 & rid2 & He2 & _ & _ & _ & _ & Hk2 & Hsg2 & Hrid2 & -> & ->).
    destruct (Status _ _ _) as [[[[? ?] ?] ?] addr2]. simplify_eq.
    rewrite <- Hh in Hsg2. simplify_eq. done.
  - intros limit sm1 msg Hm Hle Hs.
    unfold SignOrder in Hs. rewrite Ho, Hd, Hneg in Hs.
    destruct (Sign sm now ok (- n) _ _) as [sm1' [sig|e]] eqn:HS.
    { by destruct (Status _ _ _) as [[[[? ?] ?] ?] ?]. }
    apply Sign_refused in HS.
    destruct e; simplify_eq.
    destruct HS as (_ & _ & _ & l & ? & ?). simplify_eq. lia.
Qed.

(** X6.  The 32-byte words of the order struct hash.  When the integer
    fields are below 2^256 in absolute value and the addresses have at most
    32 bytes, each of the twelve fields is encoded in exactly 32 bytes, so
    the hashed struct is the type hash followed by 384 bytes, and each word
    read back big-endian is the field's absolute value (an address: its own
    big-endian value). *)
Theorem order_words_are_uint256 (o : OrderData) :
  fits_words o ->
  let words := (fun f => LeftPadBytes f 32) <$> order_fields o in
  Forall (fun w => length w = 32%nat) words /\
  length (concat words) = 384%nat /\
  be_value <$> words =
    [Z.abs (Salt o); be_value (Maker o); be_value (Signer o); be_value (Taker o);
     Z.abs (TokenID o); Z.abs (MakerAmount o); Z.abs (TakerAmount o);
     Z.abs (Expiration o); Z.abs (Nonce o); Z.abs (FeeRateBps o);
     Z.abs (Side o); Z.abs (SignatureType o)] /\
  hashOrder o = Keccak256 (orderTypeHash ++ concat words).
Proof.
  intros [Hz Ha] words.
  assert (forall z, Z.abs z < 2 ^ 256 ->
            length (LeftPadBytes (big_Bytes z) 32) = 32%nat /\
            be_value (LeftPadBytes (big_Bytes z) 32) = Z.abs z) as Hint.
  { intros z Hlt.
    assert (256 ^ Z.of_nat 32 = 2 ^ 256) as Hp by (vm_compute; reflexivity).
    pose proof (big_Bytes_length z 32 ltac:(lia)) as Hl.
    split; [by apply LeftPadBytes_length|].
    by rewrite LeftPadBytes_value, big_Bytes_value. }
  assert (forall a : list Z, (length a <= 32)%nat ->
            length (LeftPadBytes a 32) = 32%nat /\
            be_value (LeftPadBytes a 32) = be_value a) as Haddr.
  { intros a Hl. split; [by apply LeftPadBytes_length|apply LeftPadBytes_value]. }
  repeat match goal with
  | H : Forall _ (_ :: _) |- _ => apply Forall_cons in H as [? H]
  end.
  repeat match goal with
  | H : Z.abs _ < _ |- _ => apply Hint in H as [? ?]
  | H : (length _ <= 32)%nat |- _ => apply Haddr in H as [? ?]
  end.
  assert (Forall (fun w : list Z => length w = 32%nat) words) as Hw.
  { unfold words, order_fields. simpl. repeat constructor; done. }
  split; [done|]. split; [|split].
  - unfold words, order_fields. simpl. rewrite !length_app.
    repeat match goal with
    | H : length _ = 32%nat |- _ => rewrite H; clear H
    end. done.
  - unfold words, order_fields. simpl.
    repeat match goal with
    | H : be_value _ = _ |- _ => rewrite H; clear H
    end. done.
  - unfold hashOrder, words, order_fields. simpl. by rewrite !app_nil_r.
Qed.


End MoreProperties.

(** *** The model on concrete inputs *)

#[local] Existing Instance stand_in.

Lemma stand_in_contract : @Sign_contract stand_in.
Proof.
  intros digest key sig. simpl. intros [= <-].
  assert (forall b : list Z, length (fit 32 b) = 32%nat) as Hfit.
  { intros b. unfold fit. rewrite length_take, length_app, length_replicate. lia. }
  split.
  - rewrite !length_app, !Hfit. reflexivity.
  - rewrite lookup_app_r by (rewrite Hfit; lia).
    rewrite lookup_app_r by (rewrite !Hfit; lia).
    rewrite !Hfit. simpl.
    pose proof (Z.mod_pos_bound (foldr Z.add 0 digest) 2 eq_refl) as Hb.
    assert (foldr Z.add 0 digest `mod` 2 = 0 \/ foldr Z.add 0 digest `mod` 2 = 1)
      as [-> | ->] by lia; auto.
Qed.

(** The three calls of the specification's scenario S6. *)
Definition limit_scenario : list SignCall :=
  [test_call 2000 100000000; test_call 3000 100000000; test_call 4000 1000000].

Lemma sign_notional_invariant_witness :
  approved_total (run test_session limit_scenario) <= 200000000 /\
  Forall (fun st => step_accounting st /\ 0 <= valueUsed (after st) <= 200000000)
         (run test_session limit_scenario).
Proof.
  apply (@sign_notional_invariant stand_in
           (NewSessionManager (10 * Second)) 1000 test_key 200000000).
  - vm_compute. reflexivity.
  - lia.
  - repeat constructor; simpl; lia.
Defined.

(** Scenario S6: two orders of 100 USDC pass, the third is refused and
    [valueUsed] stays at the limit. *)
Example limit_scenario_outcomes :
  (fun st => (approved_notional st, valueUsed (after st))) <$>
    run test_session limit_scenario =
  [(100000000, 100000000); (100000000, 200000000); (0, 200000000)] /\
  (outcome <$> run test_session limit_scenario) !! 2%nat =
    Some (inr ErrValueLimitExceeded).
Proof. vm_compute. done. Qed.

(** A call refused for expiry does change [valueUsed]: the session is
    destroyed and the counter goes from 100 USDC back to zero. *)
Lemma expiry_rejection_resets_value_used :
  exists st,
    run test_session [test_call 2000 100000000; test_call (2000 + 10 * Second) 1000000]
      !! 1%nat = Some st /\
    outcome st = inr ErrSessionExpired /\
    valueUsed (before st) = 100000000 /\
    valueUsed (after st) = 0 /\
    valueUsed (after st) <> valueUsed (before st).
Proof. eexists. split; [vm_compute; reflexivity|]. vm_compute. repeat split; congruence. Qed.

(** A maker amount with a minus sign is accepted by [SetString]: the call is
    approved, [valueUsed] goes down, and the order that is signed carries
    the absolute value. *)
Example negative_maker_amount :
  let req amount := {| signerv1.Domain := Some test_domain;
                       signerv1.Order := Some (test_order amount "") |} in
  let r := SignOrder test_session 2000 2001 2002 true (req "-100000000") in
  valueUsed r.1 = -100000000 /\
  (exists resp, r.2 = inl resp) /\
  hashOrder (orderOfRequest (test_order "-100000000" "")) =
    hashOrder (orderOfRequest (test_order "100000000" "")).
Proof. vm_compute. split; [done|]. split; [eexists|]; reflexivity. Qed.

Definition test_signature : bytes :=
  Eval vm_compute in
    match (sign_call test_session (test_call 2000 100000000)).2 with
    | inl sig => sig
    | inr _ => []
    end.

(** The test order has the specification's types, and its signature is
    the one over the specification's digest. *)
Lemma sign_signature_shape_witness :
  typed_domain (call_domain (test_call 2000 100000000)) /\
  typed_order (call_order (test_call 2000 100000000)) /\
  exists sealed key r s rec_id,
    enclave test_session = Some sealed /\ ToECDSA sealed = Some key /\
    crypto_Sign
      (digest_spec (call_domain (test_call 2000 100000000))
                   (call_order (test_call 2000 100000000)))
      key = Some (r ++ s ++ [rec_id]) /\
    length r = 32%nat /\ length s = 32%nat /\
    test_signature = r ++ s ++ [rec_id + 27] /\
    (rec_id + 27 = 27 \/ rec_id + 27 = 28) /\
    length test_signature = 65%nat.
Proof.
  assert (typed_domain (call_domain (test_call 2000 100000000))) as Hd.
  { split; [split; [discriminate|reflexivity]|reflexivity]. }
  assert (typed_order (call_order (test_call 2000 100000000))) as Ho.
  { repeat split; (discriminate || reflexivity). }
  split; [exact Hd|]. split; [exact Ho|].
  destruct (@sign_signature_shape stand_in test_session 2000 true 100000000
              (call_domain (test_call 2000 100000000))
              (call_order (test_call 2000 100000000))
              (set_valueUsed test_session 100000000) test_signature)
    as (sealed & key & r & s & rid & He & Hk & _ & Hr & Hs & Hsig & Hv & Hlen & Hspec).
  - apply stand_in_contract.
  - vm_compute. reflexivity.
  - destruct (Hspec Hd Ho) as [_ Hsigned].
    exists sealed, key, r, s, rid. repeat split; assumption.
Defined.

(** An order whose token id is 2^256, one more than a uint256 holds. *)
Definition oversized_token_order : signerv1.PolymarketOrder :=
  {| signerv1.Maker := "0x1234567890abcdef1234567890abcdef12345678";
     signerv1.Taker := "0x0000000000000000000000000000000000000000";
     signerv1.TokenId :=
       "115792089237316195423570985008687907853269984665640564039457584007913129639936";
     signerv1.ConditionId := "";
     signerv1.Side := signerv1.ORDER_SIDE_BUY;
     signerv1.MakerAmount := "100000000";
     signerv1.TakerAmount := "50000000";
     signerv1.Expiration := 0;
     signerv1.Nonce := 1;
     signerv1.FeeRateBps := 100;
     signerv1.SignatureType_ := signerv1.SIGNATURE_TYPE_EOA |}.

(** C2, at the failing input.  The handler parses [token_id] with
    [SetString] and checks neither the result nor the range, so a request
    whose token id is 2^256 is approved and signed.  [LeftPadBytes] returns
    the 33 bytes of that number as they are: the fifth word of the hashed
    struct is [0x01] followed by 32 zero bytes, the twelve fields take 385
    bytes instead of 384, and what is hashed is not the type hash followed
    by twelve 32-byte words, so the digest that is signed is not the
    specification's (here under the stand-in hash). *)
Theorem oversized_token_id_is_signed :
  let req := {| signerv1.Domain := Some test_domain;
                signerv1.Order := Some oversized_token_order |} in
  let d := domainOfRequest test_domain in
  let o := orderOfRequest oversized_token_order in
  let words := (fun f => LeftPadBytes f 32) <$> order_fields o in
  (exists sm' resp, SignOrder test_session 2000 2001 2002 true req = (sm', inl resp)) /\
  (exists sm' sig, Sign test_session 2000 true 100000000 d o = (sm', inl sig)) /\
  TokenID o = 2 ^ 256 /\ ~ uint256 (TokenID o) /\
  hashOrder o = Keccak256 (orderTypeHash ++ concat words) /\
  length <$> words = [32; 32; 32; 32; 33; 32; 32; 32; 32; 32; 32; 32]%nat /\
  words !! 4%nat = Some (1 :: replicate 32 0) /\
  length (concat words) = 385%nat /\
  hashOrder o <> structHash_spec o /\
  eip712Digest (hashDomain d) (hashOrder o) <> digest_spec d o.
Proof.
  intros req d o words.
  split; [eexists _, _; vm_compute; reflexivity|].
  split; [eexists _, _; vm_compute; reflexivity|].
  split; [vm_compute; reflexivity|].
  split; [intros [_ Hlt]; vm_compute in Hlt; discriminate|].
  split; [vm_compute; reflexivity|].
  split; [vm_compute; reflexivity|].
  split; [vm_compute; reflexivity|].
  split; [vm_compute; reflexivity|].
  split; vm_compute; discriminate.
Qed.

Definition after_expiry : list SignCall :=
  [test_call (1001 + 10 * Second) 1000000; test_call (1002 + 10 * Second) 1000000].

Lemma expired_session_refuses_witness :
  Forall (fun st =>
    match enclave (before st) with
    | Some _ => outcome st = inr ErrSessionExpired
    | None => outcome st = inr ErrNoActiveSession
    end /\
    enclave (after st) = None /\
    forall now now', expiresAt test_session < now ->
      GetSessionStatus (after st) now now' =
        {| signerv1.Active := false; signerv1.TtlSeconds := 0;
           signerv1.MaxValueLimit := "0"; signerv1.ValueUsed := "0";
           signerv1.SessionAddress := "" |})
    (run test_session after_expiry) /\
  (forall now now', expiresAt test_session < now ->
    GetSessionStatus test_session now now' =
      {| signerv1.Active := false; signerv1.TtlSeconds := 0;
         signerv1.MaxValueLimit := "0"; signerv1.ValueUsed := "0";
         signerv1.SessionAddress := "" |}) /\
  (enclave test_session <> None ->
   forall now',
     signerv1.Active (GetSessionStatus test_session (expiresAt test_session) now') = true).
Proof.
  apply (@expired_session_refuses stand_in test_session after_expiry).
  repeat constructor; vm_compute; reflexivity.
Defined.

(** At the instant [now = expires_at] the session is still live: the status
    is active and a sign call is approved.  And of two calls made after
    expiry only the first fails with session_expired. *)
Lemma session_live_at_expiry_instant :
  let t := expiresAt test_session in
  signerv1.Active (GetSessionStatus test_session t t) = true /\
  signerv1.ValueUsed (GetSessionStatus test_session t t) = "0" /\
  signerv1.MaxValueLimit (GetSessionStatus test_session t t) = "200000000" /\
  (exists sig, (sign_call test_session (test_call t 1000000)).2 = inl sig) /\
  outcome <$> run test_session after_expiry =
    [inr ErrSessionExpired; inr ErrNoActiveSession].
Proof. vm_compute. repeat split; try reflexivity. eexists; reflexivity. Qed.

Lemma sign_order_salt_and_signer_fixed_witness :
  let d := test_domain in
  let o1 := test_order "100000000" "0xabcdef" in
  let o2 := test_order "100000000" "another condition" in
  Salt (orderOfRequest o1) = 0 /\
  Signer (orderOfRequest o1) = Maker (orderOfRequest o1) /\
  eip712Digest (hashDomain (domainOfRequest d)) (hashOrder (orderOfRequest o1)) =
    eip712Digest (hashDomain (domainOfRequest d)) (hashOrder (orderOfRequest o2)).
Proof.
  intros d o1 o2.
  destruct (@sign_order_salt_and_signer_fixed stand_in d d o1 o2)
    as (Hsalt & Hsigner & Hmaker & _ & Hdigest & _).
  - repeat split; reflexivity.
  - split; [exact Hsalt|]. split; [by rewrite Hsigner, Hmaker | exact Hdigest].
Defined.

(** *** The further properties on concrete inputs *)

Lemma activated_session_outcomes_witness :
  Forall (fun st =>
    outcome st <> inr ErrParsePrivateKey /\
    outcome st <> inr Panic /\
    outcome st <> inr ErrInvalidPrivateKey /\
    (enclave (before st) <> None ->
     call_now (call st) <= expiresAt test_session ->
     valueUsed (before st) + call_value (call st) <= 200000000 ->
     call_open_ok (call st) = true ->
     (exists sig, outcome st = inl sig) \/ outcome st = inr ErrEcdsaSign))
    (run test_session limit_scenario).
Proof.
  apply (@activated_session_outcomes stand_in
           (NewSessionManager (10 * Second)) 1000 test_key 200000000
           test_session limit_scenario).
  - apply stand_in_contract.
  - vm_compute. reflexivity.
Defined.

(** A request for 300 USDC against the 200 USDC session. *)
Definition over_limit_request : signerv1.SignOrderRequest :=
  {| signerv1.Domain := Some test_domain;
     signerv1.Order := Some (test_order "300000000" "") |}.

Lemma sign_order_errors_witness :
  enclave test_session <> None /\ 2000 <= expiresAt test_session /\
  exists o v limit,
    signerv1.Order over_limit_request = Some o /\
    big_SetString (signerv1.MakerAmount o) = Some v /\
    maxValueLimit test_session = Some limit /\
    limit < valueUsed test_session + v.
Proof.
  destruct (@sign_order_errors stand_in test_session 2000 2001 2002 true
              over_limit_request) as (Hmeans & _).
  destruct (Hmeans test_session (ResourceExhausted "cumulative value limit exceeded"))
    as (_ & Hlive & Hnow & Hlimit).
  - vm_compute. reflexivity.
  - auto.
Defined.

Definition test_request (amount : string) : signerv1.SignOrderRequest :=
  {| signerv1.Domain := Some test_domain;
     signerv1.Order := Some (test_order amount "") |}.

Definition test_response : signerv1.SignOrderResponse :=
  Eval vm_compute in
    match (SignOrder test_session 2000 2001 2002 true (test_request "100000000")).2 with
    | inl resp => resp
    | inr _ => {| signerv1.Signature := ""; signerv1.SignerAddress := "";
                  signerv1.SignedAt := 0 |}
    end.

Lemma sign_order_response_witness :
  (exists sig, signerv1.Signature test_response = "0x" +:+ hex_EncodeToString sig /\
               length sig = 65%nat /\
               String.length (hex_EncodeToString sig) = 130%nat) /\
  signerv1.SignedAt test_response = 2002 - unixEpoch /\
  signerv1.SignerAddress test_response = address test_session.
Proof.
  destruct (@sign_order_response stand_in test_session 2000 2001 2002 true
              (test_request "100000000")
              (set_valueUsed test_session 100000000) test_response)
    as (Hsig & Hat & Haddr & _).
  - apply stand_in_contract.
  - vm_compute. reflexivity.
  - split; [exact Hsig|]. split; [exact Hat|]. exact Haddr.
Defined.

Lemma negative_amount_signs_positive_order_witness :
  hashOrder (orderOfRequest (test_order "-100000000" "")) =
    hashOrder (orderOfRequest (with_MakerAmount (test_order "-100000000" "") "100000000")) /\
  forall limit sm1 msg,
    maxValueLimit test_session = Some limit -> valueUsed test_session <= limit ->
    SignOrder test_session 2000 2001 2002 true (test_request "-100000000")
      <> (sm1, inr (ResourceExhausted msg)).
Proof.
  destruct (@negative_amount_signs_positive_order stand_in test_session
              2000 2001 2002 true (test_request "-100000000")
              (test_order "-100000000" "") test_domain "100000000" 100000000)
    as (Hhash & _ & Hlimit); try reflexivity.
  split; [exact Hhash | exact Hlimit].
Defined.

Lemma order_words_are_uint256_witness :
  let o := orderOfRequest (test_order "100000000" "") in
  let words := (fun f => LeftPadBytes f 32) <$> order_fields o in
  length (concat words) = 384%nat /\
  hashOrder o = Keccak256 (orderTypeHash ++ concat words).
Proof.
  intros o words.
  destruct (@order_words_are_uint256 stand_in o) as (_ & Hlen & _ & Hhash).
  - split; repeat constructor; vm_compute; (reflexivity || lia).
  - split; [exact Hlen | exact Hhash].
Defined.

End signer.

(** ** internal/adapter: types, WebSocket client, circuit breaker, Redis writer *)

Module adapter.
Import Go.

(** [Exchange] is a string type. *)
Definition ExchangePolymarket : string := "polymarket".
Definition ExchangeKalshi : string := "kalshi".

Record PriceLevel := {
  Price : float;
  Size : float;
}.

Record BookUpdate := {
  Exchange : string;
  MarketID : string;
  AssetID : string;
  Bids : list PriceLevel;
  Asks : list PriceLevel;
  Timestamp : Time;
  Hash : string;
}.

(** *** WSClient: the parts of the transport that subscribers see *)

Inductive CircuitState := CircuitClosed | CircuitOpen.

(** [subs] holds the buffer of every subscriber channel, in subscription
    order; [reading] tells whether [Connect] has started the read loop. *)
Record WSClient := {
  circuit : CircuitState;
  subs : list (list bytes);
  outbox : list bytes;
  reading : bool;
}.

Definition NewWSClient : WSClient :=
  {| circuit := CircuitClosed; subs := []; outbox := []; reading := false |}.

Definition Circuit (ws : WSClient) : CircuitState := circuit ws.

(** [Subscribe] appends a fresh channel of capacity 512 and returns it (its
    position in [subs]). *)
Definition Subscribe (ws : WSClient) : WSClient * nat :=
  ({| circuit := circuit ws; subs := subs ws ++ [[]];
      outbox := outbox ws; reading := reading ws |},
   length (subs ws)).

Definition Send (ws : WSClient) (data : bytes) : WSClient :=
  {| circuit := circuit ws; subs := subs ws;
     outbox := trySend 256 (outbox ws) data; reading := reading ws |}.

(** [Connect] after a successful dial: the circuit closes and the read and
    write loops start. *)
Definition Connect (ws : WSClient) : WSClient :=
  {| circuit := CircuitClosed; subs := subs ws;
     outbox := outbox ws; reading := true |}.

(** [fanOut] offers the message to every subscriber without blocking. *)
Definition fanOut (ws : WSClient) (msg : bytes) : WSClient :=
  {| circuit := circuit ws;
     subs := (fun ch => trySend 512 ch msg) <$> subs ws;
     outbox := outbox ws; reading := reading ws |}.

(** One successful iteration of [readLoop]: a frame read from the socket is
    fanned out.  Nothing is read before [Connect]. *)
Definition readLoop_frame (ws : WSClient) (msg : bytes) : WSClient :=
  if reading ws then fanOut ws msg else ws.

(** *** Circuit breaker *)

Record CircuitBreakerConfig := {
  StaleThreshold : Duration;
  CoolOff : Duration;
  PollInterval : Duration;
}.

Definition DefaultCircuitBreakerConfig : CircuitBreakerConfig :=
  {| StaleThreshold := 1000 * Millisecond;
     CoolOff := 2 * Second;
     PollInterval := 100 * Millisecond |}.

Record marketState := {
  LastUpdate : Time;
  RecoveredAt : Time;
  Healthy : bool;
}.

(** [conns] maps an exchange to a pointer to its WSClient; the clients live
    in a heap that the breaker does not own.  [markets] is keyed by
    [subKey], the pair of exchange and market id. *)
Record CircuitBreaker := {
  cfg : CircuitBreakerConfig;
  conns : gmap string nat;
  markets : gmap (string * string) marketState;
  halted : bool;
}.

Definition NewCircuitBreaker (cfg : CircuitBreakerConfig) : CircuitBreaker :=
  {| cfg := cfg; conns := ∅; markets := ∅; halted := false |}.

Definition WatchConnection (cb : CircuitBreaker) (exchange : string) (ws : nat)
    : CircuitBreaker :=
  {| cfg := cfg cb; conns := <[exchange := ws]> (conns cb);
     markets := markets cb; halted := halted cb |}.

Definition ManualHalt (cb : CircuitBreaker) : CircuitBreaker :=
  {| cfg := cfg cb; conns := conns cb; markets := markets cb; halted := true |}.

Definition Resume (cb : CircuitBreaker) : CircuitBreaker :=
  {| cfg := cfg cb; conns := conns cb; markets := markets cb; halted := false |}.

Definition set_markets (cb : CircuitBreaker)
    (m : gmap (string * string) marketState) : CircuitBreaker :=
  {| cfg := cfg cb; conns := conns cb; markets := m; halted := halted cb |}.

(** [CanTrade].  [heap] gives the current state of every WSClient; [now] is
    the reading of [nowFunc]. *)
Definition CanTrade (cb : CircuitBreaker) (heap : nat -> WSClient)
    (exchange marketID : string) (now : Time) : bool :=
  if halted cb then false
  else if match conns cb !! exchange with
          | Some ws =>
              match Circuit (heap ws) with CircuitOpen => true | CircuitClosed => false end
          | None => false
          end
  then false
  else
    match markets cb !! (exchange, marketID) with
    | None => false
    | Some ms =>
        if StaleThreshold (cfg cb) <? Sub now (LastUpdate ms) then false
        else if negb (IsZero (RecoveredAt ms))
                && (Sub now (RecoveredAt ms) <? CoolOff (cfg cb))
        then false
        else true
    end.

Definition recordUpdate (cb : CircuitBreaker) (update : BookUpdate) (now : Time)
    : CircuitBreaker :=
  let key := (Exchange update, MarketID update) in
  let ms :=
    match markets cb !! key with
    | Some ms => ms
    | None => {| LastUpdate := 0; RecoveredAt := 0; Healthy := false |}
    end in
  let wasHealthy := Healthy ms in
  let ms := {| LastUpdate := now; RecoveredAt := RecoveredAt ms; Healthy := true |} in
  let ms :=
    if negb wasHealthy && Healthy ms
    then {| LastUpdate := LastUpdate ms; RecoveredAt := now; Healthy := Healthy ms |}
    else ms in
  set_markets cb (<[key := ms]> (markets cb)).

Definition MarkStale (cb : CircuitBreaker) (exchange marketID : string)
    : CircuitBreaker :=
  let key := (exchange, marketID) in
  match markets cb !! key with
  | Some ms =>
      set_markets cb
        (<[key := {| LastUpdate := LastUpdate ms; RecoveredAt := RecoveredAt ms;
                     Healthy := false |}]> (markets cb))
  | None => cb
  end.

(** What can happen to a breaker: an update taken from the feed by [Run]
    (with the clock reading of [recordUpdate]), or a call of one of its
    methods. *)
Inductive event :=
  | EvUpdate (update : BookUpdate) (now : Time)
  | EvMarkStale (exchange marketID : string)
  | EvManualHalt
  | EvResume
  | EvWatchConnection (exchange : string) (ws : nat).

Definition apply_event (cb : CircuitBreaker) (e : event) : CircuitBreaker :=
  match e with
  | EvUpdate update now => recordUpdate cb update now
  | EvMarkStale exchange marketID => MarkStale cb exchange marketID
  | EvManualHalt => ManualHalt cb
  | EvResume => Resume cb
  | EvWatchConnection exchange ws => WatchConnection cb exchange ws
  end.

Definition apply_events (cb : CircuitBreaker) (evs : list event) : CircuitBreaker :=
  foldl apply_event cb evs.

(** The event is an update for the given market. *)
Definition updates_market (exchange marketID : string) (e : event) : Prop :=
  match e with
  | EvUpdate update _ => Exchange update = exchange /\ MarketID update = marketID
  | _ => False
  end.

(** Every update of the event happens at or after [t]. *)
Definition not_before (t : Time) (e : event) : Prop :=
  match e with
  | EvUpdate _ now => t <= now
  | _ => True
  end.

(** The market's [last_update] and [recovered_at] as the specification
    names them: absent while the breaker has no state for the market, and
    [recovered_at] unset while [RecoveredAt] is the zero time. *)
Definition last_update (cb : CircuitBreaker) (exchange marketID : string)
    : option Time :=
  LastUpdate <$> markets cb !! (exchange, marketID).

Definition recovered_at (cb : CircuitBreaker) (exchange marketID : string)
    : option Time :=
  match markets cb !! (exchange, marketID) with
  | Some ms => if IsZero (RecoveredAt ms) then None else Some (RecoveredAt ms)
  | None => None
  end.

Definition test_update (exchange marketID : string) : BookUpdate :=
  {| Exchange := exchange; MarketID := marketID; AssetID := "";
     Bids := []; Asks := []; Timestamp := 0; Hash := "" |}.

(** *** Redis writer *)

Record bookSnapshot := {
  Bid : string;
  Ask : string;
}.

#[global] Instance bookSnapshot_eq_dec : EqDecision bookSnapshot.
Proof. solve_decision. Defined.

(** One call of [RedisClient.HSet(ctx, key, "bid", bid, "ask", ask, "ts", ts)]. *)
Record HSetCall := {
  hset_key : string;
  hset_bid : string;
  hset_ask : string;
  hset_ts : string;
}.

(** [last] is keyed by Redis key; [buf] is the 1024-slot buffer between the
    ingestion and the flusher goroutines. *)
Record RedisWriter := {
  buf : list BookUpdate;
  last : gmap string bookSnapshot;
}.

Definition NewRedisWriter : RedisWriter := {| buf := []; last := ∅ |}.

Section Writer.
(** [strconv.FormatFloat(f, 'f', -1, 64)], from Go's standard library. *)
Context (FormatFloat : float -> string).

(** The loop of [bestPrice] over [levels[1:]]. *)
Definition bestPrice_step (isBid : bool) (best : float) (l : PriceLevel) : float :=
  let best := if isBid && PrimFloat.ltb best (Price l) then Price l else best in
  if negb isBid && PrimFloat.ltb (Price l) best then Price l else best.

Definition bestPrice (levels : list PriceLevel) (isBid : bool) : string :=
  match levels with
  | [] => "0"
  | l0 :: rest => FormatFloat (foldl (bestPrice_step isBid) (Price l0) rest)
  end.

(** [fmt.Sprintf("book:%s:%s", update.Exchange, update.MarketID)]. *)
Definition redisKey (update : BookUpdate) : string :=
  "book:" +:+ Exchange update +:+ ":" +:+ MarketID update.

(** The pair derived from an update, and the HSET that writes it. *)
Definition best (update : BookUpdate) : bookSnapshot :=
  {| Bid := bestPrice (Bids update) true; Ask := bestPrice (Asks update) false |}.

Definition hset_of (update : BookUpdate) : HSetCall :=
  {| hset_key := redisKey update;
     hset_bid := bestPrice (Bids update) true;
     hset_ask := bestPrice (Asks update) false;
     hset_ts := FormatInt (UnixMilli (Timestamp update)) |}.

(** [RedisWriter.write]: the new state and the HSET issued, if any. *)
Definition write (rw : RedisWriter) (update : BookUpdate)
    : RedisWriter * option HSetCall :=
  let bestBid := bestPrice (Bids update) true in
  let bestAsk := bestPrice (Asks update) false in
  let key := redisKey update in
  let suppressed :=
    match last rw !! key with
    | Some prev => String.eqb (Bid prev) bestBid && String.eqb (Ask prev) bestAsk
    | None => false
    end in
  if suppressed then (rw, None)
  else
    ({| buf := buf rw; last := <[key := {| Bid := bestBid; Ask := bestAsk |}]> (last rw) |},
     Some {| hset_key := key; hset_bid := bestBid; hset_ask := bestAsk;
             hset_ts := FormatInt (UnixMilli (Timestamp update)) |}).

(** The ingestion goroutine: a non-blocking send into [buf]. *)
Definition ingest (rw : RedisWriter) (update : BookUpdate) : RedisWriter :=
  {| buf := trySend 1024 (buf rw) update; last := last rw |}.

(** The flusher applied to the updates it receives, in order: the final
    state and the HSETs issued. *)
Fixpoint flush (rw : RedisWriter) (updates : list BookUpdate)
    : RedisWriter * list HSetCall :=
  match updates with
  | [] => (rw, [])
  | update :: updates' =>
      let r := write rw update in
      let r' := flush r.1 updates' in
      (r'.1, match r.2 with Some c => c :: r'.2 | None => r'.2 end)
  end.

(** The pair of the most recent update written under [key], if any. *)
Definition latest (key : string) (updates : list BookUpdate) : option bookSnapshot :=
  foldl (fun acc update =>
           if String.eqb (redisKey update) key then Some (best update) else acc)
        None updates.

(** The specification keys the cache by (venue, market): the pair of the
    most recent update of that venue and market among [updates], if there
    is one. *)
Definition last_pair_of_market (exchange marketID : string)
    (updates : list BookUpdate) : option bookSnapshot :=
  best <$> list.last
    (filter (fun x => Exchange x = exchange /\ MarketID x = marketID) updates).

End Writer.

(** A venue tag without a colon, as [polymarket] and [kalshi] are. *)
Fixpoint colon_free (s : string) : bool :=
  match s with
  | EmptyString => true
  | String a s' => negb (Ascii.eqb a ":") && colon_free s'
  end.

(** A stand-in for [strconv.FormatFloat], used to run the model: "0" for
    zero, and mantissa and exponent otherwise. *)
Definition format_stand_in (f : float) : string :=
  match Prim2SF f with
  | S754_zero false => "0"
  | S754_zero true => "-0"
  | S754_infinity false => "+Inf"
  | S754_infinity true => "-Inf"
  | S754_nan => "NaN"
  | S754_finite s m e =>
      (if s then "-" else "") +:+ pretty (Z.pos m) +:+ "p" +:+ pretty e
  end.

Definition test_book (bid ask : float) (ms : Z) : BookUpdate :=
  {| Exchange := ExchangeKalshi; MarketID := "FED-DEC"; AssetID := "";
     Bids := [{| Price := bid; Size := 300 |}];
     Asks := [{| Price := ask; Size := 200 |}];
     Timestamp := unixEpoch + ms * Millisecond; Hash := "" |}.

(** *** Properties of the circuit breaker *)

Lemma Sub_mono_l (t t' u : Z) : t <= t' -> Sub t u <= Sub t' u.
Proof. unfold Sub, minInt64, maxInt64. lia. Qed.

Lemma Sub_anti_r (t u u' : Z) : u <= u' -> Sub t u' <= Sub t u.
Proof. unfold Sub, minInt64, maxInt64. lia. Qed.

Lemma CanTrade_stale cb heap exchange marketID now ms :
  markets cb !! (exchange, marketID) = Some ms ->
  StaleThreshold (cfg cb) < Sub now (LastUpdate ms) ->
  CanTrade cb heap exchange marketID now = false.
Proof.
  intros Hms Hstale. unfold CanTrade. rewrite Hms.
  rewrite (proj2 (Z.ltb_lt _ _) Hstale).
  by repeat case_match.
Qed.

Lemma CanTrade_cooling cb heap exchange marketID now ms :
  markets cb !! (exchange, marketID) = Some ms ->
  RecoveredAt ms <> 0 ->
  Sub now (RecoveredAt ms) < CoolOff (cfg cb) ->
  CanTrade cb heap exchange marketID now = false.
Proof.
  intros Hms Hnz Hcool. unfold CanTrade, IsZero. rewrite Hms.
  rewrite (proj2 (Z.ltb_lt _ _) Hcool).
  rewrite (proj2 (Z.eqb_neq _ _) Hnz). simpl.
  by repeat case_match.
Qed.

Lemma cfg_apply_events cb evs : cfg (apply_events cb evs) = cfg cb.
Proof.
  revert cb. induction evs as [|e evs IH]; intros cb; [done|].
  simpl. unfold apply_events in IH. rewrite IH.
  destruct e; simpl; try done.
  unfold MarkStale. by case_match.
Qed.

(** Events other than an update for the market leave its [LastUpdate]. *)
Lemma LastUpdate_kept cb exchange marketID ms e :
  markets cb !! (exchange, marketID) = Some ms ->
  ~ updates_market exchange marketID e ->
  exists ms', markets (apply_event cb e) !! (exchange, marketID) = Some ms' /\
              LastUpdate ms' = LastUpdate ms.
Proof.
  intros Hms Hno. destruct e as [u t|ex mk| | |ex ws]; simpl in *; eauto.
  - unfold recordUpdate. simpl. rewrite lookup_insert_ne; [eauto|].
    intros [= ? ?]. by apply Hno.
  - unfold MarkStale.
    destruct (markets cb !! (ex, mk)) as [ms0|] eqn:H0; [|eauto]. simpl.
    destruct (decide ((ex, mk) = (exchange, marketID))) as [Heq|Hne].
    + rewrite Heq in *. rewrite lookup_insert_eq. simplify_eq. eauto.
    + rewrite lookup_insert_ne by done. eauto.
Qed.

Lemma LastUpdate_kept_events cb exchange marketID ms evs :
  markets cb !! (exchange, marketID) = Some ms ->
  Forall (fun e => ~ updates_market exchange marketID e) evs ->
  exists ms', markets (apply_events cb evs) !! (exchange, marketID) = Some ms' /\
              LastUpdate ms' = LastUpdate ms.
Proof.
  intros Hms Hall. revert cb ms Hms.
  induction Hall as [|e evs He Hall IH]; intros cb ms Hms; simpl; [eauto|].
  destruct (LastUpdate_kept cb exchange marketID ms e Hms He) as (ms1 & H1 & HL).
  destruct (IH _ _ H1) as (ms2 & H2 & HL2).
  exists ms2. split; [done|congruence].
Qed.

(** Once a recovery has happened at [r], later events keep [RecoveredAt] at
    [r] or move it to a later update. *)
Lemma RecoveredAt_kept r cb exchange marketID ms e :
  markets cb !! (exchange, marketID) = Some ms ->
  r <= RecoveredAt ms ->
  not_before r e ->
  exists ms', markets (apply_event cb e) !! (exchange, marketID) = Some ms' /\
              r <= RecoveredAt ms'.
Proof.
  intros Hms Hr Ht. destruct e as [u t|ex mk| | |ex ws]; simpl in *; eauto.
  - unfold recordUpdate. simpl.
    destruct (decide ((Exchange u, MarketID u) = (exchange, marketID))) as [Heq|Hne].
    + rewrite Heq, Hms, lookup_insert_eq.
      destruct (Healthy ms); simpl; eauto.
    + rewrite lookup_insert_ne by done. eauto.
  - unfold MarkStale.
    destruct (markets cb !! (ex, mk)) as [ms0|] eqn:H0; [|eauto]. simpl.
    destruct (decide ((ex, mk) = (exchange, marketID))) as [Heq|Hne].
    + rewrite Heq in *. rewrite lookup_insert_eq. simplify_eq. eauto.
    + rewrite lookup_insert_ne by done. eauto.
Qed.

Lemma RecoveredAt_kept_events r cb exchange marketID ms evs :
  markets cb !! (exchange, marketID) = Some ms ->
  r <= RecoveredAt ms ->
  Forall (not_before r) evs ->
  exists ms', markets (apply_events cb evs) !! (exchange, marketID) = Some ms' /\
              r <= RecoveredAt ms'.
Proof.
  intros Hms Hr Hall. revert cb ms Hms Hr.
  induction Hall as [|e evs He Hall IH]; intros cb ms Hms Hr; simpl; [eauto|].
  destruct (RecoveredAt_kept r cb exchange marketID ms e Hms Hr He) as (ms1 & H1 & Hr1).
  by apply (IH _ _ H1).
Qed.

(** C3 (as amended).  When [can_trade] is false because the market's last
    update is older than the stale threshold, it stays false, as time goes
    on, until an update for that market arrives.  The cool-off applies to a
    market that was marked unhealthy ([mark_stale]): after the update that
    recovers it at time [r], [can_trade] stays false at every instant less
    than the cool-off after [r], whatever happens meanwhile.  A market that
    only aged past the threshold is still flagged healthy: one fresh update
    re-opens it at once, provided the other conditions hold and its last
    recovery is at least the cool-off old. *)
Theorem stale_market_stays_closed cb heap exchange marketID ms now :
  markets cb !! (exchange, marketID) = Some ms ->
  StaleThreshold (cfg cb) < Sub now (LastUpdate ms) ->
  CanTrade cb heap exchange marketID now = false /\
  (forall evs heap' now',
     now <= now' ->
     Forall (fun e => ~ updates_market exchange marketID e) evs ->
     CanTrade (apply_events cb evs) heap' exchange marketID now' = false) /\
  (forall update r evs heap' now',
     Healthy ms = false ->
     Exchange update = exchange -> MarketID update = marketID ->
     0 < r ->
     Forall (not_before r) evs ->
     Sub now' r < CoolOff (cfg cb) ->
     CanTrade (apply_events (recordUpdate cb update r) evs) heap' exchange marketID now'
       = false) /\
  (forall update r,
     Healthy ms = true ->
     Exchange update = exchange -> MarketID update = marketID ->
     halted cb = false ->
     (forall ws, conns cb !! exchange = Some ws -> Circuit (heap ws) = CircuitClosed) ->
     0 <= StaleThreshold (cfg cb) ->
     RecoveredAt ms = 0 \/ CoolOff (cfg cb) <= Sub r (RecoveredAt ms) ->
     CanTrade (recordUpdate cb update r) heap exchange marketID r = true).
Proof.
  intros Hms Hstale. split; [by eapply CanTrade_stale|]. split; [|split].
  - intros evs heap' now' Hle Hall.
    destruct (LastUpdate_kept_events cb exchange marketID ms evs Hms Hall)
      as (ms' & Hms' & HL).
    eapply CanTrade_stale; [done|].
    rewrite cfg_apply_events, HL.
    pose proof (Sub_mono_l now now' (LastUpdate ms) Hle). lia.
  - intros update r evs heap' now' Hh <- <- Hr Hall Hcool.
    assert (exists ms1, markets (recordUpdate cb update r)
                          !! (Exchange update, MarketID update) = Some ms1 /\
                        r <= RecoveredAt ms1) as (ms1 & H1 & Hr1).
    { unfold recordUpdate. simpl. rewrite Hms, Hh, lookup_insert_eq. simpl.
      eexists. split; [done|]. simpl. lia. }
    destruct (RecoveredAt_kept_events r _ _ _ ms1 evs H1 Hr1 Hall) as (ms2 & H2 & Hr2).
    eapply CanTrade_cooling; [done|lia|].
    rewrite cfg_apply_events. simpl.
    pose proof (Sub_anti_r now' r (RecoveredAt ms2) Hr2). lia.
  - intros update r Hh <- <- Hhalt Hconn Hthr Hrec.
    unfold CanTrade, recordUpdate. simpl.
    rewrite Hhalt, Hms, Hh, lookup_insert_eq. simpl.
    assert (match conns cb !! Exchange update with
            | Some ws => match Circuit (heap ws) with
                         | CircuitOpen => true | CircuitClosed => false end
            | None => false
            end = false) as ->.
    { destruct (conns cb !! Exchange update) as [ws|]; [|done]. by rewrite (Hconn ws). }
    assert (Sub r r = 0) as -> by (unfold Sub, minInt64, maxInt64; lia).
    rewrite (proj2 (Z.ltb_ge _ _) Hthr).
    unfold IsZero. destruct Hrec as [-> | Hco]; [done|].
    rewrite (proj2 (Z.ltb_ge _ _) Hco). by rewrite andb_false_r.
Qed.

(** C4.  [can_trade] is true exactly when the four conditions hold, which
    the function tests in this order: no manual halt; the transport watched
    for the venue, if any, has its circuit closed; the market has a last
    update, no older than the stale threshold; [recovered_at] is unset or at
    least the cool-off ago.  The defaults are 1000 ms and 2 s; a manual halt
    lasts until [Resume]. *)
Theorem can_trade_iff cb heap exchange marketID now :
  (CanTrade cb heap exchange marketID now = true <->
     halted cb = false /\
     (forall ws, conns cb !! exchange = Some ws -> Circuit (heap ws) = CircuitClosed) /\
     (exists t, last_update cb exchange marketID = Some t /\
                Sub now t <= StaleThreshold (cfg cb)) /\
     (recovered_at cb exchange marketID = None \/
      exists r, recovered_at cb exchange marketID = Some r /\
                CoolOff (cfg cb) <= Sub now r)) /\
  StaleThreshold DefaultCircuitBreakerConfig = 1000 * Millisecond /\
  CoolOff DefaultCircuitBreakerConfig = 2 * Second /\
  halted (NewCircuitBreaker (cfg cb)) = false /\
  CanTrade (ManualHalt cb) heap exchange marketID now = false /\
  halted (ManualHalt cb) = true /\
  halted (Resume cb) = false /\
  CanTrade (Resume (ManualHalt cb)) heap exchange marketID now =
    CanTrade (Resume cb) heap exchange marketID now.
Proof.
  split; [|by repeat split].
  unfold CanTrade, last_update, recovered_at, IsZero.
  destruct (markets cb !! (exchange, marketID)) as [ms|]; simpl.
  2:{ split; [by repeat case_match|]. by intros (_ & _ & (t & [=] & _) & _). }
  split.
  - intros Hct.
    destruct (halted cb); [done|].
    split; [done|]. split.
    { intros ws Hws. rewrite Hws in Hct. by destruct (Circuit (heap ws)). }
    assert ((StaleThreshold (cfg cb) <? Sub now (LastUpdate ms)) = false
            /\ negb (RecoveredAt ms =? 0)
               && (Sub now (RecoveredAt ms) <? CoolOff (cfg cb)) = false)
      as [Hst Hco] by (repeat case_match; done).
    apply Z.ltb_ge in Hst. split; [eauto|].
    destruct (Z.eqb_spec (RecoveredAt ms) 0); [by left|right].
    simpl in Hco. apply Z.ltb_ge in Hco. eauto.
  - intros (-> & Hconn & (t & [= <-] & Hst) & Hrec).
    assert (match conns cb !! exchange with
            | Some ws => match Circuit (heap ws) with
                         | CircuitOpen => true | CircuitClosed => false end
            | None => false
            end = false) as ->.
    { destruct (conns cb !! exchange) as [ws|]; [|done]. by rewrite (Hconn ws). }
    rewrite (proj2 (Z.ltb_ge _ _) Hst).
    destruct (Z.eqb_spec (RecoveredAt ms) 0); [done|]. simpl.
    destruct Hrec as [[=]|(r & [= <-] & Hr)].
    by rewrite (proj2 (Z.ltb_ge _ _) Hr).
Qed.

(** *** The breaker on concrete inputs *)

Definition t0 : Time := unixEpoch + 1700000000 * Second.

Definition test_breaker : CircuitBreaker := NewCircuitBreaker DefaultCircuitBreakerConfig.

Definition no_transport (ws : nat) : WSClient := NewWSClient.

(** A fresh update right after a staleness-caused veto re-enables trading
    at once: updates at T and T+3s, stale at T+5s, and after one update at
    T+5s [can_trade] is true with no cool-off. *)
Lemma fresh_update_after_stale_reopens :
  let u := test_update "kalshi" "FED-DEC" in
  let cb2 := apply_events test_breaker [EvUpdate u t0; EvUpdate u (t0 + 3 * Second)] in
  let cb3 := recordUpdate cb2 u (t0 + 5 * Second) in
  CanTrade cb2 no_transport "kalshi" "FED-DEC" (t0 + 3 * Second) = true /\
  CanTrade cb2 no_transport "kalshi" "FED-DEC" (t0 + 5 * Second) = false /\
  last_update cb2 "kalshi" "FED-DEC" = Some (t0 + 3 * Second) /\
  StaleThreshold (cfg cb2) < Sub (t0 + 5 * Second) (t0 + 3 * Second) /\
  CanTrade cb3 no_transport "kalshi" "FED-DEC" (t0 + 5 * Second) = true /\
  recovered_at cb3 "kalshi" "FED-DEC" = Some t0.
Proof. vm_compute. repeat split; reflexivity. Qed.

(** Scenario S5: update at T, mark_stale, recovery at T+0.2s; closed at
    T+1s, open at T+2.3s with a fresh update at T+2.25s. *)
Example cool_off_scenario :
  let u := test_update "polymarket" "mkt-cool" in
  let cb := apply_events test_breaker
              [EvUpdate u t0; EvMarkStale "polymarket" "mkt-cool";
               EvUpdate u (t0 + 200 * Millisecond)] in
  CanTrade cb no_transport "polymarket" "mkt-cool" (t0 + 1000 * Millisecond) = false /\
  CanTrade (recordUpdate cb u (t0 + 2250 * Millisecond)) no_transport
    "polymarket" "mkt-cool" (t0 + 2300 * Millisecond) = true.
Proof. vm_compute. done. Qed.

Lemma stale_market_stays_closed_witness :
  let u := test_update "polymarket" "mkt-cool" in
  let cb := apply_events test_breaker
              [EvUpdate u t0; EvMarkStale "polymarket" "mkt-cool"] in
  CanTrade cb no_transport "polymarket" "mkt-cool" (t0 + 1500 * Millisecond) = false /\
  CanTrade (apply_events cb [EvManualHalt; EvResume; EvUpdate (test_update "kalshi" "X") (t0 + 1600 * Millisecond)])
    no_transport "polymarket" "mkt-cool" (t0 + 1700 * Millisecond) = false /\
  CanTrade (apply_events (recordUpdate cb u (t0 + 1800 * Millisecond))
              [EvUpdate u (t0 + 2500 * Millisecond)])
    no_transport "polymarket" "mkt-cool" (t0 + 3000 * Millisecond) = false.
Proof.
  intros u cb.
  destruct (stale_market_stays_closed cb no_transport "polymarket" "mkt-cool"
              {| LastUpdate := t0; RecoveredAt := t0; Healthy := false |}
              (t0 + 1500 * Millisecond)) as (H1 & H2 & H3 & _).
  - vm_compute. reflexivity.
  - vm_compute. reflexivity.
  - split; [exact H1|]. split.
    + apply H2; [vm_compute; discriminate|].
      repeat constructor; simpl; try tauto.
      intros [? _]. discriminate.
    + apply H3; try reflexivity.
      repeat constructor; vm_compute; discriminate.
Defined.

(** *** Properties of the Redis writer *)

Section WriterProperties.
Context (FormatFloat : float -> string).

#[local] Abbreviation bestPrice := (bestPrice FormatFloat).
#[local] Abbreviation best := (best FormatFloat).
#[local] Abbreviation hset_of := (hset_of FormatFloat).
#[local] Abbreviation write := (write FormatFloat).
#[local] Abbreviation flush := (flush FormatFloat).
#[local] Abbreviation latest := (latest FormatFloat).
#[local] Abbreviation last_pair_of_market := (last_pair_of_market FormatFloat).

(** Best of side on the levels of the writer's unit test. *)
Example bestPrice_test :
  bestPrice [ {| Price := 0.48; Size := 30 |}; {| Price := 0.52; Size := 10 |} ] true
    = FormatFloat 0.52 /\
  bestPrice [ {| Price := 0.55; Size := 25 |}; {| Price := 0.60; Size := 15 |} ] false
    = FormatFloat 0.55 /\
  bestPrice [] true = "0" /\ bestPrice [] false = "0".
Proof. repeat split; reflexivity. Qed.

(** Strict comparison of floats is irreflexive and transitive (with NaN
    every comparison is false). *)
Lemma SFltb_irrefl (x : spec_float) : SFltb x x = false.
Proof.
  unfold SFltb. destruct x as [s|s| |s m e]; simpl; try done; try (by destruct s).
  destruct s; rewrite Z.compare_refl;
    change (Pos.compare_cont Eq m m) with (Pos.compare m m);
    by rewrite Pos.compare_refl.
Qed.

Lemma SFltb_trans (x y z : spec_float) :
  SFltb x y = true -> SFltb y z = true -> SFltb x z = true.
Proof.
  unfold SFltb.
  destruct x as [sx|sx| |sx mx ex], y as [sy|sy| |sy my ey], z as [sz|sz| |sz mz ez];
    simpl; try done;
    try (by destruct sx); try (by destruct sy); try (by destruct sz);
    try (by destruct sx, sy); try (by destruct sy, sz); try (by destruct sx, sz);
    try (by destruct sx, sy, sz).
  change (Pos.compare_cont Eq mx my) with (Pos.compare mx my).
  change (Pos.compare_cont Eq my mz) with (Pos.compare my mz).
  change (Pos.compare_cont Eq mx mz) with (Pos.compare mx mz).
  destruct sx, sy, sz; try done;
    destruct (Z.compare_spec ex ey), (Z.compare_spec ey ez), (Z.compare_spec ex ez);
    try done; try lia;
    destruct (Pos.compare_spec mx my), (Pos.compare_spec my mz), (Pos.compare_spec mx mz);
    simpl; try done; lia.
Qed.

Lemma ltb_irrefl (x : float) : PrimFloat.ltb x x = false.
Proof. rewrite ltb_spec. apply SFltb_irrefl. Qed.

Lemma ltb_trans (x y z : float) :
  PrimFloat.ltb x y = true -> PrimFloat.ltb y z = true -> PrimFloat.ltb x z = true.
Proof. rewrite !ltb_spec. apply SFltb_trans. Qed.

(** The loop of [bestPrice] returns one of the prices, and no price of the
    list is strictly better: none is higher than the best bid, none is
    lower than the best ask. *)
Lemma bestPrice_loop (isBid : bool) (l0 : PriceLevel) (rest : list PriceLevel) :
  let b := foldl (bestPrice_step isBid) (Price l0) rest in
  (exists l, l ∈ l0 :: rest /\ Price l = b) /\
  forall l, l ∈ l0 :: rest ->
    (if isBid then PrimFloat.ltb b (Price l) else PrimFloat.ltb (Price l) b) = false.
Proof.
  simpl.
  assert (forall seen p0,
    (exists l, l ∈ seen /\ Price l = p0) ->
    (forall l, l ∈ seen ->
       (if isBid then PrimFloat.ltb p0 (Price l) else PrimFloat.ltb (Price l) p0) = false) ->
    (exists l, l ∈ seen ++ rest /\ Price l = foldl (bestPrice_step isBid) p0 rest) /\
    (forall l, l ∈ seen ++ rest ->
       (if isBid then PrimFloat.ltb (foldl (bestPrice_step isBid) p0 rest) (Price l)
        else PrimFloat.ltb (Price l) (foldl (bestPrice_step isBid) p0 rest)) = false))
    as Hgen.
  { induction rest as [|x rest IH]; intros seen p0 Hin Hbest; simpl.
    { rewrite app_nil_r. done. }
    replace (seen ++ x :: rest) with ((seen ++ [x]) ++ rest) by (by rewrite <- app_assoc).
    apply IH.
    - unfold bestPrice_step. destruct Hin as (l & Hl & <-).
      destruct isBid; simpl.
      + destruct (PrimFloat.ltb (Price l) (Price x));
          [exists x|exists l]; (split; [|done]); apply elem_of_app;
          [right; by apply list_elem_of_singleton|by left].
      + destruct (PrimFloat.ltb (Price x) (Price l));
          [exists x|exists l]; (split; [|done]); apply elem_of_app;
          [right; by apply list_elem_of_singleton|by left].
    - intros l Hl. apply elem_of_app in Hl as [Hl|Hl%list_elem_of_singleton].
      + specialize (Hbest l Hl). unfold bestPrice_step. destruct isBid; simpl.
        * destruct (PrimFloat.ltb p0 (Price x)) eqn:E; [|done].
          destruct (PrimFloat.ltb (Price x) (Price l)) eqn:E'; [|done].
          by rewrite (ltb_trans _ _ _ E E') in Hbest.
        * destruct (PrimFloat.ltb (Price x) p0) eqn:E; [|done].
          destruct (PrimFloat.ltb (Price l) (Price x)) eqn:E'; [|done].
          by rewrite (ltb_trans _ _ _ E' E) in Hbest.
      + subst l. unfold bestPrice_step. destruct isBid; simpl.
        * destruct (PrimFloat.ltb p0 (Price x)) eqn:E; [apply ltb_irrefl|done].
        * destruct (PrimFloat.ltb (Price x) p0) eqn:E; [apply ltb_irrefl|done]. }
  destruct (Hgen [l0] (Price l0)) as [H1 H2].
  - exists l0. split; [by apply list_elem_of_singleton|done].
  - intros l ->%list_elem_of_singleton. destruct isBid; apply ltb_irrefl.
  - done.
Qed.


Lemma suppressed_iff rw update :
  match last rw !! redisKey update with
  | Some prev => String.eqb (Bid prev) (bestPrice (Bids update) true)
                 && String.eqb (Ask prev) (bestPrice (Asks update) false)
  | None => false
  end = true <-> last rw !! redisKey update = Some (best update).
Proof.
  unfold best. destruct (last rw !! redisKey update) as [[bid ask]|]; simpl; [|done].
  rewrite andb_true_iff, !String.eqb_eq. split.
  - by intros [-> ->].
  - by intros [= -> ->].
Qed.

Lemma write_suppressed rw update :
  last rw !! redisKey update = Some (best update) ->
  write rw update = (rw, None).
Proof.
  intros Hl. unfold write. by rewrite (proj2 (suppressed_iff rw update) Hl).
Qed.

Lemma write_issued rw update :
  last rw !! redisKey update <> Some (best update) ->
  write rw update =
    ({| buf := buf rw; last := <[redisKey update := best update]> (last rw) |},
     Some (hset_of update)).
Proof.
  intros Hl. unfold write.
  destruct (match last rw !! redisKey update with Some _ => _ | None => _ end) eqn:E; [|done].
  by apply suppressed_iff in E.
Qed.

(** After a write the entry of the update's key is the update's pair. *)
Lemma last_after_write rw update key :
  last (write rw update).1 !! key =
    if String.eqb (redisKey update) key then Some (best update) else last rw !! key.
Proof.
  destruct (String.eqb_spec (redisKey update) key) as [<-|Hne].
  - destruct (decide (last rw !! redisKey update = Some (best update))) as [Hl|Hl].
    + by rewrite write_suppressed.
    + rewrite write_issued by done. simpl. by rewrite lookup_insert_eq.
  - destruct (decide (last rw !! redisKey update = Some (best update))) as [Hl|Hl].
    + by rewrite write_suppressed.
    + rewrite write_issued by done. simpl. by rewrite lookup_insert_ne.
Qed.

Lemma last_after_flush rw updates key :
  last (flush rw updates).1 !! key =
    foldl (fun acc update =>
             if String.eqb (redisKey update) key then Some (best update) else acc)
          (last rw !! key) updates.
Proof.
  revert rw. induction updates as [|update updates IH]; intros rw; simpl; [done|].
  by rewrite IH, last_after_write.
Qed.

Lemma flush_app rw updates1 updates2 :
  flush rw (updates1 ++ updates2) =
    ((flush (flush rw updates1).1 updates2).1,
     (flush rw updates1).2 ++ (flush (flush rw updates1).1 updates2).2).
Proof.
  revert rw. induction updates1 as [|update updates1 IH]; intros rw; simpl.
  - by destruct (flush rw updates2).
  - rewrite IH. simpl. by destruct (write rw update).2.
Qed.

Lemma same_market_same_key update update' :
  Exchange update' = Exchange update -> MarketID update' = MarketID update ->
  redisKey update' = redisKey update.
Proof. unfold redisKey. by intros -> ->. Qed.

(** A run of updates carrying the pair already written is suppressed whole. *)
Lemma flush_run_suppressed rw update updates :
  last rw !! redisKey update = Some (best update) ->
  Forall (fun x => Exchange x = Exchange update /\ MarketID x = MarketID update /\
                   best x = best update) updates ->
  flush rw updates = (rw, []).
Proof.
  intros Hl Hall. induction Hall as [|x updates (Hx & Hm & Hb) Hall IH]; simpl; [done|].
  rewrite write_suppressed; [simpl; by rewrite IH|].
  by rewrite (same_market_same_key _ _ Hx Hm), Hb.
Qed.

(** A run that starts with a changed pair costs exactly one HSET. *)
Lemma flush_run_issued rw update updates :
  last rw !! redisKey update <> Some (best update) ->
  Forall (fun x => Exchange x = Exchange update /\ MarketID x = MarketID update /\
                   best x = best update) updates ->
  flush rw (update :: updates) =
    ({| buf := buf rw; last := <[redisKey update := best update]> (last rw) |},
     [hset_of update]).
Proof.
  intros Hl Hrun. simpl. rewrite write_issued by done. simpl.
  rewrite (flush_run_suppressed _ update updates); [done| |done].
  simpl. apply lookup_insert_eq.
Qed.

(** The Redis key tells venues and markets apart, for venue tags without
    a colon. *)
Lemma colon_separates (e e' m m' : string) :
  colon_free e = true -> colon_free e' = true ->
  e +:+ ":" +:+ m = e' +:+ ":" +:+ m' -> e = e' /\ m = m'.
Proof.
  revert e'. induction e as [|a e IH]; intros [|a' e'] He He' Heq; simpl in *.
  - by injection Heq.
  - injection Heq as <- _. by rewrite Ascii.eqb_refl in He'.
  - injection Heq as -> _. by rewrite Ascii.eqb_refl in He.
  - apply andb_true_iff in He as [_ He]. apply andb_true_iff in He' as [_ He'].
    injection Heq as -> Heq. by destruct (IH e' He He' Heq) as [-> ->].
Qed.

Lemma redisKey_inj update update' :
  colon_free (Exchange update) = true -> colon_free (Exchange update') = true ->
  redisKey update = redisKey update' ->
  Exchange update = Exchange update' /\ MarketID update = MarketID update'.
Proof.
  intros He He' Heq. unfold redisKey in Heq.
  apply (colon_separates _ _ _ _ He He').
  change ("book:" +:+ ?x)
    with (String "b" (String "o" (String "o" (String "k" (String ":" x))))) in Heq.
  by injection Heq.
Qed.

Example venue_tags_colon_free :
  colon_free ExchangePolymarket = true /\ colon_free ExchangeKalshi = true.
Proof. done. Qed.

(** With a colon in the venue tag two markets can share one key. *)
Example redisKey_collision :
  redisKey {| Exchange := "a:b"; MarketID := "c"; AssetID := ""; Bids := []; Asks := [];
              Timestamp := 0; Hash := "" |} =
  redisKey {| Exchange := "a"; MarketID := "b:c"; AssetID := ""; Bids := []; Asks := [];
              Timestamp := 0; Hash := "" |}.
Proof. reflexivity. Qed.

(** What the writer remembers under an update's key is the pair of the last
    update of that update's venue and market. *)
Lemma latest_last_pair_of_market update updates :
  colon_free (Exchange update) = true ->
  Forall (fun x => colon_free (Exchange x) = true) updates ->
  latest (redisKey update) updates =
    last_pair_of_market (Exchange update) (MarketID update) updates.
Proof.
  intros He Hall. unfold adapter.latest, adapter.last_pair_of_market.
  induction updates as [|x updates IH] using rev_ind; [done|].
  apply Forall_app in Hall as [Hall Hx]. rewrite Forall_singleton in Hx.
  rewrite foldl_app, filter_app. cbn [foldl].
  rewrite filter_cons, filter_nil.
  destruct (decide (Exchange x = Exchange update /\ MarketID x = MarketID update))
    as [[Hxe Hxm]|Hne].
  - rewrite (same_market_same_key _ _ Hxe Hxm), String.eqb_refl.
    by rewrite last_snoc.
  - destruct (String.eqb_spec (redisKey x) (redisKey update)) as [Hk|_].
    + by apply redisKey_inj in Hk.
    + rewrite app_nil_r. by apply IH.
Qed.

(** C7.  Venues are told apart by their tag and markets by their
    identifier; the venue tags carry no colon, as [polymarket] and [kalshi]
    do not.  Take a run of consecutive updates for one (venue, market) whose
    derived (best bid, best ask) pairs are all equal, starting where the
    pair changes (the last update of that venue and market before the run,
    if there is one, carried another pair; updates of other venues and
    markets may lie in between).  The writer issues exactly one HSET for
    the run, for its first update, and suppresses the rest; the next update
    of that market whose pair differs triggers a new HSET.  The derived
    best bid is "0" without bids and otherwise the formatted price of a bid
    that none exceeds; the best ask is "0" without asks and otherwise the
    formatted price of an ask that none undercuts. *)
Theorem writer_dedup pre update updates next :
  Forall (fun x => colon_free (Exchange x) = true) (update :: pre) ->
  last_pair_of_market (Exchange update) (MarketID update) pre <> Some (best update) ->
  Forall (fun x => Exchange x = Exchange update /\ MarketID x = MarketID update /\
                   best x = best update) updates ->
  Exchange next = Exchange update -> MarketID next = MarketID update ->
  best next <> best update ->
  let rw := (flush NewRedisWriter pre).1 in
  (flush rw (update :: updates)).2 = [hset_of update] /\
  (flush rw (update :: updates ++ [next])).2 = [hset_of update; hset_of next] /\
  (forall x,
     match Bids x with
     | [] => Bid (best x) = "0"
     | _ => exists l, l ∈ Bids x /\ Bid (best x) = FormatFloat (Price l) /\
              forall l', l' ∈ Bids x -> PrimFloat.ltb (Price l) (Price l') = false
     end /\
     match Asks x with
     | [] => Ask (best x) = "0"
     | _ => exists l, l ∈ Asks x /\ Ask (best x) = FormatFloat (Price l) /\
              forall l', l' ∈ Asks x -> PrimFloat.ltb (Price l') (Price l) = false
     end).
Proof.
  intros Hvenues Hpre Hrun Hx Hm Hnext rw.
  apply Forall_cons in Hvenues as [Hvenue Hvenues].
  rewrite <- (latest_last_pair_of_market update pre Hvenue Hvenues) in Hpre.
  assert (forall x,
     match Bids x with
     | [] => Bid (best x) = "0"
     | _ => exists l, l ∈ Bids x /\ Bid (best x) = FormatFloat (Price l) /\
              forall l', l' ∈ Bids x -> PrimFloat.ltb (Price l) (Price l') = false
     end /\
     match Asks x with
     | [] => Ask (best x) = "0"
     | _ => exists l, l ∈ Asks x /\ Ask (best x) = FormatFloat (Price l) /\
              forall l', l' ∈ Asks x -> PrimFloat.ltb (Price l') (Price l) = false
     end) as Hbest.
  { intros x. unfold adapter.best, adapter.bestPrice. simpl. split.
    - destruct (Bids x) as [|l0 rest]; [done|].
      destruct (bestPrice_loop true l0 rest) as ((l & Hl & Hp) & Hmax).
      exists l. rewrite Hp. done.
    - destruct (Asks x) as [|l0 rest]; [done|].
      destruct (bestPrice_loop false l0 rest) as ((l & Hl & Hp) & Hmin).
      exists l. rewrite Hp. done. }
  assert (last rw !! redisKey update <> Some (best update)) as Hl.
  { unfold rw. rewrite last_after_flush. simpl. by rewrite lookup_empty. }
  clearbody rw.
  pose proof (flush_run_issued rw update updates Hl Hrun) as Hfirst.
  split; [by rewrite Hfirst|]. split; [|exact Hbest].
  rewrite app_comm_cons, flush_app, Hfirst. simpl.
  rewrite write_issued; [done|].
  rewrite (same_market_same_key _ _ Hx Hm). simpl.
  rewrite lookup_insert_eq. congruence.
Qed.

End WriterProperties.

(** Scenario S3 after an update of the other venue: the Polymarket market
    of the same identifier has already been written at (0.48, 0.54); three
    Kalshi updates at (0.48, 0.54) still give one write, then (0.50, 0.54)
    gives a second one. *)
Lemma writer_dedup_witness :
  let other := {| Exchange := ExchangePolymarket; MarketID := "FED-DEC"; AssetID := "";
                  Bids := [{| Price := 0.48; Size := 300 |}];
                  Asks := [{| Price := 0.54; Size := 200 |}];
                  Timestamp := unixEpoch + 500 * Millisecond; Hash := "" |} in
  let rw := (flush format_stand_in NewRedisWriter [other]).1 in
  let first := test_book 0.48 0.54 1000 in
  let rest := [test_book 0.48 0.54 2000; test_book 0.48 0.54 3000] in
  let changed := test_book 0.50 0.54 4000 in
  best format_stand_in other = best format_stand_in first /\
  (flush format_stand_in rw (first :: rest)).2 = [hset_of format_stand_in first] /\
  (flush format_stand_in rw (first :: rest ++ [changed])).2 =
    [hset_of format_stand_in first; hset_of format_stand_in changed].
Proof.
  intros other rw first rest changed.
  destruct (writer_dedup format_stand_in [other] first rest changed) as (H1 & H2 & _).
  - repeat constructor.
  - vm_compute. discriminate.
  - repeat constructor.
  - reflexivity.
  - reflexivity.
  - vm_compute. discriminate.
  - split; [vm_compute; reflexivity|]. split; [exact H1 | exact H2].
Defined.

Example writer_scenario_calls :
  hset_ts <$> (flush format_stand_in NewRedisWriter
     [test_book 0.48 0.54 1000; test_book 0.48 0.54 2000;
      test_book 0.48 0.54 3000; test_book 0.50 0.54 4000]).2 = ["1000"; "4000"].
Proof. vm_compute. reflexivity. Qed.

(** *** Further properties of the circuit breaker *)

(** The clock readings of the updates for one market, in order. *)
Definition update_times (exchange marketID : string) (evs : list event) : list Time :=
  omap (fun e =>
          match e with
          | EvUpdate u t =>
              if decide ((Exchange u, MarketID u) = (exchange, marketID))
              then Some t else None
          | _ => None
          end) evs.

(** The events that [CanTrade] for one market can depend on: the updates
    and [MarkStale] calls for that market, the connection watched for its
    exchange, and the global halt and resume. *)
Definition concerns (exchange marketID : string) (e : event) : bool :=
  match e with
  | EvUpdate u _ => bool_decide ((Exchange u, MarketID u) = (exchange, marketID))
  | EvMarkStale ex mk => bool_decide ((ex, mk) = (exchange, marketID))
  | EvManualHalt | EvResume => true
  | EvWatchConnection ex _ => bool_decide (ex = exchange)
  end.

Lemma apply_events_snoc cb evs e :
  apply_events cb (evs ++ [e]) = apply_event (apply_events cb evs) e.
Proof. unfold apply_events. by rewrite foldl_app. Qed.

Lemma halted_apply_events cb evs :
  Forall (fun e => e <> EvResume) evs ->
  halted cb = true -> halted (apply_events cb evs) = true.
Proof.
  intros Hall. revert cb. induction Hall as [|e evs He _ IH]; intros cb Hh; [done|].
  simpl. apply IH. destruct e; simpl; try done.
  unfold MarkStale. by case_match.
Qed.

(** The halt flag has no influence on what the breaker records. *)
Lemma halted_independent cb cb' evs :
  cfg cb = cfg cb' -> conns cb = conns cb' -> markets cb = markets cb' ->
  cfg (apply_events cb evs) = cfg (apply_events cb' evs) /\
  conns (apply_events cb evs) = conns (apply_events cb' evs) /\
  markets (apply_events cb evs) = markets (apply_events cb' evs).
Proof.
  revert cb cb'. induction evs as [|e evs IH]; intros cb cb' Hc Hn Hm; [done|].
  simpl. apply IH; destruct e; simpl; try congruence.
  - unfold MarkStale. rewrite Hm. by case_match.
  - unfold MarkStale. rewrite Hm. by case_match.
  - unfold recordUpdate. simpl. by rewrite Hm.
  - unfold MarkStale. rewrite Hm. case_match; simpl; congruence.
Qed.

(** X7.  A manual halt dominates: until [Resume] is called, [CanTrade] is
    false for every market at every time, whatever updates, connections or
    [MarkStale] calls happen.  The halt does not stop the bookkeeping: after
    [Resume] the breaker is in the state it would have without the halt. *)
Theorem manual_halt_until_resume cb evs heap exchange marketID now :
  Forall (fun e => e <> EvResume) evs ->
  CanTrade (apply_events (ManualHalt cb) evs) heap exchange marketID now = false /\
  Resume (apply_events (ManualHalt cb) evs) = Resume (apply_events cb evs).
Proof.
  intros Hall. split.
  - unfold CanTrade. by rewrite (halted_apply_events (ManualHalt cb) evs Hall).
  - destruct (halted_independent (ManualHalt cb) cb evs) as (Hc & Hn & Hm); try done.
    unfold Resume. by rewrite Hc, Hn, Hm.
Qed.

(** What a breaker that started empty knows of a market: nothing before
    its first update; then [LastUpdate] is the time of its latest update
    and [RecoveredAt] the time of one of its updates. *)
Lemma market_times config evs exchange marketID :
  match markets (apply_events (NewCircuitBreaker config) evs) !! (exchange, marketID) with
  | None => update_times exchange marketID evs = []
  | Some ms =>
      (exists earlier, update_times exchange marketID evs = earlier ++ [LastUpdate ms]) /\
      RecoveredAt ms ∈ update_times exchange marketID evs
  end.
Proof.
  induction evs as [|e evs IH] using rev_ind; [done|].
  rewrite apply_events_snoc. unfold update_times in *. rewrite omap_app. simpl.
  set (cb := apply_events (NewCircuitBreaker config) evs) in *.
  destruct e as [u t|ex mk| | |ex ws]; simpl; try (by rewrite app_nil_r).
  - unfold recordUpdate. simpl.
    destruct (decide ((Exchange u, MarketID u) = (exchange, marketID))) as [Heq|Hne].
    + rewrite Heq, lookup_insert_eq.
      destruct (markets cb !! (exchange, marketID)) as [ms|]; simpl.
      * destruct IH as [_ Hin].
        destruct (Healthy ms); simpl; (split; [eauto|]);
          rewrite elem_of_app, list_elem_of_singleton; auto.
      * split; [eauto|]. rewrite elem_of_app, list_elem_of_singleton; auto.
    + rewrite lookup_insert_ne by done. by rewrite app_nil_r.
  - rewrite app_nil_r. unfold MarkStale.
    destruct (markets cb !! (ex, mk)) as [ms0|] eqn:H0; [|done]. simpl.
    destruct (decide ((ex, mk) = (exchange, marketID))) as [Heq|Hne].
    + rewrite Heq in *. rewrite lookup_insert_eq. by rewrite H0 in IH.
    + by rewrite lookup_insert_ne.
Qed.

Lemma update_times_not_before r exchange marketID evs t :
  Forall (not_before r) evs -> t ∈ update_times exchange marketID evs -> r <= t.
Proof.
  intros Hall. unfold update_times. rewrite list_elem_of_omap.
  intros (e & He & Ht). rewrite Forall_forall in Hall. specialize (Hall e He).
  destruct e; try done. by case_match; simplify_eq.
Qed.

(** X8.  Every market starts with a cool-off.  In a breaker that started
    empty and whose clock never reads Go's zero time, a market is tradable
    only if its latest update is no older than the stale threshold and one
    of its updates lies at least the cool-off back: no market is tradable
    before its first update, nor while all its updates are younger than the
    cool-off. *)
Theorem tradable_market_has_cooled_off config evs heap exchange marketID now :
  Forall (not_before 1) evs ->
  CanTrade (apply_events (NewCircuitBreaker config) evs) heap exchange marketID now = true ->
  exists r t,
    r ∈ update_times exchange marketID evs /\
    (exists earlier, update_times exchange marketID evs = earlier ++ [t]) /\
    CoolOff config <= Sub now r /\
    Sub now t <= StaleThreshold config.
Proof.
  intros Hall Hct.
  pose proof (market_times config evs exchange marketID) as Hm.
  unfold CanTrade in Hct. rewrite cfg_apply_events in Hct. simpl in Hct.
  destruct (markets _ !! (exchange, marketID)) as [ms|]; [|by repeat case_match].
  destruct Hm as [Hlast Hin].
  pose proof (update_times_not_before 1 _ _ _ _ Hall Hin) as Hpos.
  assert ((StaleThreshold config <? Sub now (LastUpdate ms)) = false /\
          negb (IsZero (RecoveredAt ms))
            && (Sub now (RecoveredAt ms) <? CoolOff config) = false)
    as [Hst Hco] by (repeat case_match; done).
  unfold IsZero in Hco. rewrite (proj2 (Z.eqb_neq _ _)) in Hco by lia.
  apply Z.ltb_ge in Hst, Hco.
  exists (RecoveredAt ms), (LastUpdate ms). auto.
Qed.

(** Two breakers that agree on everything [CanTrade] reads for one market
    and on the times of every market. *)
Definition same_times (cb cb' : CircuitBreaker) : Prop :=
  cfg cb = cfg cb' /\ conns cb = conns cb' /\ halted cb = halted cb' /\
  forall key,
    (fun ms => (LastUpdate ms, RecoveredAt ms)) <$> markets cb !! key =
    (fun ms => (LastUpdate ms, RecoveredAt ms)) <$> markets cb' !! key.

Lemma same_times_CanTrade cb cb' heap exchange marketID now :
  same_times cb cb' ->
  CanTrade cb heap exchange marketID now = CanTrade cb' heap exchange marketID now.
Proof.
  intros (Hc & Hn & Hh & Hm). unfold CanTrade. rewrite Hc, Hn, Hh.
  specialize (Hm (exchange, marketID)).
  destruct (markets cb !! _) as [ms|], (markets cb' !! _) as [ms'|];
    simpl in Hm; try done.
  injection Hm as -> ->. done.
Qed.

(** [MarkStale] changes no time, and what it changes in the health flag is
    forgotten unless the next thing that happens to the market is an
    update. *)
Lemma same_times_step cb cb' exchange marketID e :
  same_times cb cb' ->
  (forall key, key <> (exchange, marketID) -> markets cb !! key = markets cb' !! key) ->
  ~ updates_market exchange marketID e ->
  same_times (apply_event cb e) (apply_event cb' e) /\
  (forall key, key <> (exchange, marketID) ->
     markets (apply_event cb e) !! key = markets (apply_event cb' e) !! key).
Proof.
  intros (Hc & Hn & Hh & Hm) Hrest Hno.
  destruct e as [u t|ex mk| | |ex ws]; simpl in *.
  - assert ((Exchange u, MarketID u) <> (exchange, marketID)) as Hne.
    { intros [= ? ?]. by apply Hno. }
    unfold recordUpdate, same_times. rewrite (Hrest _ Hne). simpl.
    split; [split; [done|split; [done|split; [done|]]]|].
    + intros key. destruct (decide (key = (Exchange u, MarketID u))) as [->|Hk].
      * by rewrite !lookup_insert_eq.
      * rewrite !lookup_insert_ne by done. apply Hm.
    + intros key Hkey. destruct (decide (key = (Exchange u, MarketID u))) as [->|Hk].
      * by rewrite !lookup_insert_eq.
      * rewrite !lookup_insert_ne by done. by apply Hrest.
  - unfold MarkStale, same_times.
    pose proof (Hm (ex, mk)) as Hk.
    destruct (markets cb !! (ex, mk)) as [ms|] eqn:E,
             (markets cb' !! (ex, mk)) as [ms'|] eqn:E'; simplify_eq/=.
    + split; [split; [done|split; [done|split; [done|]]]|].
      * intros key. destruct (decide (key = (ex, mk))) as [->|Hne].
        -- rewrite !lookup_insert_eq. simpl. congruence.
        -- rewrite !lookup_insert_ne by done. apply Hm.
      * intros key Hkey. destruct (decide (key = (ex, mk))) as [->|Hne].
        -- specialize (Hrest _ Hkey). rewrite E, E' in Hrest. simplify_eq.
           by rewrite !lookup_insert_eq.
        -- rewrite !lookup_insert_ne by done. by apply Hrest.
    + split; [by repeat split|done].
  - split; [by repeat split|done].
  - split; [by repeat split|done].
  - split; [|done]. repeat split; simpl; try done. by rewrite Hn.
Qed.

(** X9.  [MarkStale] by itself closes nothing.  [CanTrade] does not read
    the health flag: after [MarkStale], and as long as no update for the
    marked market arrives, every [CanTrade] answer is the one it would be
    without the call.  Marking a market the breaker has no state for does
    nothing at all. *)
Theorem mark_stale_waits_for_next_update cb exchange marketID evs :
  Forall (fun e => ~ updates_market exchange marketID e) evs ->
  (forall heap ex mk now,
     CanTrade (apply_events (MarkStale cb exchange marketID) evs) heap ex mk now =
     CanTrade (apply_events cb evs) heap ex mk now) /\
  (markets cb !! (exchange, marketID) = None -> MarkStale cb exchange marketID = cb).
Proof.
  intros Hall. split; [|by unfold MarkStale; intros ->].
  intros heap ex mk now. apply same_times_CanTrade.
  assert (same_times (MarkStale cb exchange marketID) cb /\
          forall key, key <> (exchange, marketID) ->
            markets (MarkStale cb exchange marketID) !! key = markets cb !! key)
    as Hstart.
  { unfold MarkStale.
    destruct (markets cb !! (exchange, marketID)) as [ms|] eqn:E;
      [|split; [by repeat split|done]].
    split; [split; [done|split; [done|split; [done|]]]|]; simpl.
    - intros key. destruct (decide (key = (exchange, marketID))) as [->|Hne].
      + by rewrite lookup_insert_eq, E.
      + by rewrite lookup_insert_ne.
    - intros key Hne. by rewrite lookup_insert_ne. }
  revert Hstart. generalize (MarkStale cb exchange marketID) as cb1. revert cb.
  induction Hall as [|e evs He _ IH]; intros cb cb1 [Hs Hr]; [done|].
  simpl. apply IH. by apply same_times_step.
Qed.

(** X10.  Markets do not interfere.  The answer of [CanTrade] for a market
    depends only on the events that concern it: dropping from the history
    every update and [MarkStale] for other markets and every connection
    registered for other exchanges changes nothing. *)
Theorem other_markets_do_not_interfere cb evs heap exchange marketID now :
  CanTrade (apply_events cb evs) heap exchange marketID now =
  CanTrade (apply_events cb (List.filter (concerns exchange marketID) evs))
    heap exchange marketID now.
Proof.
  assert (forall cb1 cb2,
    cfg cb1 = cfg cb2 -> halted cb1 = halted cb2 ->
    conns cb1 !! exchange = conns cb2 !! exchange ->
    markets cb1 !! (exchange, marketID) = markets cb2 !! (exchange, marketID) ->
    CanTrade cb1 heap exchange marketID now = CanTrade cb2 heap exchange marketID now)
    as Hsame.
  { intros cb1 cb2 Hc Hh Hn Hm. unfold CanTrade. by rewrite Hc, Hh, Hn, Hm. }
  assert (forall cb1 cb2,
    cfg cb1 = cfg cb2 /\ halted cb1 = halted cb2 /\
    conns cb1 !! exchange = conns cb2 !! exchange /\
    markets cb1 !! (exchange, marketID) = markets cb2 !! (exchange, marketID) ->
    let cb1' := apply_events cb1 evs in
    let cb2' := apply_events cb2 (List.filter (concerns exchange marketID) evs) in
    cfg cb1' = cfg cb2' /\ halted cb1' = halted cb2' /\
    conns cb1' !! exchange = conns cb2' !! exchange /\
    markets cb1' !! (exchange, marketID) = markets cb2' !! (exchange, marketID))
    as Hrun.
  { induction evs as [|e evs IH]; intros cb1 cb2 (Hc & Hh & Hn & Hm); [done|].
    simpl. destruct (concerns exchange marketID e) eqn:Hcon; simpl; apply IH.
    - destruct e as [u t|ex mk| | |ex ws]; simpl in *; try done.
      + apply bool_decide_eq_true in Hcon.
        unfold recordUpdate. simpl. rewrite Hcon, Hm, !lookup_insert_eq. done.
      + apply bool_decide_eq_true in Hcon. injection Hcon as -> ->.
        unfold MarkStale. rewrite <- Hm.
        destruct (markets cb1 !! (exchange, marketID)) eqn:E; simpl;
          [|by rewrite E].
        by rewrite !lookup_insert_eq.
      + apply bool_decide_eq_true in Hcon. subst ex.
        by rewrite !lookup_insert_eq.
    - destruct e as [u t|ex mk| | |ex ws]; simpl in *; try done.
      + apply bool_decide_eq_false in Hcon.
        unfold recordUpdate. simpl. by rewrite lookup_insert_ne.
      + apply bool_decide_eq_false in Hcon. unfold MarkStale.
        destruct (markets cb1 !! (ex, mk)); simpl; [|done].
        by rewrite lookup_insert_ne.
      + apply bool_decide_eq_false in Hcon. by rewrite lookup_insert_ne. }
  apply Hsame; by apply (Hrun cb cb).
Qed.

Lemma manual_halt_until_resume_witness :
  let u := test_update "kalshi" "FED-DEC" in
  let evs := [EvUpdate u t0; EvWatchConnection "kalshi" 0%nat;
              EvUpdate u (t0 + 2500 * Millisecond)] in
  CanTrade (apply_events (ManualHalt test_breaker) evs) no_transport
    "kalshi" "FED-DEC" (t0 + 2600 * Millisecond) = false /\
  Resume (apply_events (ManualHalt test_breaker) evs) =
    Resume (apply_events test_breaker evs).
Proof.
  intros u evs.
  apply (manual_halt_until_resume test_breaker evs no_transport
           "kalshi" "FED-DEC" (t0 + 2600 * Millisecond)).
  repeat constructor; discriminate.
Defined.

Lemma tradable_market_has_cooled_off_witness :
  let u := test_update "kalshi" "FED-DEC" in
  let evs := [EvUpdate u t0; EvUpdate u (t0 + 1500 * Millisecond)] in
  exists r t,
    r ∈ update_times "kalshi" "FED-DEC" evs /\
    (exists earlier, update_times "kalshi" "FED-DEC" evs = earlier ++ [t]) /\
    CoolOff DefaultCircuitBreakerConfig <= Sub (t0 + 2 * Second) r /\
    Sub (t0 + 2 * Second) t <= StaleThreshold DefaultCircuitBreakerConfig.
Proof.
  intros u evs.
  apply (tradable_market_has_cooled_off DefaultCircuitBreakerConfig evs no_transport
           "kalshi" "FED-DEC" (t0 + 2 * Second)).
  - repeat constructor; vm_compute; discriminate.
  - vm_compute. reflexivity.
Defined.

Lemma mark_stale_waits_for_next_update_witness :
  let u := test_update "kalshi" "FED-DEC" in
  let cb := apply_events test_breaker [EvUpdate u t0] in
  let evs := [EvManualHalt; EvResume; EvUpdate (test_update "kalshi" "OTHER") (t0 + Second)] in
  CanTrade (apply_events (MarkStale cb "kalshi" "FED-DEC") evs) no_transport
    "kalshi" "FED-DEC" (t0 + 2 * Second) =
  CanTrade (apply_events cb evs) no_transport "kalshi" "FED-DEC" (t0 + 2 * Second).
Proof.
  intros u cb evs.
  apply (mark_stale_waits_for_next_update cb "kalshi" "FED-DEC" evs).
  repeat constructor; simpl; try tauto.
  intros [_ ?]. discriminate.
Defined.

(** *** Further properties of the WebSocket client *)

Lemma foldl_Send ws msgs :
  foldl Send ws msgs =
    {| circuit := circuit ws; subs := subs ws;
       outbox := foldl (trySend 256) (outbox ws) msgs; reading := reading ws |}.
Proof.
  revert ws. induction msgs as [|m msgs IH]; intros ws; simpl; [by destruct ws|].
  by rewrite IH.
Qed.

Lemma foldl_fanOut ws frames :
  foldl fanOut ws frames =
    {| circuit := circuit ws;
       subs := (fun ch => foldl (trySend 512) ch frames) <$> subs ws;
       outbox := outbox ws; reading := reading ws |}.
Proof.
  revert ws. induction frames as [|m frames IH]; intros ws; simpl.
  - destruct ws; simpl. by rewrite list_fmap_id.
  - rewrite IH. simpl. by rewrite <- list_fmap_compose.
Qed.

(** What a channel holds after two batches were offered to it. *)
Lemma trySend_batches {A} (cap : nat) (ch xs ys : list A) :
  foldl (trySend cap) (foldl (trySend cap) ch xs) ys =
  ch ++ take (cap - length ch) (xs ++ ys).
Proof. by rewrite <- foldl_app, foldl_trySend. Qed.

(** X11.  Fan-out to subscribers.  Each subscriber channel receives the
    frames in the order they were read, up to its capacity of 512 unread
    frames; what does not fit is dropped for that subscriber alone, so a
    slow subscriber neither blocks nor starves the others.  A subscriber
    that joins later receives exactly the frames read after it subscribed
    and none of the earlier ones. *)
Theorem fan_out_delivery ws frames1 frames2 :
  let ws1 := foldl fanOut ws frames1 in
  let ws3 := foldl fanOut (Subscribe ws1).1 frames2 in
  subs ws3 !! (Subscribe ws1).2 = Some (take 512 frames2) /\
  (forall j ch, subs ws !! j = Some ch ->
     subs ws3 !! j = Some (ch ++ take (512 - length ch) (frames1 ++ frames2))) /\
  length (subs ws3) = S (length (subs ws)) /\
  outbox ws3 = outbox ws /\ circuit ws3 = circuit ws.
Proof.
  intros ws1 ws3. unfold ws3, ws1. rewrite !foldl_fanOut. simpl.
  rewrite !length_fmap. split; [|split; [|split]].
  - rewrite list_lookup_fmap, lookup_app_r by (by rewrite length_fmap).
    rewrite length_fmap, Nat.sub_diag. simpl.
    by rewrite foldl_trySend.
  - intros j ch Hj. rewrite list_lookup_fmap, lookup_app_l.
    2:{ rewrite length_fmap. by eapply lookup_lt_Some. }
    rewrite list_lookup_fmap, Hj. simpl. by rewrite trySend_batches.
  - rewrite ?length_fmap, length_app, ?length_fmap. simpl. lia.
  - done.
Qed.

(** X12.  The outbox.  [Send] never blocks: the outbox keeps the messages
    in the order they were sent, up to 256 waiting ones, and drops every
    message sent while it is full.  Sending needs no connection: messages
    sent before [Connect] wait in the outbox and [Connect] keeps them.
    Subscribers are not affected. *)
Theorem send_outbox ws msgs :
  let queued := outbox ws ++ take (256 - length (outbox ws)) msgs in
  outbox (foldl Send ws msgs) = queued /\
  subs (foldl Send ws msgs) = subs ws /\
  outbox (Connect (foldl Send ws msgs)) = queued /\
  ((length (outbox ws) <= 256)%nat -> (length queued <= 256)%nat) /\
  ((length (outbox ws) + length msgs <= 256)%nat -> queued = outbox ws ++ msgs).
Proof.
  intros queued. rewrite foldl_Send. simpl.
  rewrite foldl_trySend. repeat split; try done.
  - intros Hl. unfold queued. rewrite length_app, length_take. lia.
  - intros Hl. unfold queued. by rewrite take_ge by lia.
Qed.

(** *** Broadcaster *)

(** The hub between the adapters and the consumers.  A subscriber channel
    is the list of updates waiting in it; [Run] takes the updates of the
    registered sources in some interleaving and passes each one to
    [distribute]. *)
Module broadcaster.

Record Broadcaster := {
  subs : gmap (string * string) (list (list BookUpdate));
  allSub : list (list BookUpdate);
}.

Definition NewBroadcaster : Broadcaster := {| subs := ∅; allSub := [] |}.

(** [Subscribe] appends a channel of capacity 256 under the key and returns
    it (its position under that key). *)
Definition Subscribe (b : Broadcaster) (exchange marketID : string)
    : Broadcaster * nat :=
  let key := (exchange, marketID) in
  let chans := default [] (subs b !! key) in
  ({| subs := <[key := chans ++ [[]]]> (subs b); allSub := allSub b |},
   length chans).

(** [SubscribeAll] appends a channel of capacity 512. *)
Definition SubscribeAll (b : Broadcaster) : Broadcaster * nat :=
  ({| subs := subs b; allSub := allSub b ++ [[]] |}, length (allSub b)).

Definition distribute (b : Broadcaster) (update : BookUpdate) : Broadcaster :=
  let key := (Exchange update, MarketID update) in
  {| subs :=
       match subs b !! key with
       | Some chans => <[key := (fun ch => trySend 256 ch update) <$> chans]> (subs b)
       | None => subs b
       end;
     allSub := (fun ch => trySend 512 ch update) <$> allSub b |}.

(** The updates of a list that belong to one market. *)
Definition for_market (key : string * string) (updates : list BookUpdate)
    : list BookUpdate :=
  filter (fun u => (Exchange u, MarketID u) = key) updates.

Lemma subs_distribute b update key :
  subs (distribute b update) !! key =
    if decide ((Exchange update, MarketID update) = key)
    then fmap (fun ch => trySend 256 ch update) <$> subs b !! key
    else subs b !! key.
Proof.
  unfold distribute. simpl. destruct (decide _) as [<-|Hne].
  - destruct (subs b !! _) as [chans|] eqn:E; simpl.
    + by rewrite lookup_insert_eq.
    + by rewrite E.
  - destruct (subs b !! (Exchange update, MarketID update)); [|done].
    by rewrite lookup_insert_ne.
Qed.

Lemma foldl_distribute b updates :
  (forall key,
     subs (foldl distribute b updates) !! key =
       fmap (fun ch => foldl (trySend 256) ch (for_market key updates))
         <$> subs b !! key) /\
  allSub (foldl distribute b updates) =
    (fun ch => foldl (trySend 512) ch updates) <$> allSub b.
Proof.
  revert b. induction updates as [|u updates IH]; intros b; simpl.
  - split; [|by rewrite list_fmap_id].
    intros key. destruct (subs b !! key) as [chans|]; simpl; [|done].
    by rewrite list_fmap_id.
  - destruct (IH (distribute b u)) as [IH1 IH2]. split.
    + intros key. rewrite IH1, subs_distribute.
      unfold for_market. rewrite filter_cons.
      destruct (decide _) as [Heq|Hne]; [|done].
      destruct (subs b !! key) as [chans|]; simpl; [|done].
      by rewrite <- list_fmap_compose.
    + rewrite IH2. simpl. by rewrite <- list_fmap_compose.
Qed.

(** X13.  Routing in the broadcaster.  After any sequence of updates has
    been distributed, a filtered subscriber holds what it held before
    followed by the updates of its own exchange and market only, in order,
    up to its capacity of 256, and a unified subscriber holds every update,
    up to 512; markets nobody subscribed to stay without subscribers.  A
    subscriber that joins with [Subscribe] receives exactly the updates of
    its market that are distributed afterwards, and one that joins with
    [SubscribeAll] all the updates distributed afterwards. *)
Theorem distribute_routing b updates exchange marketID :
  let b' := foldl distribute b updates in
  (forall key,
     subs b' !! key =
       fmap (fun ch => ch ++ take (256 - length ch) (for_market key updates))
         <$> subs b !! key) /\
  allSub b' = (fun ch => ch ++ take (512 - length ch) updates) <$> allSub b /\
  (exists chans,
     subs (foldl distribute (Subscribe b exchange marketID).1 updates)
       !! (exchange, marketID) = Some chans /\
     chans !! (Subscribe b exchange marketID).2 =
       Some (take 256 (for_market (exchange, marketID) updates))) /\
  allSub (foldl distribute (SubscribeAll b).1 updates) !! (SubscribeAll b).2 =
    Some (take 512 updates).
Proof.
  intros b'. unfold b'.
  destruct (foldl_distribute b updates) as [H1 H2].
  split; [|split; [|split]].
  - intros key. rewrite H1.
    destruct (subs b !! key) as [chans|]; simpl; [|done].
    f_equal. apply list_fmap_ext. intros _ ch _. apply foldl_trySend.
  - rewrite H2. apply list_fmap_ext. intros _ ch _. apply foldl_trySend.
  - destruct (foldl_distribute (Subscribe b exchange marketID).1 updates) as [H3 _].
    rewrite H3. simpl. rewrite lookup_insert_eq. simpl.
    eexists. split; [done|].
    rewrite list_lookup_fmap, lookup_app_r by done.
    rewrite Nat.sub_diag. simpl. by rewrite foldl_trySend.
  - destruct (foldl_distribute (SubscribeAll b).1 updates) as [_ H4].
    rewrite H4. simpl.
    rewrite list_lookup_fmap, lookup_app_r by done.
    rewrite Nat.sub_diag. simpl. by rewrite foldl_trySend.
Qed.

End broadcaster.

(** *** Further properties of the Redis writer *)

(** What the flusher and the ingestion goroutine of [Run] do, one step at a
    time: the ingestion offers an update of the feed to the buffer; the
    flusher takes the oldest buffered update, if there is one, and writes
    it. *)
Inductive writer_step :=
  | Feed (update : BookUpdate)
  | FlushOne.

(** The bid and ask fields that Redis holds under [key] after the calls. *)
Definition stored (key : string) (calls : list HSetCall) : option bookSnapshot :=
  foldl (fun acc c =>
           if String.eqb (hset_key c) key
           then Some {| Bid := hset_bid c; Ask := hset_ask c |} else acc)
        None calls.

(** The updates offered to the writer by a sequence of steps. *)
Definition fed (steps : list writer_step) : list BookUpdate :=
  omap (fun s => match s with Feed u => Some u | FlushOne => None end) steps.

Section WriterRun.
Context (FormatFloat : float -> string).

#[local] Abbreviation best := (best FormatFloat).
#[local] Abbreviation hset_of := (hset_of FormatFloat).
#[local] Abbreviation write := (write FormatFloat).
#[local] Abbreviation flush := (flush FormatFloat).
#[local] Abbreviation latest := (latest FormatFloat).

Definition run_step (st : RedisWriter * list HSetCall) (s : writer_step)
    : RedisWriter * list HSetCall :=
  match s with
  | Feed update => (ingest st.1 update, st.2)
  | FlushOne =>
      match buf st.1 with
      | [] => st
      | update :: rest =>
          let r := write {| buf := rest; last := last st.1 |} update in
          (r.1, st.2 ++ match r.2 with Some c => [c] | None => [] end)
      end
  end.

Lemma stored_flush rw updates key :
  foldl (fun acc c =>
           if String.eqb (hset_key c) key
           then Some {| Bid := hset_bid c; Ask := hset_ask c |} else acc)
        (last rw !! key) (flush rw updates).2
  = last (flush rw updates).1 !! key.
Proof.
  revert rw. induction updates as [|u updates IH]; intros rw; simpl; [done|].
  destruct (decide (last rw !! redisKey u = Some (best u))) as [Hl|Hl].
  - rewrite write_suppressed by done. simpl. apply IH.
  - rewrite write_issued by done. cbn [fst snd foldl]. rewrite <- IH.
    f_equal. unfold adapter.hset_of. cbn [hset_key hset_bid hset_ask last].
    destruct (String.eqb_spec (redisKey u) key) as [<-|Hne].
    + by rewrite lookup_insert_eq.
    + by rewrite lookup_insert_ne.
Qed.

Lemma flush_calls_sublist rw updates :
  (flush rw updates).2 `sublist_of` (hset_of <$> updates).
Proof.
  revert rw. induction updates as [|u updates IH]; intros rw; simpl; [done|].
  destruct (decide (last rw !! redisKey u = Some (best u))) as [Hl|Hl].
  - rewrite write_suppressed by done. simpl. by apply sublist_cons.
  - rewrite write_issued by done. simpl. by apply sublist_skip.
Qed.

(** X14.  Redis follows the feed.  Starting from an empty writer, after
    any sequence of updates has been written, for every key the bid and ask
    that Redis holds are those of the latest update of that key, and so is
    the writer's own cache; nothing is stored under a key that no update
    had.  The calls issued are calls of the updates, in their order, each
    at most once. *)
Theorem redis_follows_feed updates key :
  let r := flush NewRedisWriter updates in
  stored key r.2 = latest key updates /\
  last r.1 !! key = latest key updates /\
  r.2 `sublist_of` (hset_of <$> updates) /\
  (Forall (fun u => redisKey u <> key) updates -> stored key r.2 = None).
Proof.
  intros r. unfold r.
  pose proof (stored_flush NewRedisWriter updates key) as Hs.
  pose proof (last_after_flush FormatFloat NewRedisWriter updates key) as Hl.
  simpl in Hs, Hl. rewrite lookup_empty in Hs, Hl.
  assert (stored key (flush NewRedisWriter updates).2 = latest key updates) as Hst.
  { unfold stored. rewrite Hs, Hl. done. }
  split; [done|]. split; [by rewrite Hl|]. split; [apply flush_calls_sublist|].
  intros Hall. rewrite Hst. clear Hs Hl Hst. unfold adapter.latest.
  induction updates as [|u us IH] using rev_ind; [done|].
  apply Forall_app in Hall as [Hus Hu]. rewrite Forall_singleton in Hu.
  rewrite foldl_app. cbn [foldl].
  cbv beta in Hu.
  destruct (String.eqb_spec (redisKey u) key); [congruence|by apply IH].
Qed.

(** The state of the writer after some steps, seen from the updates that
    have left the buffer. *)
Lemma run_steps_written steps :
  let st := foldl run_step (NewRedisWriter, []) steps in
  exists written,
    (written ++ buf st.1) `sublist_of` fed steps /\
    st.2 = (flush NewRedisWriter written).2 /\
    last st.1 = last (flush NewRedisWriter written).1 /\
    (length (buf st.1) <= 1024)%nat.
Proof.
  induction steps as [|s steps IH] using rev_ind.
  { exists []. simpl. repeat split; try done. lia. }
  rewrite foldl_app. simpl. unfold fed. rewrite omap_app. simpl.
  destruct IH as (written & Hsub & Hcalls & Hlast & Hlen).
  destruct (foldl run_step (NewRedisWriter, []) steps) as [rw calls]. simpl in *.
  destruct s as [u|]; simpl.
  - exists written. unfold trySend.
    destruct (Nat.ltb_spec (length (buf rw)) 1024); simpl.
    + rewrite app_assoc. split; [by apply sublist_app|].
      rewrite length_app. simpl. repeat split; try done. lia.
    + split; [by apply sublist_inserts_r|]. done.
  - rewrite app_nil_r. destruct (buf rw) as [|u rest] eqn:Hbuf; simpl.
    { exists written. rewrite Hbuf. by rewrite app_nil_r in *. }
    exists (written ++ [u]). rewrite flush_app. simpl.
    set (rw1 := (flush NewRedisWriter written).1) in *.
    assert (forall rw2, last rw2 = last rw1 ->
              (write rw2 u).2 = (write rw1 u).2 /\
              last (write rw2 u).1 = last (write rw1 u).1 /\
              buf (write rw2 u).1 = buf rw2) as Hw.
    { intros rw2 H2. unfold adapter.write. rewrite H2.
      by destruct (match last rw1 !! redisKey u with Some _ => _ | None => _ end). }
    destruct (Hw {| buf := rest; last := last rw |} Hlast) as (Hc & Hl & Hb).
    rewrite Hc, Hl, Hb. simpl.
    split; [by rewrite <- app_assoc|].
    split; [rewrite Hcalls; by destruct (write rw1 u).2|].
    split; [done|]. simpl in Hlen. lia.
Qed.

(** X15.  The buffer between the ingestion and the flusher.  However the
    two goroutines interleave, the calls issued so far are those of writing
    a subsequence of the feed in feed order; the buffer never holds more
    than 1024 updates; and an update that arrives while the buffer is full
    is the one that is discarded: the buffered ones stay. *)
Theorem writer_buffer steps update :
  let st := foldl run_step (NewRedisWriter, []) steps in
  (exists written,
     (written ++ buf st.1) `sublist_of` fed steps /\
     st.2 = (flush NewRedisWriter written).2 /\
     last st.1 = last (flush NewRedisWriter written).1) /\
  (length (buf st.1) <= 1024)%nat /\
  (length (buf st.1) = 1024%nat -> run_step st (Feed update) = st) /\
  ((length (buf st.1) < 1024)%nat ->
   buf (run_step st (Feed update)).1 = buf st.1 ++ [update]).
Proof.
  intros st. destruct (run_steps_written steps) as (written & H1 & H2 & H3 & H4).
  fold st in H1, H2, H3, H4.
  split; [eauto|]. split; [done|]. split.
  - intros Hfull. destruct st as [rw calls]. simpl in *.
    unfold ingest, trySend. rewrite Hfull. simpl. by destruct rw.
  - intros Hroom. simpl. unfold trySend.
    by destruct (Nat.ltb_spec (length (buf st.1)) 1024); [|lia].
Qed.

End WriterRun.

(** *** Unified book and arbitrage detection *)

Module unified.

Record MarketPair := {
  Name : string;
  PolyMarketID : string;
  KalshiMarketID : string;
}.

Inductive ArbitrageDirection := ArbPolyBidKalshiAsk | ArbKalshiBidPolyAsk.

Record ArbitrageEvent := {
  Pair : MarketPair;
  Direction : ArbitrageDirection;
  BidExchange : string;
  AskExchange : string;
  Bid : float;
  Ask : float;
  Spread : float;
  Timestamp : Time;
}.

Record side := {
  BestBid : float;
  BestAsk : float;
  Updated : Time;
}.

Record pairState := {
  pair_of : MarketPair;
  Poly : side;
  Kalshi : side;
}.

(** [states] is keyed by the name of the pair; [events] is the channel of
    capacity 256. *)
Record UnifiedBook := {
  threshold : float;
  states : gmap string pairState;
  events : list ArbitrageEvent;
}.

Definition no_side : side := {| BestBid := 0; BestAsk := 0; Updated := 0 |}.

Definition NewUnifiedBook (threshold : float) : UnifiedBook :=
  {| threshold := threshold; states := ∅; events := [] |}.

Definition AddPair (ub : UnifiedBook) (pair : MarketPair) : UnifiedBook :=
  {| threshold := threshold ub;
     states := <[Name pair := {| pair_of := pair; Poly := no_side; Kalshi := no_side |}]>
                 (states ub);
     events := events ub |}.

Definition Snapshot (ub : UnifiedBook) (pairName : string) : pairState * bool :=
  match states ub !! pairName with
  | Some ps => (ps, true)
  | None =>
      ({| pair_of := {| Name := ""; PolyMarketID := ""; KalshiMarketID := "" |};
          Poly := no_side; Kalshi := no_side |}, false)
  end.

Definition bestHigh (levels : list PriceLevel) : float :=
  match levels with
  | [] => 0%float
  | l0 :: rest =>
      foldl (fun best l => if PrimFloat.ltb best (Price l) then Price l else best)
            (Price l0) rest
  end.

Definition bestLow (levels : list PriceLevel) : float :=
  match levels with
  | [] => 0%float
  | l0 :: rest =>
      foldl (fun best l => if PrimFloat.ltb (Price l) best then Price l else best)
            (Price l0) rest
  end.

Definition emit (ub : UnifiedBook) (ev : ArbitrageEvent) : UnifiedBook :=
  {| threshold := threshold ub; states := states ub;
     events := trySend 256 (events ub) ev |}.

(** [now1] and [now2] are the clock readings of the two events. *)
Definition checkArbitrage (ub : UnifiedBook) (pair : MarketPair)
    (poly kalshi : side) (now1 now2 : Time) : UnifiedBook :=
  let ub :=
    if PrimFloat.ltb 0 (BestAsk kalshi) then
      let spread := PrimFloat.sub (BestBid poly) (BestAsk kalshi) in
      if PrimFloat.ltb (threshold ub) spread then
        emit ub {| Pair := pair; Direction := ArbPolyBidKalshiAsk;
                   BidExchange := ExchangePolymarket; AskExchange := ExchangeKalshi;
                   Bid := BestBid poly; Ask := BestAsk kalshi;
                   Spread := spread; Timestamp := now1 |}
      else ub
    else ub in
  if PrimFloat.ltb 0 (BestAsk poly) then
    let spread := PrimFloat.sub (BestBid kalshi) (BestAsk poly) in
    if PrimFloat.ltb (threshold ub) spread then
      emit ub {| Pair := pair; Direction := ArbKalshiBidPolyAsk;
                 BidExchange := ExchangeKalshi; AskExchange := ExchangePolymarket;
                 Bid := BestBid kalshi; Ask := BestAsk poly;
                 Spread := spread; Timestamp := now2 |}
    else ub
  else ub.

(** [applyUpdate]; [None] is the nil-pointer panic on a pair that was not
    registered. *)
Definition applyUpdate (ub : UnifiedBook) (pair : MarketPair) (exchange : string)
    (update : BookUpdate) (now1 now2 : Time) : option UnifiedBook :=
  let bestBid := bestHigh (Bids update) in
  let bestAsk := bestLow (Asks update) in
  match states ub !! Name pair with
  | None => None
  | Some ps =>
      let s := {| BestBid := bestBid; BestAsk := bestAsk;
                  Updated := adapter.Timestamp update |} in
      let ps :=
        if String.eqb exchange ExchangePolymarket
        then {| pair_of := pair_of ps; Poly := s; Kalshi := Kalshi ps |}
        else if String.eqb exchange ExchangeKalshi
        then {| pair_of := pair_of ps; Poly := Poly ps; Kalshi := s |}
        else ps in
      Some (checkArbitrage
              {| threshold := threshold ub;
                 states := <[Name pair := ps]> (states ub);
                 events := events ub |}
              pair (Poly ps) (Kalshi ps) now1 now2)
  end.

(** An event reports a crossed book between the two sides. *)
Definition crossed (thr : float) (pair : MarketPair) (poly kalshi : side)
    (ev : ArbitrageEvent) : Prop :=
  Pair ev = pair /\
  PrimFloat.ltb 0 (Ask ev) = true /\
  Spread ev = PrimFloat.sub (Bid ev) (Ask ev) /\
  PrimFloat.ltb thr (Spread ev) = true /\
  match Direction ev with
  | ArbPolyBidKalshiAsk =>
      BidExchange ev = ExchangePolymarket /\ AskExchange ev = ExchangeKalshi /\
      Bid ev = BestBid poly /\ Ask ev = BestAsk kalshi
  | ArbKalshiBidPolyAsk =>
      BidExchange ev = ExchangeKalshi /\ AskExchange ev = ExchangePolymarket /\
      Bid ev = BestBid kalshi /\ Ask ev = BestAsk poly
  end.

Lemma checkArbitrage_events ub pair poly kalshi now1 now2 :
  let ub' := checkArbitrage ub pair poly kalshi now1 now2 in
  threshold ub' = threshold ub /\ states ub' = states ub /\
  exists new,
    events ub' = foldl (trySend 256) (events ub) new /\
    (length new <= 2)%nat /\
    Forall (crossed (threshold ub) pair poly kalshi) new /\
    ((exists ev, ev ∈ new /\ Direction ev = ArbPolyBidKalshiAsk) <->
       PrimFloat.ltb 0 (BestAsk kalshi) = true /\
       PrimFloat.ltb (threshold ub) (PrimFloat.sub (BestBid poly) (BestAsk kalshi)) = true) /\
    ((exists ev, ev ∈ new /\ Direction ev = ArbKalshiBidPolyAsk) <->
       PrimFloat.ltb 0 (BestAsk poly) = true /\
       PrimFloat.ltb (threshold ub) (PrimFloat.sub (BestBid kalshi) (BestAsk poly)) = true).
Proof.
  intros ub'.
  pose (ev1 := {| Pair := pair; Direction := ArbPolyBidKalshiAsk;
                  BidExchange := ExchangePolymarket; AskExchange := ExchangeKalshi;
                  Bid := BestBid poly; Ask := BestAsk kalshi;
                  Spread := PrimFloat.sub (BestBid poly) (BestAsk kalshi);
                  Timestamp := now1 |}).
  pose (ev2 := {| Pair := pair; Direction := ArbKalshiBidPolyAsk;
                  BidExchange := ExchangeKalshi; AskExchange := ExchangePolymarket;
                  Bid := BestBid kalshi; Ask := BestAsk poly;
                  Spread := PrimFloat.sub (BestBid kalshi) (BestAsk poly);
                  Timestamp := now2 |}).
  pose (c1 := PrimFloat.ltb 0 (BestAsk kalshi) &&
              PrimFloat.ltb (threshold ub) (PrimFloat.sub (BestBid poly) (BestAsk kalshi))).
  pose (c2 := PrimFloat.ltb 0 (BestAsk poly) &&
              PrimFloat.ltb (threshold ub) (PrimFloat.sub (BestBid kalshi) (BestAsk poly))).
  assert (threshold ub' = threshold ub /\ states ub' = states ub /\
          events ub' = foldl (trySend 256) (events ub)
                         ((if c1 then [ev1] else []) ++ (if c2 then [ev2] else [])))
    as (Ht & Hs & He).
  { unfold ub', checkArbitrage, c1, c2, ev1, ev2.
    destruct (PrimFloat.ltb 0 (BestAsk kalshi)),
             (PrimFloat.ltb (threshold ub) (PrimFloat.sub (BestBid poly) (BestAsk kalshi)));
      simpl;
      destruct (PrimFloat.ltb 0 (BestAsk poly)),
               (PrimFloat.ltb (threshold ub) (PrimFloat.sub (BestBid kalshi) (BestAsk poly)));
      simpl; done. }
  split; [done|]. split; [done|].
  exists ((if c1 then [ev1] else []) ++ (if c2 then [ev2] else [])).
  split; [done|].
  assert (c1 = true <-> PrimFloat.ltb 0 (BestAsk kalshi) = true /\
            PrimFloat.ltb (threshold ub)
              (PrimFloat.sub (BestBid poly) (BestAsk kalshi)) = true) as H1
    by apply andb_true_iff.
  assert (c2 = true <-> PrimFloat.ltb 0 (BestAsk poly) = true /\
            PrimFloat.ltb (threshold ub)
              (PrimFloat.sub (BestBid kalshi) (BestAsk poly)) = true) as H2
    by apply andb_true_iff.
  rewrite <- H1, <- H2. clear He. clearbody c1 c2.
  split; [destruct c1, c2; simpl; lia|]. split; [|split].
  - apply Forall_app. split.
    + destruct c1; [|constructor]. destruct H1 as [[? ?] _]; [done|].
      repeat constructor; done.
    + destruct c2; [|constructor]. destruct H2 as [[? ?] _]; [done|].
      repeat constructor; done.
  - split.
    + intros (ev & Hin & Hd). apply elem_of_app in Hin as [Hin|Hin].
      * destruct c1; [done|by apply elem_of_nil in Hin].
      * destruct c2; [|by apply elem_of_nil in Hin].
        apply list_elem_of_singleton in Hin. by subst ev.
    + intros ->. exists ev1. split; [|done]. apply elem_of_app. left.
      by apply list_elem_of_singleton.
  - split.
    + intros (ev & Hin & Hd). apply elem_of_app in Hin as [Hin|Hin].
      * destruct c1; [|by apply elem_of_nil in Hin].
        apply list_elem_of_singleton in Hin. by subst ev.
      * destruct c2; [done|by apply elem_of_nil in Hin].
    + intros ->. exists ev2. split; [|done]. apply elem_of_app. right.
      by apply list_elem_of_singleton.
Qed.

(** X16.  Arbitrage detection.  [AddPair] registers a pair with empty
    sides.  An update for a registered pair replaces the side of its
    exchange by the best bid and best ask of the update and leaves the
    other side, as [Snapshot] then shows; an update for a pair that was
    never registered is a nil-pointer panic.  The update emits at most two events, offered
    to the channel of 256 without blocking.  Every event is a crossed book
    of the two sides as they are after the update: its ask is positive, its
    spread is bid minus ask and exceeds the threshold; and a direction is
    reported exactly when its ask is positive and its spread exceeds the
    threshold, so a side without asks never triggers. *)
Theorem arbitrage_events_are_crossed ub pair exchange update now1 now2 :
  Snapshot (AddPair ub pair) (Name pair) =
    ({| pair_of := pair; Poly := no_side; Kalshi := no_side |}, true) /\
  match applyUpdate ub pair exchange update now1 now2 with
  | None => (Snapshot ub (Name pair)).2 = false
  | Some ub' =>
      exists ps ps' new,
        Snapshot ub (Name pair) = (ps, true) /\
        Snapshot ub' (Name pair) = (ps', true) /\
        states ub' = <[Name pair := ps']> (states ub) /\
        threshold ub' = threshold ub /\
        (exchange = ExchangePolymarket ->
           Kalshi ps' = Kalshi ps /\
           Poly ps' = {| BestBid := bestHigh (Bids update);
                         BestAsk := bestLow (Asks update);
                         Updated := adapter.Timestamp update |}) /\
        (exchange = ExchangeKalshi ->
           Poly ps' = Poly ps /\
           Kalshi ps' = {| BestBid := bestHigh (Bids update);
                           BestAsk := bestLow (Asks update);
                           Updated := adapter.Timestamp update |}) /\
        events ub' = foldl (trySend 256) (events ub) new /\
        (length new <= 2)%nat /\
        Forall (crossed (threshold ub) pair (Poly ps') (Kalshi ps')) new /\
        ((exists ev, ev ∈ new /\ Direction ev = ArbPolyBidKalshiAsk) <->
           PrimFloat.ltb 0 (BestAsk (Kalshi ps')) = true /\
           PrimFloat.ltb (threshold ub)
             (PrimFloat.sub (BestBid (Poly ps')) (BestAsk (Kalshi ps'))) = true) /\
        ((exists ev, ev ∈ new /\ Direction ev = ArbKalshiBidPolyAsk) <->
           PrimFloat.ltb 0 (BestAsk (Poly ps')) = true /\
           PrimFloat.ltb (threshold ub)
             (PrimFloat.sub (BestBid (Kalshi ps')) (BestAsk (Poly ps'))) = true)
  end.
Proof.
  split; [unfold Snapshot, AddPair; simpl; by rewrite lookup_insert_eq|].
  unfold applyUpdate, Snapshot.
  destruct (states ub !! Name pair) as [ps|] eqn:Hps; [|done].
  set (s := {| BestBid := bestHigh (Bids update); BestAsk := bestLow (Asks update);
               Updated := adapter.Timestamp update |}).
  set (ps' := if String.eqb exchange ExchangePolymarket
              then {| pair_of := pair_of ps; Poly := s; Kalshi := Kalshi ps |}
              else if String.eqb exchange ExchangeKalshi
              then {| pair_of := pair_of ps; Poly := Poly ps; Kalshi := s |}
              else ps).
  set (ub1 := {| threshold := threshold ub;
                 states := <[Name pair := ps']> (states ub);
                 events := events ub |}).
  destruct (checkArbitrage_events ub1 pair (Poly ps') (Kalshi ps') now1 now2)
    as (Ht & Hs & new & He & Hlen & Hall & Hd1 & Hd2).
  exists ps, ps', new. simpl in *.
  split; [done|]. split; [by rewrite Hs, lookup_insert_eq|].
  split; [done|]. split; [done|].
  split; [|split; [|done]].
  - intros ->. unfold ps'. done.
  - intros ->. unfold ps'. done.
Qed.

(** X17.  Best bid and best ask.  [bestHigh] and [bestLow] return 0 for an
    empty side; otherwise the price of one of the levels, which no level
    exceeds (for bids) or undercuts (for asks).  The Redis writer derives
    its strings from the same prices: for a non-empty side [bestPrice] is
    the formatted [bestHigh] or [bestLow]. *)
Theorem best_of_side FormatFloat (levels : list PriceLevel) :
  match levels with
  | [] => bestHigh levels = 0%float /\ bestLow levels = 0%float
  | _ =>
      (exists l, l ∈ levels /\ Price l = bestHigh levels) /\
      (forall l, l ∈ levels -> PrimFloat.ltb (bestHigh levels) (Price l) = false) /\
      (exists l, l ∈ levels /\ Price l = bestLow levels) /\
      (forall l, l ∈ levels -> PrimFloat.ltb (Price l) (bestLow levels) = false) /\
      bestPrice FormatFloat levels true = FormatFloat (bestHigh levels) /\
      bestPrice FormatFloat levels false = FormatFloat (bestLow levels)
  end.
Proof.
  destruct levels as [|l0 rest]; [done|].
  assert (forall isBid p,
    foldl (bestPrice_step isBid) p rest =
    foldl (fun best l =>
             if (if isBid then PrimFloat.ltb best (Price l)
                 else PrimFloat.ltb (Price l) best)
             then Price l else best) p rest) as Hstep.
  { intros isBid. induction rest as [|x rest IH]; intros p; [done|].
    simpl. rewrite IH. unfold bestPrice_step. by destruct isBid. }
  pose proof (Hstep true (Price l0)) as Hh.
  pose proof (Hstep false (Price l0)) as Hl.
  change (foldl _ (Price l0) rest) with (bestHigh (l0 :: rest)) in Hh at 2.
  change (foldl _ (Price l0) rest) with (bestLow (l0 :: rest)) in Hl at 2.
  clear Hstep.
  pose proof (bestPrice_loop true l0 rest) as [H1 H2].
  pose proof (bestPrice_loop false l0 rest) as [H3 H4].
  simpl in H1, H2, H3, H4. rewrite Hh in H1, H2. rewrite Hl in H3, H4.
  unfold bestPrice. rewrite Hh, Hl. done.
Qed.

End unified.

(** *** Tunnel manager *)

(** Private sessions keyed by user and exchange.  Each tunnel owns a
    WSClient of its own; the clients live in a heap ([clients]), a pointer
    being a position in it, and [closed] lists the clients that [Close] was
    called on. *)
Module tunnel.

Record Tunnel := {
  UserID : string;
  Exchange : string;
  ws : nat;
  msgs : nat;
}.

Record TunnelConfig := {
  cfg_UserID : string;
  cfg_Exchange : string;
  URL : string;
  Headers : list (string * string);
}.

(** [pool] is the IP pool, nil until configured; nothing reads it. *)
Record TunnelManager := {
  tunnels : gmap (string * string) Tunnel;
  pool : option nat;
}.

Record clients := {
  heap : list WSClient;
  closed : list nat;
}.

Definition NewTunnelManager : TunnelManager := {| tunnels := ∅; pool := None |}.

Definition SetIPPool (tm : TunnelManager) (p : option nat) : TunnelManager :=
  {| tunnels := tunnels tm; pool := p |}.

(** [Tunnel.close]: cancel the context and close the client. *)
Definition close (t : Tunnel) (w : clients) : clients :=
  {| heap := heap w; closed := ws t :: closed w |}.

(** [Open]; [dial_ok] tells whether the dial of [Connect] succeeds.  An
    existing tunnel of the key is closed and removed first; the new client
    is created and subscribed to before it connects. *)
Definition Open (tm : TunnelManager) (w : clients) (cfg : TunnelConfig)
    (dial_ok : bool) : TunnelManager * clients * option Tunnel :=
  let key := (cfg_UserID cfg, cfg_Exchange cfg) in
  let '(tm, w) :=
    match tunnels tm !! key with
    | Some existing =>
        ({| tunnels := delete key (tunnels tm); pool := pool tm |}, close existing w)
    | None => (tm, w)
    end in
  let p := length (heap w) in
  let sub := Subscribe NewWSClient in
  if dial_ok then
    let t := {| UserID := cfg_UserID cfg; Exchange := cfg_Exchange cfg;
                ws := p; msgs := sub.2 |} in
    ({| tunnels := <[key := t]> (tunnels tm); pool := pool tm |},
     {| heap := heap w ++ [Connect sub.1]; closed := closed w |},
     Some t)
  else
    (tm, {| heap := heap w ++ [sub.1]; closed := closed w |}, None).

Definition Close (tm : TunnelManager) (w : clients) (userID exchange : string)
    : TunnelManager * clients :=
  match tunnels tm !! (userID, exchange) with
  | Some t =>
      ({| tunnels := delete (userID, exchange) (tunnels tm); pool := pool tm |},
       close t w)
  | None => (tm, w)
  end.

Definition CloseAll (tm : TunnelManager) (w : clients) : TunnelManager * clients :=
  ({| tunnels := ∅; pool := pool tm |},
   {| heap := heap w;
      closed := (ws <$> ((map_to_list (tunnels tm)).*2)) ++ closed w |}).

Definition Get (tm : TunnelManager) (userID exchange : string) : option Tunnel :=
  tunnels tm !! (userID, exchange).

(** [Send]: [false] is the error for a user without a tunnel. *)
Definition Send (tm : TunnelManager) (w : clients) (userID exchange : string)
    (data : bytes) : clients * bool :=
  match Get tm userID exchange with
  | None => (w, false)
  | Some t =>
      ({| heap := alter (fun c => adapter.Send c data) (ws t) (heap w);
          closed := closed w |}, true)
  end.

(** A frame read by the read loop of the client at [p]; a closed client
    reads nothing. *)
Definition frame_arrives (w : clients) (p : nat) (msg : bytes) : clients :=
  if bool_decide (p ∈ closed w) then w
  else {| heap := alter (fun c => readLoop_frame c msg) p (heap w);
          closed := closed w |}.

Inductive op :=
  | OpOpen (cfg : TunnelConfig) (dial_ok : bool)
  | OpClose (userID exchange : string)
  | OpCloseAll
  | OpSend (userID exchange : string) (data : bytes)
  | OpFrame (p : nat) (msg : bytes)
  | OpSetIPPool (p : option nat).

Definition apply_op (st : TunnelManager * clients) (o : op) : TunnelManager * clients :=
  match o with
  | OpOpen cfg dial_ok => (Open st.1 st.2 cfg dial_ok).1
  | OpClose userID exchange => Close st.1 st.2 userID exchange
  | OpCloseAll => CloseAll st.1 st.2
  | OpSend userID exchange data => (st.1, (Send st.1 st.2 userID exchange data).1)
  | OpFrame p msg => (st.1, frame_arrives st.2 p msg)
  | OpSetIPPool p => (SetIPPool st.1 p, st.2)
  end.

Definition run (ops : list op) : TunnelManager * clients :=
  foldl apply_op (NewTunnelManager, {| heap := []; closed := [] |}) ops.

(** Every tunnel is stored under its own user and exchange and owns a live
    client that no other tunnel has. *)
Definition separate (st : TunnelManager * clients) : Prop :=
  (forall p, p ∈ closed st.2 -> (p < length (heap st.2))%nat) /\
  forall key t, tunnels st.1 !! key = Some t ->
    key = (UserID t, Exchange t) /\
    (ws t < length (heap st.2))%nat /\ (ws t ∉ closed st.2) /\
    forall key' t', tunnels st.1 !! key' = Some t' -> ws t' = ws t -> key' = key.

Lemma separate_close tm w key t :
  separate (tm, w) -> tunnels tm !! key = Some t ->
  separate ({| tunnels := delete key (tunnels tm); pool := pool tm |}, close t w).
Proof.
  intros [Hcl Htun] Ht. split; simpl.
  - intros p [->|Hp]%elem_of_cons; [|by apply Hcl].
    by destruct (Htun _ _ Ht) as (_ & ? & _).
  - intros k u Hu. apply lookup_delete_Some in Hu as [Hne Hu].
    destruct (Htun _ _ Hu) as (Hk & Hlt & Hnc & Hinj).
    split; [done|]. split; [done|]. split.
    + intros [Heq|Hin]%elem_of_cons; [|done].
      apply Hne, (Hinj key t); [done|congruence].
    + intros k' u' Hu' Hws. apply lookup_delete_Some in Hu' as [_ Hu'].
      by apply (Hinj k' u').
Qed.

Lemma separate_heap tm w heap' :
  length heap' = length (heap w) ->
  separate (tm, w) -> separate (tm, {| heap := heap'; closed := closed w |}).
Proof.
  intros Hlen [Hcl Htun]. split; simpl.
  - intros p Hp. rewrite Hlen. by apply Hcl.
  - intros k u Hu. destruct (Htun _ _ Hu) as (Hk & Hlt & Hnc & Hinj).
    rewrite Hlen. done.
Qed.

Lemma separate_step st o : separate st -> separate (apply_op st o).
Proof.
  destruct st as [tm w]. intros Hs.
  destruct o as [cfg dial_ok|userID exchange| |userID exchange data|p msg|p]; simpl.
  - unfold Open.
    set (key := (cfg_UserID cfg, cfg_Exchange cfg)).
    assert (exists tm1 w1,
      match tunnels tm !! key with
      | Some existing =>
          ({| tunnels := delete key (tunnels tm); pool := pool tm |}, close existing w)
      | None => (tm, w)
      end = (tm1, w1) /\ separate (tm1, w1) /\ tunnels tm1 !! key = None)
      as (tm1 & w1 & -> & [Hcl Htun] & Hnone).
    { destruct (tunnels tm !! key) as [existing|] eqn:E.
      - eexists _, _. split; [done|]. split; [by apply separate_close|].
        simpl. apply lookup_delete_eq.
      - eexists _, _. done. }
    destruct dial_ok; simpl.
    + split; simpl.
      * intros p Hp. rewrite length_app. simpl. specialize (Hcl p Hp). simpl in Hcl. lia.
      * intros k u Hu. rewrite length_app. simpl.
        destruct (decide (k = key)) as [->|Hne].
        -- rewrite lookup_insert_eq in Hu. injection Hu as <-. simpl.
           split; [done|]. split; [lia|]. split.
           ++ intros Hin. specialize (Hcl _ Hin). simpl in Hcl. lia.
           ++ intros k' u' Hu' Hws.
              destruct (decide (k' = key)) as [->|Hne']; [done|].
              rewrite lookup_insert_ne in Hu' by done.
              destruct (Htun _ _ Hu') as (_ & Hlt & _). simpl in Hlt. lia.
        -- rewrite lookup_insert_ne in Hu by done.
           destruct (Htun _ _ Hu) as (Hk & Hlt & Hnc & Hinj). simpl in *.
           split; [done|]. split; [lia|]. split; [done|].
           intros k' u' Hu' Hws.
           destruct (decide (k' = key)) as [->|Hne'].
           ++ rewrite lookup_insert_eq in Hu'. injection Hu' as <-. simpl in Hws. lia.
           ++ rewrite lookup_insert_ne in Hu' by done. by apply (Hinj k' u').
    + split; simpl.
      * intros p Hp. rewrite length_app. simpl. specialize (Hcl p Hp). simpl in Hcl. lia.
      * intros k u Hu. rewrite length_app. simpl.
        destruct (Htun _ _ Hu) as (Hk & Hlt & Hnc & Hinj). simpl in *.
        split; [done|]. split; [lia|]. done.
  - unfold Close. destruct (tunnels tm !! (userID, exchange)) as [t|] eqn:E; [|done].
    by apply separate_close.
  - destruct Hs as [Hcl Htun]. split; simpl.
    + intros p [Hp|Hp]%elem_of_app; [|by apply Hcl].
      apply list_elem_of_fmap in Hp as (t & -> & Ht).
      apply list_elem_of_fmap in Ht as ([k t'] & -> & Hkt).
      apply elem_of_map_to_list in Hkt.
      by destruct (Htun _ _ Hkt) as (_ & ? & _).
    + intros k u Hu. by rewrite lookup_empty in Hu.
  - unfold Send, Get. destruct (tunnels tm !! (userID, exchange)) as [t|]; [|done].
    simpl. apply separate_heap; [|done]. apply length_alter.
  - unfold frame_arrives. destruct (bool_decide (p ∈ closed w)); [done|].
    apply separate_heap; [|done]. apply length_alter.
  - done.
Qed.

Lemma separate_run ops : separate (run ops).
Proof.
  unfold run. induction ops as [|o ops IH] using rev_ind.
  - split; simpl; [by intros p Hp%elem_of_nil|].
    intros k u Hu. by rewrite lookup_empty in Hu.
  - rewrite foldl_app. simpl. by apply separate_step.
Qed.

(** X28.  Isolation of tunnels.  After any sequence of operations on a new
    manager, every tunnel is stored under its own user and exchange and owns
    a live client that no other tunnel has.  Hence a message sent for one
    user reaches the outbox of that user's client and no other tunnel's
    client changes; a frame read on one user's connection reaches that
    tunnel's channel and no other tunnel's client changes; and sending for
    a user without a tunnel is an error that changes nothing. *)
Theorem tunnel_isolation ops userID exchange data msg :
  let st := run ops in
  separate st /\
  match Get st.1 userID exchange with
  | None => Send st.1 st.2 userID exchange data = (st.2, false)
  | Some t =>
      exists c,
        heap st.2 !! ws t = Some c /\
        UserID t = userID /\ Exchange t = exchange /\
        (let w' := (Send st.1 st.2 userID exchange data).1 in
         heap w' !! ws t = Some (adapter.Send c data) /\
         forall key' t', key' <> (userID, exchange) ->
           tunnels st.1 !! key' = Some t' -> heap w' !! ws t' = heap st.2 !! ws t') /\
        (let w' := frame_arrives st.2 (ws t) msg in
         heap w' !! ws t = Some (readLoop_frame c msg) /\
         forall key' t', key' <> (userID, exchange) ->
           tunnels st.1 !! key' = Some t' -> heap w' !! ws t' = heap st.2 !! ws t')
  end.
Proof.
  intros st. pose proof (separate_run ops) as Hs. fold st in Hs.
  split; [done|]. destruct Hs as [Hcl Htun].
  unfold Send, Get. destruct (tunnels st.1 !! (userID, exchange)) as [t|] eqn:Ht; [|done].
  destruct (Htun _ _ Ht) as (Hk & Hlt & Hnc & Hinj).
  destruct (lookup_lt_is_Some_2 _ _ Hlt) as [c Hc].
  exists c. injection Hk as -> ->. split; [done|]. split; [done|]. split; [done|].
  assert (forall key' t', key' <> (UserID t, Exchange t) ->
            tunnels st.1 !! key' = Some t' -> ws t <> ws t') as Hother.
  { intros key' t' Hne Ht' Hws. apply Hne. by apply (Hinj key' t'). }
  split; simpl.
  - split.
    + by rewrite list_lookup_alter_eq, Hc.
    + intros key' t' Hne Ht'. apply list_lookup_alter_ne. by eapply Hother.
  - unfold frame_arrives. rewrite bool_decide_eq_false_2 by done. simpl. split.
    + by rewrite list_lookup_alter_eq, Hc.
    + intros key' t' Hne Ht'. apply list_lookup_alter_ne. by eapply Hother.
Qed.

(** X29.  Re-opening a tunnel.  [Open] closes and removes the tunnel that
    the user already has on the exchange before it dials.  If the dial
    succeeds the user's tunnel is the new one, on a fresh client that is
    connected and has the tunnel's channel as its only subscriber.  If the
    dial fails the user is left with no tunnel at all: the old one is gone,
    [Get] finds nothing and [Send] is an error.  Tunnels of other keys are
    not touched either way. *)
Theorem reopen_replaces_or_drops tm w cfg dial_ok data :
  let key := (cfg_UserID cfg, cfg_Exchange cfg) in
  let r := Open tm w cfg dial_ok in
  (forall existing, tunnels tm !! key = Some existing -> ws existing ∈ closed r.1.2) /\
  (forall key', key' <> key -> tunnels r.1.1 !! key' = tunnels tm !! key') /\
  (forall p, (p < length (heap w))%nat -> heap r.1.2 !! p = heap w !! p) /\
  if dial_ok then
    exists t,
      r.2 = Some t /\ Get r.1.1 (cfg_UserID cfg) (cfg_Exchange cfg) = Some t /\
      ws t = length (heap w) /\
      heap r.1.2 !! ws t = Some (Connect (Subscribe NewWSClient).1) /\
      subs (Connect (Subscribe NewWSClient).1) !! msgs t = Some [] /\
      length (subs (Connect (Subscribe NewWSClient).1)) = 1%nat
  else
    r.2 = None /\
    Get r.1.1 (cfg_UserID cfg) (cfg_Exchange cfg) = None /\
    Send r.1.1 r.1.2 (cfg_UserID cfg) (cfg_Exchange cfg) data = (r.1.2, false).
Proof.
  intros key r. unfold r, Open, Get, Send, Get. fold key.
  destruct (tunnels tm !! key) as [existing|] eqn:E; destruct dial_ok; simpl.
  - split; [intros ? [= <-]; set_solver|].
    split; [intros key' Hne; by rewrite lookup_insert_ne, lookup_delete_ne|].
    split; [intros p Hp; by rewrite lookup_app_l|].
    eexists. rewrite lookup_insert_eq. split; [done|]. split; [done|]. simpl.
    split; [done|]. split; [|done].
    rewrite lookup_app_r by done. by rewrite Nat.sub_diag.
  - split; [intros ? [= <-]; set_solver|].
    split; [intros key' Hne; by rewrite lookup_delete_ne|].
    split; [intros p Hp; by rewrite lookup_app_l|].
    by rewrite lookup_delete_eq.
  - split; [done|].
    split; [intros key' Hne; by rewrite lookup_insert_ne|].
    split; [intros p Hp; by rewrite lookup_app_l|].
    eexists. rewrite lookup_insert_eq. split; [done|]. split; [done|]. simpl.
    split; [done|]. split; [|done].
    rewrite lookup_app_r by done. by rewrite Nat.sub_diag.
  - split; [done|]. split; [done|].
    split; [intros p Hp; by rewrite lookup_app_l|].
    by rewrite E.
Qed.

End tunnel.

(** *** Reconnection with backoff *)

Record WSConfig := {
  URL : string;
  ReadBufferSize : Z;
  WriteBufferSize : Z;
  HeartbeatTimeout : Duration;
  BackoffInitial : Duration;
  BackoffMax : Duration;
  BackoffFactor : float;
  Headers : list (string * string);
}.

Definition DefaultWSConfig (url : string) : WSConfig :=
  {| URL := url;
     ReadBufferSize := 4096;
     WriteBufferSize := 4096;
     HeartbeatTimeout := 500 * Millisecond;
     BackoffInitial := 50 * Millisecond;
     BackoffMax := 5 * Second;
     BackoffFactor := 2;
     Headers := [] |}.

(** [math.Min], with its special cases for infinities, NaN and zeros. *)
Definition math_Min (x y : float) : float :=
  if PrimFloat.eqb x neg_infinity || PrimFloat.eqb y neg_infinity then neg_infinity
  else if PrimFloat.is_nan x || PrimFloat.is_nan y then nan
  else if PrimFloat.eqb x 0 && PrimFloat.eqb x y then
    (if PrimFloat.get_sign x then x else y)
  else if PrimFloat.ltb x y then x else y.

(** The delay after a failed dial:
    [time.Duration(math.Min(float64(delay)*factor, float64(max)))]. *)
Definition next_delay (cfg : WSConfig) (delay : Duration) : Duration :=
  int64_of_float
    (math_Min (PrimFloat.mul (float64_of_int delay) (BackoffFactor cfg))
              (float64_of_int (BackoffMax cfg))).

(** The loop of [reconnect]: [dials] are the outcomes of the dials made
    before the context is cancelled.  The result lists the delays waited
    before each dial and tells whether a dial succeeded. *)
Fixpoint reconnect_loop (cfg : WSConfig) (delay : Duration) (dials : list bool)
    : list Duration * bool :=
  match dials with
  | [] => ([], false)
  | ok :: dials' =>
      if ok then ([delay], true)
      else
        let r := reconnect_loop cfg (next_delay cfg delay) dials' in
        (delay :: r.1, r.2)
  end.

(** [reconnect]: the circuit opens first and closes when a dial succeeds. *)
Definition reconnect (ws : WSClient) (cfg : WSConfig) (dials : list bool)
    : WSClient * list Duration * bool :=
  let r := reconnect_loop cfg (BackoffInitial cfg) dials in
  ({| circuit := if r.2 then CircuitClosed else CircuitOpen;
      subs := subs ws; outbox := outbox ws; reading := reading ws |},
   r.1, r.2).

Lemma reconnect_loop_delays cfg delay dials :
  let r := reconnect_loop cfg delay dials in
  (forall n d, r.1 !! n = Some d -> d = Nat.iter n (next_delay cfg) delay) /\
  (r.2 = true <-> true ∈ dials) /\
  (r.2 = true -> exists n, dials !! n = Some true /\ length r.1 = S n /\
                   forall m, (m < n)%nat -> dials !! m = Some false) /\
  (r.2 = false -> length r.1 = length dials).
Proof.
  revert delay. induction dials as [|ok dials IH]; intros delay; simpl.
  { repeat split; try done. by intros ?%elem_of_nil. }
  destruct ok; simpl.
  - split; [|split; [|split]]; try done.
    + intros [|n] d; simpl; [by intros [= <-]|done].
    + split; [intros _; by left|done].
    + intros _. exists 0%nat. repeat split; try done. lia.
  - destruct (IH (next_delay cfg delay)) as (Hd & Hiff & Hok & Hfail).
    split; [|split; [|split]].
    + intros [|n] d; simpl; [by intros [= <-]|].
      intros Hn. rewrite (Hd n d Hn). clear.
      induction n as [|n IHn]; [done|]. simpl. by rewrite <- IHn.
    + rewrite Hiff. split; [by right|].
      by intros [?|?]%elem_of_cons.
    + intros Hr. destruct (Hok Hr) as (n & Hn & Hlen & Hbefore).
      exists (S n). simpl. split; [done|]. split; [by rewrite Hlen|].
      intros [|m] Hm; simpl; [done|]. apply Hbefore. lia.
    + intros Hr. simpl. by rewrite Hfail.
Qed.

Lemma default_delays url n :
  Nat.iter n (next_delay (DefaultWSConfig url)) (50 * Millisecond) =
  Z.min (50 * Millisecond * 2 ^ Z.of_nat n) (5 * Second).
Proof.
  assert (next_delay (DefaultWSConfig url) (5 * Second) = 5 * Second) as Hfix
    by (vm_compute; reflexivity).
  assert (forall k, Nat.iter (7 + k) (next_delay (DefaultWSConfig url)) (50 * Millisecond)
                    = 5 * Second) as Hlate.
  { induction k as [|k IH].
    - vm_compute. reflexivity.
    - replace (7 + S k)%nat with (S (7 + k)) by lia.
      rewrite Nat.iter_succ, IH. exact Hfix. }
  destruct (Nat.lt_ge_cases n 7) as [Hlt|Hge].
  - do 7 (destruct n as [|n]; [vm_compute; reflexivity|]). lia.
  - replace n with (7 + (n - 7))%nat by lia. rewrite Hlate.
    assert (2 ^ 7 <= 2 ^ Z.of_nat (7 + (n - 7))) by (apply Z.pow_le_mono_r; lia).
    unfold Millisecond, Second in *. lia.
Qed.

(** X30.  Reconnecting.  While [reconnect] runs the circuit is open, and it
    is closed again exactly when one of the dials succeeds; the loop stops
    at the first successful dial and otherwise waits once per failed dial.
    The wait before each dial is the previous wait scaled by the backoff
    factor and capped; with the default configuration the waits are 50 ms
    doubled after each failure up to 5 s: 50, 100, 200, 400, 800, 1600 and
    3200 ms, then 5 s for every further attempt.  Subscribers and the
    outbox survive the reconnection. *)
Theorem reconnect_backoff ws cfg url dials :
  let r := reconnect ws cfg dials in
  (Circuit r.1.1 = CircuitClosed <-> true ∈ dials) /\
  (Circuit r.1.1 = CircuitOpen <-> r.2 = false) /\
  (r.2 = true -> exists n, dials !! n = Some true /\ length r.1.2 = S n /\
                   forall m, (m < n)%nat -> dials !! m = Some false) /\
  (r.2 = false -> length r.1.2 = length dials) /\
  (forall n d, r.1.2 !! n = Some d ->
     d = Nat.iter n (next_delay cfg) (BackoffInitial cfg)) /\
  (forall n d, (reconnect ws (DefaultWSConfig url) dials).1.2 !! n = Some d ->
     d = Z.min (50 * Millisecond * 2 ^ Z.of_nat n) (5 * Second)) /\
  subs r.1.1 = subs ws /\ outbox r.1.1 = outbox ws.
Proof.
  intros r. unfold r, reconnect, Circuit. simpl.
  destruct (reconnect_loop_delays cfg (BackoffInitial cfg) dials)
    as (Hd & Hiff & Hok & Hfail).
  split; [|split; [|split; [|split; [|split; [|split]]]]]; try done.
  - rewrite <- Hiff. by destruct (reconnect_loop cfg (BackoffInitial cfg) dials).2.
  - by destruct (reconnect_loop cfg (BackoffInitial cfg) dials).2.
  - intros n d Hn.
    destruct (reconnect_loop_delays (DefaultWSConfig url)
                (BackoffInitial (DefaultWSConfig url)) dials) as (Hd' & _).
    rewrite (Hd' n d Hn). apply default_delays.
Qed.

End adapter.

(** ** internal/adapter/kalshi: the Kalshi decoder *)

Module kalshi.
Import Go adapter.

(** The [msg] part of a decoded [orderbook_snapshot] frame; [Yes] and [No]
    are lists of (price in cents, quantity). *)
Module rawSnapshot.
Record t := {
  MarketTicker : string;
  MarketID : string;
  Yes : list (Z * Z);
  No : list (Z * Z);
}.
End rawSnapshot.

(** The [msg] part of a decoded [orderbook_delta] frame. *)
Module rawDelta.
Record t := {
  MarketTicker : string;
  MarketID : string;
  Price : Z;
  Delta : Z;
  Side : string;
  Ts : string;
}.
End rawDelta.

(** The book of one market: price in cents to quantity, per side. *)
Record orderBook := {
  MarketTicker : string;
  MarketID : string;
  Yes : gmap Z Z;
  No : gmap Z Z;
}.

(** [raw] is the adapter's subscription channel in the WSClient; [updates]
    is the buffer of its output channel (capacity 1024); [books] is keyed by
    market ticker. *)
Record KalshiAdapter := {
  raw : nat;
  updates : list BookUpdate;
  books : gmap string orderBook;
  cmdID : Z;
}.

(** [New] subscribes to the WSClient's fan-out at once. *)
Definition New (ws : WSClient) : WSClient * KalshiAdapter :=
  let r := Subscribe ws in
  (r.1, {| raw := r.2; updates := []; books := ∅; cmdID := 0 |}).

(** Go ranges over a map in an unspecified order; the levels are listed
    here in the order of [map_to_list], and only their multiset matters. *)
Definition centsToLevels (m : gmap Z Z) : list PriceLevel :=
  (fun pq => {| Price := PrimFloat.div (float64_of_int pq.1) 100;
                Size := float64_of_int pq.2 |}) <$> map_to_list m.

(** The [BookUpdate] that [emitUpdate] builds from a book. *)
Definition bookUpdate (book : orderBook) (now : Time) : BookUpdate :=
  {| Exchange := ExchangeKalshi;
     adapter.MarketID := MarketID book;
     AssetID := MarketTicker book;
     Bids := centsToLevels (Yes book);
     Asks := centsToLevels (No book);
     Timestamp := now;
     Hash := "" |}.

(** [emitUpdate]: a non-blocking send on [updates]. *)
Definition emitUpdate (ka : KalshiAdapter) (book : orderBook) (now : Time)
    : KalshiAdapter :=
  {| raw := raw ka;
     updates := trySend 1024 (updates ka) (bookUpdate book now);
     books := books ka;
     cmdID := cmdID ka |}.

Definition set_books (ka : KalshiAdapter) (b : gmap string orderBook) : KalshiAdapter :=
  {| raw := raw ka; updates := updates ka; books := b; cmdID := cmdID ka |}.

(** The loops of [handleSnapshot] that fill a side: later entries win. *)
Definition fill_side (levels : list (Z * Z)) : gmap Z Z :=
  foldl (fun m level => <[level.1 := level.2]> m) ∅ levels.

(** [handleSnapshot] on the result of [json.Unmarshal] ([None] when the
    frame does not parse). *)
Definition handleSnapshot (ka : KalshiAdapter) (decoded : option rawSnapshot.t)
    (now : Time) : KalshiAdapter :=
  match decoded with
  | None => ka
  | Some snap =>
      let book := {| MarketTicker := rawSnapshot.MarketTicker snap;
                     MarketID := rawSnapshot.MarketID snap;
                     Yes := fill_side (rawSnapshot.Yes snap);
                     No := fill_side (rawSnapshot.No snap) |} in
      emitUpdate (set_books ka (<[rawSnapshot.MarketTicker snap := book]> (books ka)))
                 book now
  end.

(** The quantity that [handleDelta] computes: Go's [int] addition wraps. *)
Definition newQty (side : gmap Z Z) (price delta : Z) : Z :=
  wrap64 (default 0 (side !! price) + delta).

(** The side after a delta at [price]. *)
Definition apply_delta (side : gmap Z Z) (price delta : Z) : gmap Z Z :=
  if newQty side price delta <=? 0 then delete price side
  else <[price := newQty side price delta]> side.

(** [handleDelta] on the result of [json.Unmarshal].  The book is shared
    through a pointer in [books], so the change is seen there and by
    [emitUpdate]. *)
Definition handleDelta (ka : KalshiAdapter) (decoded : option rawDelta.t)
    (now : Time) : KalshiAdapter :=
  match decoded with
  | None => ka
  | Some delta =>
      match books ka !! rawDelta.MarketTicker delta with
      | None => ka
      | Some book =>
          let book' :=
            if String.eqb (rawDelta.Side delta) "no"
            then {| MarketTicker := MarketTicker book; MarketID := MarketID book;
                    Yes := Yes book;
                    No := apply_delta (No book) (rawDelta.Price delta) (rawDelta.Delta delta) |}
            else {| MarketTicker := MarketTicker book; MarketID := MarketID book;
                    Yes := apply_delta (Yes book) (rawDelta.Price delta) (rawDelta.Delta delta);
                    No := No book |} in
          emitUpdate (set_books ka (<[rawDelta.MarketTicker delta := book']> (books ka)))
                     book' now
      end
  end.

(** The side of a book that a delta's [side] string selects. *)
Definition side_of (book : orderBook) (side : string) : gmap Z Z :=
  if String.eqb side "no" then No book else Yes book.

Definition other_side_of (book : orderBook) (side : string) : gmap Z Z :=
  if String.eqb side "no" then Yes book else No book.

Definition test_snapshot : rawSnapshot.t :=
  {| rawSnapshot.MarketTicker := "FED-DEC"; rawSnapshot.MarketID := "m-1";
     rawSnapshot.Yes := [(48, 300)]; rawSnapshot.No := [(54, 200)] |}.

Definition test_delta (ticker : string) : rawDelta.t :=
  {| rawDelta.MarketTicker := ticker; rawDelta.MarketID := "m-1";
     rawDelta.Price := 48; rawDelta.Delta := -100; rawDelta.Side := "yes";
     rawDelta.Ts := "" |}.

(** *** Properties of the Kalshi decoder *)

Lemma wrap64_in_range (z : Z) : minInt64 <= z <= maxInt64 -> wrap64 z = z.
Proof.
  unfold wrap64, minInt64, maxInt64. intros Hz.
  rewrite Z.mod_small by lia. lia.
Qed.

Lemma apply_delta_lookup (side : gmap Z Z) (price delta : Z) :
  apply_delta side price delta !! price =
    if newQty side price delta <=? 0 then None else Some (newQty side price delta).
Proof.
  unfold apply_delta. destruct (newQty side price delta <=? 0).
  - apply lookup_delete_eq.
  - apply lookup_insert_eq.
Qed.

Lemma apply_delta_lookup_ne (side : gmap Z Z) (price delta p : Z) :
  p <> price -> apply_delta side price delta !! p = side !! p.
Proof.
  intros Hne. unfold apply_delta. destruct (newQty side price delta <=? 0).
  - by apply lookup_delete_ne.
  - by apply lookup_insert_ne.
Qed.

(** The emitted levels are exactly the entries of the side, its cents
    divided by 100.0. *)
Lemma elem_of_centsToLevels (m : gmap Z Z) (pl : PriceLevel) :
  pl ∈ centsToLevels m <->
  exists price qty, m !! price = Some qty /\
    pl = {| Price := PrimFloat.div (float64_of_int price) 100;
            Size := float64_of_int qty |}.
Proof.
  unfold centsToLevels. rewrite list_elem_of_fmap. split.
  - intros ([price qty] & -> & Hin). apply elem_of_map_to_list in Hin. eauto.
  - intros (price & qty & Hm & ->). exists (price, qty).
    split; [done|]. by apply elem_of_map_to_list.
Qed.

Lemma centsToLevels_length (m : gmap Z Z) : length (centsToLevels m) = size m.
Proof. unfold centsToLevels. by rewrite length_fmap, length_map_to_list. Qed.

(** C6.  A delta for a market with a prior snapshot adds [delta] to the
    quantity stored at that price on the given side (0 if there is none; the
    sum is Go's [int] sum, exact whenever it fits 64 bits), deletes the
    level when the result is at most 0 and stores the result otherwise,
    leaving every other level, the other side and the other books as they
    were; then a full BookUpdate of the changed book is offered on the
    output channel (a non-blocking send into its 1024 slots), its levels
    being the stored entries with the cents divided by 100.0.  A delta for a
    market with no prior snapshot leaves the decoder as it was: no state
    changes and nothing is emitted. *)
Theorem kalshi_delta ka delta now :
  match books ka !! rawDelta.MarketTicker delta with
  | None => handleDelta ka (Some delta) now = ka
  | Some book =>
      let side := side_of book (rawDelta.Side delta) in
      let old := default 0 (side !! rawDelta.Price delta) in
      let qty := wrap64 (old + rawDelta.Delta delta) in
      exists book',
        handleDelta ka (Some delta) now =
          {| raw := raw ka;
             updates := trySend 1024 (updates ka) (bookUpdate book' now);
             books := <[rawDelta.MarketTicker delta := book']> (books ka);
             cmdID := cmdID ka |} /\
        (minInt64 <= old + rawDelta.Delta delta <= maxInt64 ->
           qty = old + rawDelta.Delta delta) /\
        side_of book' (rawDelta.Side delta) !! rawDelta.Price delta =
          (if qty <=? 0 then None else Some qty) /\
        (forall p, p <> rawDelta.Price delta ->
           side_of book' (rawDelta.Side delta) !! p = side !! p) /\
        other_side_of book' (rawDelta.Side delta) = other_side_of book (rawDelta.Side delta) /\
        MarketTicker book' = MarketTicker book /\ MarketID book' = MarketID book /\
        (forall pl, pl ∈ Bids (bookUpdate book' now) <->
           exists price q, Yes book' !! price = Some q /\
             pl = {| Price := PrimFloat.div (float64_of_int price) 100;
                     Size := float64_of_int q |}) /\
        (forall pl, pl ∈ Asks (bookUpdate book' now) <->
           exists price q, No book' !! price = Some q /\
             pl = {| Price := PrimFloat.div (float64_of_int price) 100;
                     Size := float64_of_int q |}) /\
        length (Bids (bookUpdate book' now)) = size (Yes book') /\
        length (Asks (bookUpdate book' now)) = size (No book')
  end.
Proof.
  unfold handleDelta.
  destruct (books ka !! rawDelta.MarketTicker delta) as [book|]; [|done].
  simpl. eexists. split; [reflexivity|].
  split; [apply wrap64_in_range|].
  unfold side_of, other_side_of.
  destruct (String.eqb (rawDelta.Side delta) "no"); simpl;
    (split; [apply apply_delta_lookup|]);
    (split; [intros p Hp; by apply apply_delta_lookup_ne|]);
    repeat split; try done;
    try apply elem_of_centsToLevels; try apply centsToLevels_length;
    by apply elem_of_centsToLevels.
Qed.

(** Scenario S2: snapshot yes [[48,300]], no [[54,200]], then a delta of
    -100 at 48 on the yes side: the update emitted has bid 0.48 at 200 and
    ask 0.54 at 200.  A delta for an unknown ticker changes nothing. *)
Example snapshot_then_delta :
  let ka0 := (New NewWSClient).2 in
  let ka1 := handleSnapshot ka0 (Some test_snapshot) 1 in
  let ka2 := handleDelta ka1 (Some (test_delta "FED-DEC")) 2 in
  (fun u => (Bids u, Asks u)) <$> updates ka2 =
    [ ([{| Price := 0.48; Size := 300 |}], [{| Price := 0.54; Size := 200 |}]);
      ([{| Price := 0.48; Size := 200 |}], [{| Price := 0.54; Size := 200 |}]) ] /\
  handleDelta ka0 (Some (test_delta "FED-DEC")) 2 = ka0 /\
  handleDelta ka2 (Some (test_delta "OTHER")) 3 = ka2.
Proof. vm_compute. done. Qed.

(** *** The decoder over a stream of frames *)

(** A frame as the three [json.Unmarshal] calls see it: the [type] of the
    envelope ([None] when the frame is not JSON), and the frame decoded as a
    snapshot and as a delta ([None] when that fails). *)
Record frame := {
  env_type : option string;
  as_snapshot : option rawSnapshot.t;
  as_delta : option rawDelta.t;
}.

Definition handleMessage (ka : KalshiAdapter) (f : frame) (now : Time)
    : KalshiAdapter :=
  match env_type f with
  | None => ka
  | Some type =>
      if String.eqb type "orderbook_snapshot" then handleSnapshot ka (as_snapshot f) now
      else if String.eqb type "orderbook_delta" then handleDelta ka (as_delta f) now
      else ka
  end.

(** [Run] over the frames taken from the subscription, each with the clock
    reading of its [emitUpdate]. *)
Definition Run (ka : KalshiAdapter) (frames : list (frame * Time)) : KalshiAdapter :=
  foldl (fun ka ft => handleMessage ka ft.1 ft.2) ka frames.

(** The snapshots among the frames. *)
Definition snapshots (frames : list (frame * Time)) : list rawSnapshot.t :=
  omap (fun ft : frame * Time =>
          match env_type ft.1 with
          | Some type =>
              if String.eqb type "orderbook_snapshot" then as_snapshot ft.1 else None
          | None => None
          end) frames.

(** Every quantity of a side is positive. *)
Definition positive (side : gmap Z Z) : Prop :=
  map_Forall (fun _ qty => 0 < qty) side.

Lemma fill_side_snoc levels level :
  fill_side (levels ++ [level]) = <[level.1 := level.2]> (fill_side levels).
Proof. unfold fill_side. by rewrite foldl_app. Qed.

(** In a filled side a price has the quantity of its last entry. *)
Lemma fill_side_lookup levels price :
  fill_side levels !! price =
    snd <$> list.last (filter (fun level : Z * Z => level.1 = price) levels).
Proof.
  induction levels as [|level levels IH] using rev_ind; [done|].
  rewrite fill_side_snoc, filter_app, filter_cons, filter_nil.
  destruct (decide (level.1 = price)) as [<-|Hne].
  - by rewrite lookup_insert_eq, last_snoc.
  - by rewrite lookup_insert_ne, app_nil_r.
Qed.

Lemma fill_side_positive levels :
  Forall (fun level : Z * Z => 0 < level.2) levels -> positive (fill_side levels).
Proof.
  induction levels as [|level levels IH] using rev_ind; intros Hall.
  - apply map_Forall_empty.
  - apply Forall_app in Hall as [Hall Hl]. rewrite Forall_singleton in Hl.
    rewrite fill_side_snoc. apply map_Forall_insert_2; [done|by apply IH].
Qed.

Lemma apply_delta_positive side price delta :
  positive side -> positive (apply_delta side price delta).
Proof.
  intros Hpos. unfold apply_delta.
  destruct (Z.leb_spec (newQty side price delta) 0).
  - by apply map_Forall_delete.
  - by apply map_Forall_insert_2.
Qed.

(** X18.  A snapshot replaces the book of its market.  The new book is
    built from the snapshot alone, whatever was stored for the ticker
    before; on each side a price carries the quantity of its last entry in
    the snapshot, and is absent if it has none; quantities are stored as
    they come, zero and negative ones included.  The books of the other
    tickers are untouched, one update with the new book is offered on the
    output channel, and a frame that does not parse changes nothing. *)
Theorem snapshot_replaces_book ka snap now :
  let ka' := handleSnapshot ka (Some snap) now in
  (exists book,
     books ka' !! rawSnapshot.MarketTicker snap = Some book /\
     MarketTicker book = rawSnapshot.MarketTicker snap /\
     MarketID book = rawSnapshot.MarketID snap /\
     (forall price,
        Yes book !! price =
          snd <$> list.last (filter (fun level : Z * Z => level.1 = price)
                               (rawSnapshot.Yes snap))) /\
     (forall price,
        No book !! price =
          snd <$> list.last (filter (fun level : Z * Z => level.1 = price)
                               (rawSnapshot.No snap))) /\
     updates ka' = trySend 1024 (updates ka) (bookUpdate book now)) /\
  (forall ticker, ticker <> rawSnapshot.MarketTicker snap ->
     books ka' !! ticker = books ka !! ticker) /\
  (forall ka2 now2,
     books (handleSnapshot ka2 (Some snap) now2) !! rawSnapshot.MarketTicker snap =
     books ka' !! rawSnapshot.MarketTicker snap) /\
  handleSnapshot ka None now = ka.
Proof.
  simpl. split; [|split; [|split]].
  - eexists. rewrite lookup_insert_eq. split; [done|]. simpl.
    repeat split; try done; intros price; apply fill_side_lookup.
  - intros ticker Hne. by rewrite lookup_insert_ne.
  - intros ka2 now2. by rewrite !lookup_insert_eq.
  - done.
Qed.

(** X19.  How deltas at one price add up.  While the running quantity
    stays positive (and within the range of [int]), two deltas act as their
    sum.  Once a delta takes the quantity to zero or below, the level is
    deleted and the deficit is forgotten: the next delta counts from zero.
    Deltas at different prices commute. *)
Theorem deltas_compose side price d1 d2 :
  let old := default 0 (side !! price) in
  minInt64 <= old + d1 <= maxInt64 ->
  (0 < old + d1 ->
     apply_delta (apply_delta side price d1) price d2 = apply_delta side price (d1 + d2)) /\
  (old + d1 <= 0 ->
     apply_delta (apply_delta side price d1) price d2 =
       apply_delta (delete price side) price d2 /\
     newQty (apply_delta side price d1) price d2 = wrap64 d2) /\
  (forall price' d', price' <> price ->
     apply_delta (apply_delta side price d1) price' d' =
     apply_delta (apply_delta side price' d') price d1).
Proof.
  intros old Hrange.
  assert (newQty side price d1 = old + d1) as Hq
    by (unfold newQty; by rewrite wrap64_in_range).
  split; [|split].
  - intros Hpos. unfold apply_delta at 2. rewrite Hq.
    destruct (Z.leb_spec (old + d1) 0); [lia|].
    unfold apply_delta, newQty. rewrite lookup_insert_eq. simpl.
    fold old. replace (old + d1 + d2) with (old + (d1 + d2)) by lia.
    destruct (wrap64 (old + (d1 + d2)) <=? 0).
    + by rewrite delete_insert_eq.
    + by rewrite insert_insert_eq.
  - intros Hneg.
    assert (apply_delta side price d1 = delete price side) as ->.
    { unfold apply_delta. rewrite Hq. by destruct (Z.leb_spec (old + d1) 0); [|lia]. }
    split; [done|]. unfold newQty. by rewrite lookup_delete_eq.
  - intros price' d' Hne.
    assert (forall s p d p' x, p' <> p ->
              newQty (apply_delta s p d) p' x = newQty s p' x) as Hn.
    { intros s p d p' x Hp. unfold newQty. by rewrite apply_delta_lookup_ne. }
    unfold apply_delta at 1 3. rewrite !Hn by done.
    unfold apply_delta.
    destruct (newQty side price' d' <=? 0), (newQty side price d1 <=? 0).
    + by apply delete_delete.
    + by rewrite delete_insert_ne.
    + by rewrite delete_insert_ne.
    + by apply insert_insert_ne.
Qed.

(** A market that some snapshot announced under this ticker and id. *)
Definition known (snaps : list rawSnapshot.t) (ticker marketID : string) : Prop :=
  exists snap, snap ∈ snaps /\
    rawSnapshot.MarketTicker snap = ticker /\ rawSnapshot.MarketID snap = marketID.

(** What holds of the decoder after the snapshots [snaps]. *)
Definition consistent (snaps : list rawSnapshot.t) (ka : KalshiAdapter) : Prop :=
  (length (updates ka) <= 1024)%nat /\
  (forall ticker book, books ka !! ticker = Some book ->
     MarketTicker book = ticker /\ known snaps ticker (MarketID book)) /\
  Forall (fun u => Exchange u = ExchangeKalshi /\ Hash u = "" /\
                   known snaps (AssetID u) (adapter.MarketID u)) (updates ka).

Lemma known_app snaps more ticker marketID :
  known snaps ticker marketID -> known (snaps ++ more) ticker marketID.
Proof.
  intros (snap & Hin & Ht & Hm). exists snap. split; [|done].
  apply elem_of_app. by left.
Qed.

Lemma consistent_app snaps more ka :
  consistent snaps ka -> consistent (snaps ++ more) ka.
Proof.
  intros (Hlen & Hbooks & Hups). split; [done|]. split.
  - intros ticker book Hb. destruct (Hbooks _ _ Hb) as [? ?].
    split; [done|by apply known_app].
  - eapply Forall_impl; [exact Hups|]. simpl. intros u (? & ? & ?).
    repeat split; try done. by apply known_app.
Qed.

Lemma consistent_store snaps ka book now :
  consistent snaps ka ->
  known snaps (MarketTicker book) (MarketID book) ->
  consistent snaps
    (emitUpdate (set_books ka (<[MarketTicker book := book]> (books ka))) book now).
Proof.
  intros (Hlen & Hbooks & Hups) Hk. split; [|split]; simpl.
  - unfold trySend. destruct (Nat.ltb_spec (length (updates ka)) 1024); [|done].
    rewrite length_app. simpl. lia.
  - intros ticker b. destruct (decide (ticker = MarketTicker book)) as [->|Hne].
    + rewrite lookup_insert_eq. by intros [= <-].
    + rewrite lookup_insert_ne by done. apply Hbooks.
  - unfold trySend. destruct (length (updates ka) <? 1024)%nat; [|done].
    apply Forall_app. split; [done|]. by repeat constructor.
Qed.

Lemma consistent_step snaps ka f now :
  consistent snaps ka ->
  consistent (snaps ++ snapshots [(f, now)]) (handleMessage ka f now).
Proof.
  intros Hc. unfold handleMessage, snapshots. simpl.
  destruct (env_type f) as [type|]; [|by apply consistent_app].
  destruct (String.eqb type "orderbook_snapshot").
  - unfold handleSnapshot.
    destruct (as_snapshot f) as [snap|]; [|by apply consistent_app].
    set (book := {| MarketTicker := rawSnapshot.MarketTicker snap;
                    MarketID := rawSnapshot.MarketID snap;
                    Yes := fill_side (rawSnapshot.Yes snap);
                    No := fill_side (rawSnapshot.No snap) |}).
    apply (consistent_store _ ka book now); [by apply consistent_app|].
    exists snap. split; [|done]. apply elem_of_app. right.
    by apply list_elem_of_singleton.
  - apply consistent_app.
    destruct (String.eqb type "orderbook_delta"); [|done].
    unfold handleDelta. destruct (as_delta f) as [delta|]; [|done].
    destruct (books ka !! rawDelta.MarketTicker delta) as [book|] eqn:Hb; [|done].
    destruct Hc as (Hlen & Hbooks & Hups).
    destruct (Hbooks _ _ Hb) as [Ht Hk].
    set (book' := if String.eqb (rawDelta.Side delta) "no" then _ else _).
    assert (MarketTicker book' = rawDelta.MarketTicker delta /\
            MarketID book' = MarketID book) as [Ht' Hm'].
    { unfold book'. by destruct (String.eqb (rawDelta.Side delta) "no"). }
    rewrite <- Ht'.
    apply (consistent_store _ ka book' now); [done|].
    by rewrite Ht', Hm'.
Qed.

Lemma snapshots_app frames1 frames2 :
  snapshots (frames1 ++ frames2) = snapshots frames1 ++ snapshots frames2.
Proof. unfold snapshots. apply omap_app. Qed.

(** X20.  The decoder over any stream of frames, starting with no books.
    Its output channel never holds more than 1024 updates; every book is
    stored under its own ticker and carries the market id of a snapshot
    received for that ticker; every update offered is a Kalshi update whose
    ticker and market id were announced by a snapshot, so a delta never
    creates a market and the market id a delta carries is not used.  If the
    snapshots carry positive quantities only, so does every book: deltas
    never leave a level at zero or below. *)
Theorem kalshi_run_consistent ws frames :
  let ka := Run (New ws).2 frames in
  consistent (snapshots frames) ka /\
  raw ka = raw (New ws).2 /\ cmdID ka = cmdID (New ws).2 /\
  (Forall (fun snap =>
             Forall (fun level : Z * Z => 0 < level.2) (rawSnapshot.Yes snap) /\
             Forall (fun level : Z * Z => 0 < level.2) (rawSnapshot.No snap))
          (snapshots frames) ->
   forall ticker book, books ka !! ticker = Some book ->
     positive (Yes book) /\ positive (No book)).
Proof.
  simpl. unfold Run.
  induction frames as [|[f now] frames IH] using rev_ind.
  { simpl. repeat split; try done; simpl; lia. }
  rewrite foldl_app, snapshots_app. simpl.
  destruct IH as (Hc & Hraw & Hcmd & Hpos).
  set (ka := foldl _ _ frames) in *.
  split; [by apply consistent_step|].
  assert (raw (handleMessage ka f now) = raw ka /\
          cmdID (handleMessage ka f now) = cmdID ka) as [-> ->].
  { unfold handleMessage, handleSnapshot, handleDelta.
    by repeat case_match. }
  split; [done|]. split; [done|].
  intros Hall. apply Forall_app in Hall as [Hold Hnew].
  specialize (Hpos Hold).
  unfold handleMessage, snapshots in *. simpl in Hnew.
  destruct (env_type f) as [type|]; [|done].
  destruct (String.eqb type "orderbook_snapshot").
  - unfold handleSnapshot. destruct (as_snapshot f) as [snap|]; [|done].
    rewrite Forall_singleton in Hnew. destruct Hnew as [Hy Hn]. simpl.
    intros ticker book.
    destruct (decide (ticker = rawSnapshot.MarketTicker snap)) as [->|Hne].
    + rewrite lookup_insert_eq. intros [= <-]. simpl.
      split; by apply fill_side_positive.
    + rewrite lookup_insert_ne by done. apply Hpos.
  - destruct (String.eqb type "orderbook_delta"); [|done].
    unfold handleDelta. destruct (as_delta f) as [delta|]; [|done].
    destruct (books ka !! rawDelta.MarketTicker delta) as [book0|] eqn:Hb; [|done].
    destruct (Hpos _ _ Hb) as [Hy Hn]. simpl.
    intros ticker book.
    destruct (decide (ticker = rawDelta.MarketTicker delta)) as [->|Hne].
    + rewrite lookup_insert_eq. intros [= <-].
      destruct (String.eqb (rawDelta.Side delta) "no"); simpl;
        split; try done; by apply apply_delta_positive.
    + rewrite lookup_insert_ne by done. apply Hpos.
Qed.

Lemma deltas_compose_witness :
  let side : gmap Z Z := {[ 48 := 200 ]} in
  apply_delta (apply_delta side 48 (-300)) 48 300 = apply_delta (delete 48 side) 48 300 /\
  newQty (apply_delta side 48 (-300)) 48 300 = wrap64 300.
Proof.
  intros side.
  destruct (deltas_compose side 48 (-300) 300) as (_ & Hdrop & _).
  - vm_compute. split; discriminate.
  - apply Hdrop. vm_compute. discriminate.
Defined.

End kalshi.

(** ** internal/adapter/poly: the Polymarket decoder and its subscription *)

Module poly.
Import Go adapter.

(** [updates] is the buffer of the output channel (capacity 1024).  The
    struct keeps no subscription: [Run] holds it in a local variable. *)
Record PolyAdapter := {
  updates : list BookUpdate;
}.

(** [New] stores the client and allocates the output channel; the WSClient
    is not touched.  (Its comment asks the caller to have called
    [ws.Connect] already.) *)
Definition New (ws : WSClient) : WSClient * PolyAdapter :=
  (ws, {| updates := [] |}).

(** The first statement of [Run]: [sub := pa.ws.Subscribe()]. *)
Definition Run_subscribe (ws : WSClient) : WSClient * nat := Subscribe ws.

(** *** When the decoders subscribe *)

(** [kalshi.New] registers a channel, and a frame read afterwards reaches
    it (unless its 512 slots are full). *)
Lemma kalshi_subscribed_at_construction (ws : WSClient) (frame : bytes) :
  let r := kalshi.New ws in
  subs r.1 !! kalshi.raw r.2 = Some [] /\
  subs (fanOut r.1 frame) !! kalshi.raw r.2 = Some [frame].
Proof.
  simpl. split.
  - rewrite lookup_app_r by done. by rewrite Nat.sub_diag.
  - rewrite list_lookup_fmap, lookup_app_r by done. by rewrite Nat.sub_diag.
Qed.

(** [poly.New] registers nothing; the channel appears when [Run] starts and
    is empty then, whatever was fanned out before. *)
Lemma poly_subscribed_at_run (ws : WSClient) (frames : list bytes) :
  subs (New ws).1 = subs ws /\
  let ws' := foldl fanOut (New ws).1 frames in
  let r := Run_subscribe ws' in
  length (subs ws') = length (subs ws) /\
  subs r.1 !! r.2 = Some [].
Proof.
  split; [done|]. simpl.
  assert (forall fs w, length (subs (foldl fanOut w fs)) = length (subs w)) as Hlen.
  { induction fs as [|f fs IH]; intros w; simpl; [done|].
    rewrite IH. simpl. by rewrite length_fmap. }
  split; [apply Hlen|].
  rewrite lookup_app_r by done. by rewrite Nat.sub_diag.
Qed.

(** C9, at the failing input.  With the transport connected and reading, a
    Polymarket decoder is constructed, a frame arrives, and only then does
    [Run] start: the decoder had no subscription when the frame was fanned
    out, and its channel is empty, so the frame is lost.  The Kalshi
    decoder, constructed before [Connect], receives the same frame. *)
Theorem poly_frame_before_run_is_lost :
  let frame := bytes_of_string "{}" in
  let ws := Connect NewWSClient in
  let created := New ws in
  let ws1 := readLoop_frame created.1 frame in
  let running := Run_subscribe ws1 in
  reading ws = true /\
  subs created.1 = [] /\
  subs running.1 !! running.2 = Some [] /\
  let k := kalshi.New NewWSClient in
  subs (readLoop_frame (Connect k.1) frame) !! kalshi.raw k.2 = Some [frame].
Proof. vm_compute. done. Qed.

(** *** Decoding book events *)

(** The raw wire types: prices, sizes and the timestamp are strings. *)
Module rawPriceLevel.
Record t := {
  Price : string;
  Size : string;
}.
End rawPriceLevel.

Module rawBookEvent.
Record t := {
  EventType : string;
  AssetID : string;
  Market : string;
  Bids : list rawPriceLevel.t;
  Asks : list rawPriceLevel.t;
  Timestamp : string;
  Hash : string;
}.
End rawBookEvent.

(** [strconv.ParseInt(s, 10, 64)]: an optional sign and decimal digits;
    [None] is the error result, also for a value outside [int64]. *)
Definition ParseInt (s : string) : option Z :=
  match big_SetString s with
  | Some z => if (minInt64 <=? z) && (z <=? maxInt64) then Some z else None
  | None => None
  end.

(** [time.UnixMilli]. *)
Definition time_UnixMilli (ms : Z) : Time := unixEpoch + ms * Millisecond.

(** [parseTimestamp]: the zero time when the string does not parse. *)
Definition parseTimestamp (s : string) : Time :=
  match ParseInt s with
  | None => 0
  | Some ms => time_UnixMilli ms
  end.

Section Decoder.
(** [strconv.ParseFloat(s, 64)], from Go's standard library; [None] is the
    error result. *)
Context (ParseFloat : string -> option float).

(** The loop of [parseLevels]: a level whose price or size does not parse
    is skipped. *)
Definition parseLevels_step (levels : list PriceLevel) (r : rawPriceLevel.t)
    : list PriceLevel :=
  match ParseFloat (rawPriceLevel.Price r) with
  | None => levels
  | Some p =>
      match ParseFloat (rawPriceLevel.Size r) with
      | None => levels
      | Some s => levels ++ [{| Price := p; Size := s |}]
      end
  end.

Definition parseLevels (raw : list rawPriceLevel.t) : list PriceLevel :=
  foldl parseLevels_step [] raw.

(** The [BookUpdate] that [handleBook] builds from a decoded event. *)
Definition bookUpdate (ev : rawBookEvent.t) : BookUpdate :=
  {| Exchange := ExchangePolymarket;
     MarketID := rawBookEvent.Market ev;
     adapter.AssetID := rawBookEvent.AssetID ev;
     adapter.Bids := parseLevels (rawBookEvent.Bids ev);
     adapter.Asks := parseLevels (rawBookEvent.Asks ev);
     adapter.Timestamp := parseTimestamp (rawBookEvent.Timestamp ev);
     adapter.Hash := rawBookEvent.Hash ev |}.

(** [handleBook] on the result of [json.Unmarshal] ([None] when the frame
    does not parse): a non-blocking send on [updates]. *)
Definition handleBook (pa : PolyAdapter) (decoded : option rawBookEvent.t)
    : PolyAdapter :=
  match decoded with
  | None => pa
  | Some ev => {| updates := trySend 1024 (updates pa) (bookUpdate ev) |}
  end.

(** [handleMessage]: [event_type] is the [event_type] of the envelope
    ([None] when the frame is not JSON). *)
Definition handleMessage (pa : PolyAdapter) (event_type : option string)
    (decoded : option rawBookEvent.t) : PolyAdapter :=
  match event_type with
  | None => pa
  | Some type => if String.eqb type "book" then handleBook pa decoded else pa
  end.

(** The level that a raw level parses to, if both its fields parse. *)
Definition parsed (r : rawPriceLevel.t) : option PriceLevel :=
  match ParseFloat (rawPriceLevel.Price r), ParseFloat (rawPriceLevel.Size r) with
  | Some p, Some s => Some {| Price := p; Size := s |}
  | _, _ => None
  end.

Lemma parseLevels_omap (raw : list rawPriceLevel.t) :
  parseLevels raw = omap parsed raw.
Proof.
  unfold parseLevels.
  assert (forall acc, foldl parseLevels_step acc raw = acc ++ omap parsed raw) as Hgen.
  { induction raw as [|r raw IH]; intros acc; simpl; [by rewrite app_nil_r|].
    rewrite IH. unfold parseLevels_step, parsed.
    destruct (ParseFloat (rawPriceLevel.Price r)); [|done].
    destruct (ParseFloat (rawPriceLevel.Size r)); [|done].
    by rewrite <- app_assoc. }
  apply (Hgen []).
Qed.

(** X21.  Levels of a Polymarket book event.  The levels of the update are
    the raw levels whose price and size both parse, in their order; a level
    with a malformed price or size is dropped without an error, so the
    update can have fewer levels than the event, and has as many exactly
    when every level parses. *)
Theorem parse_levels_keeps_the_parsable (raw : list rawPriceLevel.t) :
  parseLevels raw = omap parsed raw /\
  (length (parseLevels raw) <= length raw)%nat /\
  (length (parseLevels raw) = length raw <->
     Forall (fun r => is_Some (ParseFloat (rawPriceLevel.Price r)) /\
                      is_Some (ParseFloat (rawPriceLevel.Size r))) raw) /\
  (forall r, r ∈ raw -> ParseFloat (rawPriceLevel.Price r) = None ->
     forall pl, pl ∈ parseLevels raw ->
       exists r', r' ∈ raw /\ r' <> r /\ parsed r' = Some pl).
Proof.
  rewrite parseLevels_omap. split; [done|].
  assert (forall r, is_Some (parsed r) <->
            is_Some (ParseFloat (rawPriceLevel.Price r)) /\
            is_Some (ParseFloat (rawPriceLevel.Size r))) as Hp.
  { intros r. unfold parsed.
    destruct (ParseFloat (rawPriceLevel.Price r)), (ParseFloat (rawPriceLevel.Size r));
      split; try (intros [? ?]); try done; try (by intros [? [=]]);
      by intros [[? [=]] ?]. }
  assert ((length (omap parsed raw) <= length raw)%nat /\
          (length (omap parsed raw) = length raw <->
             Forall (fun r => is_Some (parsed r)) raw)) as [Hle Hiff].
  { induction raw as [|r raw [IH1 IH2]].
    - split; [done|]. split; [constructor|done].
    - change (omap parsed (r :: raw))
        with (match parsed r with
              | Some y => y :: omap parsed raw
              | None => omap parsed raw
              end).
      destruct (parsed r) as [pl|] eqn:E; simpl.
      + split; [lia|]. rewrite Forall_cons. split.
        * intros [= Hl]. split; [done|]. by apply IH2.
        * intros [_ Hall]. f_equal. by apply IH2.
      + split; [lia|]. rewrite Forall_cons. split; [lia|].
        intros [[? ?] _]. congruence. }
  split; [done|]. split.
  - rewrite Hiff. apply Forall_iff. intros r. apply Hp.
  - intros r Hr Hnone pl Hpl.
    apply list_elem_of_omap in Hpl as (r' & Hr' & Hpr).
    exists r'. split; [done|]. split; [|done].
    intros ->. unfold parsed in Hpr. by rewrite Hnone in Hpr.
Qed.

End Decoder.

Lemma ParseInt_FormatInt_range (s : string) (ms : Z) :
  ParseInt s = Some ms -> minInt64 <= ms <= maxInt64.
Proof.
  unfold ParseInt. destruct (big_SetString s) as [z|]; [|done].
  destruct (Z.leb_spec minInt64 z), (Z.leb_spec z maxInt64); simpl; try done.
  by intros [= <-].
Qed.

(** X22.  The timestamp of a Polymarket update, and what Redis gets.  A
    string that parses as a 64-bit decimal number of milliseconds becomes
    the time at that many milliseconds after the Unix epoch, and
    [Time.UnixMilli] gives the number back, so the writer's [ts] field is
    that number in canonical decimal form.  Any other string (empty, a
    fraction, out of range) silently becomes Go's zero time, and the [ts]
    field is then -62135596800000. *)
Theorem poly_timestamp_round_trip ParseFloat FormatFloat (ev : rawBookEvent.t) :
  let update := bookUpdate ParseFloat ev in
  let ts := hset_ts (hset_of FormatFloat update) in
  match ParseInt (rawBookEvent.Timestamp ev) with
  | Some ms =>
      adapter.Timestamp update = unixEpoch + ms * Millisecond /\
      UnixMilli (adapter.Timestamp update) = ms /\
      ts = FormatInt ms
  | None =>
      IsZero (adapter.Timestamp update) = true /\
      ts = "-62135596800000"
  end.
Proof.
  simpl. unfold parseTimestamp.
  destruct (ParseInt (rawBookEvent.Timestamp ev)) as [ms|].
  - assert (UnixMilli (time_UnixMilli ms) = ms) as Hrt.
    { unfold UnixMilli, time_UnixMilli.
      replace (unixEpoch + ms * Millisecond - unixEpoch) with (ms * Millisecond) by lia.
      by rewrite Z.div_mul. }
    by rewrite Hrt.
  - split; [done|]. vm_compute. reflexivity.
Qed.

(** The book events among the frames of a stream: the frames whose
    envelope says [book] and that decode as a book event. *)
Definition book_events (frames : list (option string * option rawBookEvent.t))
    : list rawBookEvent.t :=
  omap (fun f : option string * option rawBookEvent.t =>
          match f.1 with
          | Some type => if String.eqb type "book" then f.2 else None
          | None => None
          end) frames.

(** X23.  The Polymarket decoder over a stream of frames.  Frames that are
    not JSON, that carry another event type or that do not decode as a book
    event produce nothing.  The output channel receives one update per book
    event, in order, each a Polymarket update with the event's market, asset
    and hash; when 1024 updates are waiting, the new ones are dropped and
    the waiting ones are kept. *)
Theorem poly_run_updates ParseFloat pa frames :
  let pa' := foldl (fun pa f => handleMessage ParseFloat pa f.1 f.2) pa frames in
  let new := bookUpdate ParseFloat <$> book_events frames in
  updates pa' = updates pa ++ take (1024 - length (updates pa)) new /\
  Forall2 (fun ev update =>
             Exchange update = ExchangePolymarket /\
             MarketID update = rawBookEvent.Market ev /\
             adapter.AssetID update = rawBookEvent.AssetID ev /\
             adapter.Hash update = rawBookEvent.Hash ev)
          (book_events frames) new /\
  ((length (updates pa) <= 1024)%nat -> (length (updates pa') <= 1024)%nat) /\
  (book_events frames = [] -> pa' = pa).
Proof.
  intros pa' new.
  assert (updates pa' = foldl (trySend 1024) (updates pa) new) as Hrun.
  { unfold pa', new. clear pa' new. revert pa.
    induction frames as [|[type decoded] frames IH]; intros pa; [done|].
    simpl. rewrite IH. unfold handleMessage, handleBook, book_events. simpl.
    destruct type as [type|]; [|done].
    destruct (String.eqb type "book"); [|done].
    by destruct decoded. }
  rewrite foldl_trySend in Hrun.
  split; [done|]. split; [|split].
  - unfold new. apply Forall2_fmap_r, Forall_Forall2_diag, Forall_forall. done.
  - intros Hlen. rewrite Hrun, length_app, length_take. lia.
  - intros Hnone. destruct pa' as [ups] eqn:E, pa as [ups0]. simpl in *.
    unfold new in Hrun. rewrite Hnone in Hrun. simpl in Hrun.
    rewrite take_nil, app_nil_r in Hrun. by subst.
Qed.

End poly.

(** ** internal/engine: orders and the pre-flight validator *)

Module engine.
Import Go.

(** [Side], [OrderType] and [Status] are [uint8] with named values. *)
Definition Buy : Z := 1.
Definition Sell : Z := 2.

Definition Limit : Z := 1.
Definition Market : Z := 2.
Definition StopLoss : Z := 3.

Definition StatusNew : Z := 1.
Definition StatusValidated : Z := 2.
Definition StatusPending : Z := 3.
Definition StatusFilled : Z := 4.
Definition StatusCancelled : Z := 5.
Definition StatusRejected : Z := 6.

Record Order := {
  OrderID : string;
  UserID : string;
  Exchange : string;
  MarketID : string;
  AssetID : string;
  Side : Z;
  Type_ : Z;
  Price : float;
  Quantity : float;
  Status : Z;
  CreatedAt : Time;
}.

(** The sentinel errors, and the errors that wrap one with [%w]. *)
Inductive error :=
  | ErrInvalidSide
  | ErrInvalidType
  | ErrUnknownExchange (exchange : string)
  | ErrPriceOutOfRange (price min max : float)
  | ErrQuantityTooLow (quantity min : float)
  | ErrCircuitOpen.

(** [errors.Is(err, ErrPriceOutOfRange)]. *)
Definition is_ErrPriceOutOfRange (e : error) : bool :=
  match e with ErrPriceOutOfRange _ _ _ => true | _ => false end.

Record ExchangeConstraints := {
  MinPrice : float;
  MaxPrice : float;
  MinLotSize : float;
}.

Definition DefaultConstraints : gmap string ExchangeConstraints :=
  {[ adapter.ExchangePolymarket := {| MinPrice := 0; MaxPrice := 1; MinLotSize := 1 |};
     adapter.ExchangeKalshi := {| MinPrice := 0; MaxPrice := 1; MinLotSize := 1 |} ]}.

(** [gate] is the [TradingGate] interface: its [CanTrade] method. *)
Record Validator := {
  gate : string -> string -> bool;
  constraints : gmap string ExchangeConstraints;
}.

Definition NewValidator (gate : string -> string -> bool) : Validator :=
  {| gate := gate; constraints := DefaultConstraints |}.

(** [Validator.validate]; [None] is the nil error. *)
Definition validate (v : Validator) (order : Order) : option error :=
  if negb (Side order =? Buy) && negb (Side order =? Sell) then Some ErrInvalidSide
  else if negb (Type_ order =? Limit) && negb (Type_ order =? Market)
          && negb (Type_ order =? StopLoss) then Some ErrInvalidType
  else
    match constraints v !! Exchange order with
    | None => Some (ErrUnknownExchange (Exchange order))
    | Some ec =>
        if ((Type_ order =? Limit) || (Type_ order =? StopLoss))
           && (PrimFloat.leb (Price order) (MinPrice ec)
               || PrimFloat.leb (MaxPrice ec) (Price order))
        then Some (ErrPriceOutOfRange (Price order) (MinPrice ec) (MaxPrice ec))
        else if PrimFloat.ltb (Quantity order) (MinLotSize ec)
        then Some (ErrQuantityTooLow (Quantity order) (MinLotSize ec))
        else if negb (gate v (Exchange order) (MarketID order))
        then Some ErrCircuitOpen
        else None
    end.

Definition set_Status (order : Order) (s : Z) : Order :=
  {| OrderID := OrderID order; UserID := UserID order; Exchange := Exchange order;
     MarketID := MarketID order; AssetID := AssetID order; Side := Side order;
     Type_ := Type_ order; Price := Price order; Quantity := Quantity order;
     Status := s; CreatedAt := CreatedAt order |}.

(** [Validator.Validate]: the order as the call leaves it, and the error. *)
Definition Validate (v : Validator) (order : Order) : Order * option error :=
  match validate v order with
  | Some err => (set_Status order StatusRejected, Some err)
  | None => (set_Status order StatusValidated, None)
  end.

(** The order of the validator's unit tests, with the given type and price. *)
Definition validOrder (type : Z) (price : float) : Order :=
  {| OrderID := ""; UserID := "user-1"; Exchange := adapter.ExchangePolymarket;
     MarketID := "BTC-100K"; AssetID := "token-abc"; Side := Buy; Type_ := type;
     Price := price; Quantity := 10; Status := StatusNew; CreatedAt := 0 |}.

Definition open_gate (exchange marketID : string) : bool := true.

(** *** Properties of the validator *)

(** The status after [Validate] is rejected on every failure and validated
    on success, whatever it was before. *)
Lemma Validate_status v order :
  Status (Validate v order).1 =
    match (Validate v order).2 with
    | Some _ => StatusRejected
    | None => StatusValidated
    end /\
  (Validate v order).2 = validate v order.
Proof. unfold Validate. by destruct (validate v order). Qed.

(** With a valid side and a known venue, a limit or stop-loss order whose
    price is at or below the minimum, or at or above the maximum, fails with
    the price-out-of-range error. *)
Lemma validate_price_out_of_range v order ec :
  Side order = Buy \/ Side order = Sell ->
  Type_ order = Limit \/ Type_ order = StopLoss ->
  constraints v !! Exchange order = Some ec ->
  PrimFloat.leb (Price order) (MinPrice ec) = true \/
  PrimFloat.leb (MaxPrice ec) (Price order) = true ->
  validate v order = Some (ErrPriceOutOfRange (Price order) (MinPrice ec) (MaxPrice ec)).
Proof.
  intros Hs Ht Hec Hp. unfold validate. rewrite Hec.
  assert (negb (Side order =? Buy) && negb (Side order =? Sell) = false) as ->
    by (destruct Hs as [-> | ->]; reflexivity).
  assert (negb (Type_ order =? Limit) && negb (Type_ order =? Market)
          && negb (Type_ order =? StopLoss) = false) as ->
    by (destruct Ht as [-> | ->]; reflexivity).
  assert ((Type_ order =? Limit) || (Type_ order =? StopLoss) = true) as ->
    by (destruct Ht as [-> | ->]; reflexivity).
  by destruct Hp as [-> | ->]; rewrite ?orb_true_r.
Qed.

(** A limit or stop-loss order that passes has a price that is neither at
    or below the minimum nor at or above the maximum. *)
Lemma validate_ok_price v order :
  Type_ order = Limit \/ Type_ order = StopLoss ->
  validate v order = None ->
  exists ec, constraints v !! Exchange order = Some ec /\
    PrimFloat.leb (Price order) (MinPrice ec) = false /\
    PrimFloat.leb (MaxPrice ec) (Price order) = false.
Proof.
  intros Ht. unfold validate.
  assert ((Type_ order =? Limit) || (Type_ order =? StopLoss) = true) as ->
    by (destruct Ht as [-> | ->]; reflexivity).
  destruct (constraints v !! Exchange order) as [ec|]; [|by repeat case_match].
  simpl. intros Hv. exists ec. split; [done|].
  destruct (PrimFloat.leb (Price order) (MinPrice ec));
    destruct (PrimFloat.leb (MaxPrice ec) (Price order));
    repeat case_match; done.
Qed.

(** Comparison of two floats that are numbers is antisymmetric. *)
Lemma SFcompare_antisym (x y : spec_float) :
  SFcompare y x = CompOpp <$> SFcompare x y.
Proof.
  destruct x as [sx|sx| |sx mx ex], y as [sy|sy| |sy my ey]; simpl; try done;
    try (by destruct sx); try (by destruct sy); try (by destruct sx, sy).
  destruct sx, sy; simpl; try done; f_equal;
    rewrite (Z.compare_antisym ex ey); destruct (ex ?= ey); simpl; try done.
  - rewrite CompOpp_involutive. apply (Pos.compare_cont_antisym my mx Eq).
  - symmetry. apply (Pos.compare_cont_antisym mx my Eq).
Qed.

Definition is_number (f : float) : Prop := Prim2SF f <> S754_nan.

Lemma not_leb_ltb (x y : float) :
  is_number x -> is_number y ->
  PrimFloat.leb x y = false -> PrimFloat.ltb y x = true.
Proof.
  unfold is_number. rewrite leb_spec, ltb_spec. unfold SFleb, SFltb.
  rewrite (SFcompare_antisym (Prim2SF x) (Prim2SF y)).
  intros Hx Hy.
  destruct (Prim2SF x) as [sx|sx| |sx mx ex], (Prim2SF y) as [sy|sy| |sy my ey];
    try done; simpl; by repeat case_match.
Qed.

(** For a price that is a number, passing validation does mean
    [min_price < price < max_price] on a limit or stop-loss order. *)
Lemma validate_ok_price_strict v order :
  Type_ order = Limit \/ Type_ order = StopLoss ->
  is_number (Price order) ->
  validate v order = None ->
  exists ec, constraints v !! Exchange order = Some ec /\
    (is_number (MinPrice ec) -> PrimFloat.ltb (MinPrice ec) (Price order) = true) /\
    (is_number (MaxPrice ec) -> PrimFloat.ltb (Price order) (MaxPrice ec) = true).
Proof.
  intros Ht Hn Hv.
  destruct (validate_ok_price v order Ht Hv) as (ec & Hec & Hmin & Hmax).
  exists ec. split; [done|]. split; intros Hc; by apply not_leb_ltb.
Qed.

(** The endpoints are excluded, the tests' boundary prices pass. *)
Example validate_endpoints :
  let v := NewValidator open_gate in
  is_ErrPriceOutOfRange <$> (Validate v (validOrder Limit 0)).2 = Some true /\
  is_ErrPriceOutOfRange <$> (Validate v (validOrder Limit 1)).2 = Some true /\
  is_ErrPriceOutOfRange <$> (Validate v (validOrder StopLoss 0)).2 = Some true /\
  is_ErrPriceOutOfRange <$> (Validate v (validOrder StopLoss 1)).2 = Some true /\
  Status (Validate v (validOrder Limit 0)).1 = StatusRejected /\
  Validate v (validOrder Limit 0.01) =
    (set_Status (validOrder Limit 0.01) StatusValidated, None) /\
  Validate v (validOrder Limit 0.99) =
    (set_Status (validOrder Limit 0.99) StatusValidated, None) /\
  Validate v (validOrder Market 0) =
    (set_Status (validOrder Market 0) StatusValidated, None).
Proof. vm_compute. done. Qed.

(** C8, at the failing input.  A limit (or stop-loss) order whose price is
    NaN passes the price check, since both comparisons with NaN are false:
    the order is validated although its price is not strictly between the
    minimum and the maximum. *)
Theorem nan_price_is_validated :
  let v := NewValidator open_gate in
  Validate v (validOrder Limit PrimFloat.nan) =
    (set_Status (validOrder Limit PrimFloat.nan) StatusValidated, None) /\
  Validate v (validOrder StopLoss PrimFloat.nan) =
    (set_Status (validOrder StopLoss PrimFloat.nan) StatusValidated, None) /\
  PrimFloat.ltb 0 PrimFloat.nan = false /\
  PrimFloat.ltb PrimFloat.nan 1 = false.
Proof. vm_compute. done. Qed.

(** *** Further properties of the validator *)

(** [Side.String] and [OrderType.String]. *)
Definition Side_String (s : Z) : string :=
  if s =? Buy then "buy" else if s =? Sell then "sell" else "unknown".

Definition OrderType_String (t : Z) : string :=
  if t =? Limit then "limit"
  else if t =? Market then "market"
  else if t =? StopLoss then "stop-loss"
  else "unknown".

(** The order with another price. *)
Definition set_Price (order : Order) (p : float) : Order :=
  {| OrderID := OrderID order; UserID := UserID order; Exchange := Exchange order;
     MarketID := MarketID order; AssetID := AssetID order; Side := Side order;
     Type_ := Type_ order; Price := p; Quantity := Quantity order;
     Status := Status order; CreatedAt := CreatedAt order |}.

Definition valid_side (order : Order) : Prop := Side order = Buy \/ Side order = Sell.

Definition valid_type (order : Order) : Prop :=
  Type_ order = Limit \/ Type_ order = Market \/ Type_ order = StopLoss.

(** The price check as the validator makes it: only on limit and stop-loss
    orders, and passed when neither comparison holds. *)
Definition price_passes (order : Order) (ec : ExchangeConstraints) : Prop :=
  Type_ order = Limit \/ Type_ order = StopLoss ->
  PrimFloat.leb (Price order) (MinPrice ec) = false /\
  PrimFloat.leb (MaxPrice ec) (Price order) = false.

Lemma valid_side_test order :
  negb (Side order =? Buy) && negb (Side order =? Sell) = false <-> valid_side order.
Proof.
  unfold valid_side.
  destruct (Z.eqb_spec (Side order) Buy), (Z.eqb_spec (Side order) Sell);
    simpl; intuition congruence.
Qed.

Lemma valid_type_test order :
  negb (Type_ order =? Limit) && negb (Type_ order =? Market)
    && negb (Type_ order =? StopLoss) = false <-> valid_type order.
Proof.
  unfold valid_type.
  destruct (Z.eqb_spec (Type_ order) Limit), (Z.eqb_spec (Type_ order) Market),
           (Z.eqb_spec (Type_ order) StopLoss);
    simpl; intuition congruence.
Qed.

Lemma priced_test order :
  (Type_ order =? Limit) || (Type_ order =? StopLoss) = true <->
  Type_ order = Limit \/ Type_ order = StopLoss.
Proof.
  destruct (Z.eqb_spec (Type_ order) Limit), (Z.eqb_spec (Type_ order) StopLoss);
    simpl; intuition congruence.
Qed.

(** Why [validate] returns what it returns: each error with the checks
    that passed before it and the one that failed. *)
Lemma validate_cases v order :
  match validate v order with
  | Some ErrInvalidSide => ~ valid_side order
  | Some ErrInvalidType => valid_side order /\ ~ valid_type order
  | Some (ErrUnknownExchange exchange) =>
      valid_side order /\ valid_type order /\
      exchange = Exchange order /\ constraints v !! Exchange order = None
  | Some (ErrPriceOutOfRange price lo hi) =>
      valid_side order /\ valid_type order /\
      (Type_ order = Limit \/ Type_ order = StopLoss) /\
      exists ec, constraints v !! Exchange order = Some ec /\
        price = Price order /\ lo = MinPrice ec /\ hi = MaxPrice ec /\
        (PrimFloat.leb (Price order) (MinPrice ec) = true \/
         PrimFloat.leb (MaxPrice ec) (Price order) = true)
  | Some (ErrQuantityTooLow quantity lot) =>
      valid_side order /\ valid_type order /\
      exists ec, constraints v !! Exchange order = Some ec /\
        price_passes order ec /\
        quantity = Quantity order /\ lot = MinLotSize ec /\
        PrimFloat.ltb (Quantity order) (MinLotSize ec) = true
  | Some ErrCircuitOpen =>
      valid_side order /\ valid_type order /\
      (exists ec, constraints v !! Exchange order = Some ec /\
         price_passes order ec /\
         PrimFloat.ltb (Quantity order) (MinLotSize ec) = false) /\
      gate v (Exchange order) (MarketID order) = false
  | None =>
      valid_side order /\ valid_type order /\
      (exists ec, constraints v !! Exchange order = Some ec /\
         price_passes order ec /\
         PrimFloat.ltb (Quantity order) (MinLotSize ec) = false) /\
      gate v (Exchange order) (MarketID order) = true
  end.
Proof.
  unfold validate.
  destruct (negb (Side order =? Buy) && negb (Side order =? Sell)) eqn:Hs.
  { rewrite <- valid_side_test. congruence. }
  apply valid_side_test in Hs.
  destruct (negb (Type_ order =? Limit) && negb (Type_ order =? Market)
            && negb (Type_ order =? StopLoss)) eqn:Ht.
  { split; [done|]. rewrite <- valid_type_test. congruence. }
  apply valid_type_test in Ht.
  destruct (constraints v !! Exchange order) as [ec|] eqn:Hec; [|done].
  destruct ((Type_ order =? Limit) || (Type_ order =? StopLoss)) eqn:Hp.
  - apply priced_test in Hp.
    destruct (PrimFloat.leb (Price order) (MinPrice ec)) eqn:Hlo; simpl.
    { split; [done|]. split; [done|]. split; [done|]. exists ec. auto 10. }
    destruct (PrimFloat.leb (MaxPrice ec) (Price order)) eqn:Hhi; simpl.
    { split; [done|]. split; [done|]. split; [done|]. exists ec. auto 10. }
    assert (price_passes order ec) as Hpp by (intros _; done).
    destruct (PrimFloat.ltb (Quantity order) (MinLotSize ec)) eqn:Hq.
    { split; [done|]. split; [done|]. exists ec. auto 10. }
    destruct (gate v (Exchange order) (MarketID order)); simpl; eauto 10.
  - simpl.
    assert (price_passes order ec) as Hpp.
    { intros Hpr. apply priced_test in Hpr. congruence. }
    destruct (PrimFloat.ltb (Quantity order) (MinLotSize ec)) eqn:Hq.
    { split; [done|]. split; [done|]. exists ec. auto 10. }
    destruct (gate v (Exchange order) (MarketID order)); simpl; eauto 10.
Qed.

(** X24.  The validator fails fast, in a fixed order: side, type, exchange,
    price, quantity, trading gate.  Each error means that the checks before
    it passed and its own check failed, and no error means that all passed;
    the status is rejected on every error and validated otherwise.  The
    sides and types that are refused are exactly those that print as
    unknown. *)
Theorem validate_fails_fast v order :
  (Validate v order).2 = validate v order /\
  Status (Validate v order).1 =
    match validate v order with
    | Some _ => StatusRejected
    | None => StatusValidated
    end /\
  match validate v order with
  | Some ErrInvalidSide => ~ valid_side order
  | Some ErrInvalidType => valid_side order /\ ~ valid_type order
  | Some (ErrUnknownExchange exchange) =>
      valid_side order /\ valid_type order /\
      exchange = Exchange order /\ constraints v !! Exchange order = None
  | Some (ErrPriceOutOfRange price lo hi) =>
      valid_side order /\ valid_type order /\
      (Type_ order = Limit \/ Type_ order = StopLoss) /\
      exists ec, constraints v !! Exchange order = Some ec /\
        price = Price order /\ lo = MinPrice ec /\ hi = MaxPrice ec /\
        (PrimFloat.leb (Price order) (MinPrice ec) = true \/
         PrimFloat.leb (MaxPrice ec) (Price order) = true)
  | Some (ErrQuantityTooLow quantity lot) =>
      valid_side order /\ valid_type order /\
      exists ec, constraints v !! Exchange order = Some ec /\
        price_passes order ec /\
        quantity = Quantity order /\ lot = MinLotSize ec /\
        PrimFloat.ltb (Quantity order) (MinLotSize ec) = true
  | Some ErrCircuitOpen =>
      valid_side order /\ valid_type order /\
      (exists ec, constraints v !! Exchange order = Some ec /\
         price_passes order ec /\
         PrimFloat.ltb (Quantity order) (MinLotSize ec) = false) /\
      gate v (Exchange order) (MarketID order) = false
  | None =>
      valid_side order /\ valid_type order /\
      (exists ec, constraints v !! Exchange order = Some ec /\
         price_passes order ec /\
         PrimFloat.ltb (Quantity order) (MinLotSize ec) = false) /\
      gate v (Exchange order) (MarketID order) = true
  end /\
  (valid_side order <-> Side_String (Side order) <> "unknown") /\
  (valid_type order <-> OrderType_String (Type_ order) <> "unknown").
Proof.
  split; [|split; [|split; [apply validate_cases|]]].
  - unfold Validate. by destruct (validate v order).
  - unfold Validate. by destruct (validate v order).
  - unfold valid_side, valid_type, Side_String, OrderType_String. split.
    + destruct (Z.eqb_spec (Side order) Buy), (Z.eqb_spec (Side order) Sell);
        intuition congruence.
    + destruct (Z.eqb_spec (Type_ order) Limit), (Z.eqb_spec (Type_ order) Market),
               (Z.eqb_spec (Type_ order) StopLoss); intuition congruence.
Qed.

(** X25.  The validator behind a circuit breaker.  With the breaker's
    [CanTrade] as trading gate and the default constraints, an order is
    validated only if no manual halt is active, the breaker has an update
    for the order's market that is no older than the stale threshold, and
    the exchange is one of the two known ones; during a manual halt every
    order is rejected. *)
Theorem validated_order_was_tradable cb heap now order :
  let v := NewValidator (fun exchange marketID =>
                           adapter.CanTrade cb heap exchange marketID now) in
  ((Validate v order).2 = None ->
     adapter.halted cb = false /\
     (exists ms, adapter.markets cb !! (Exchange order, MarketID order) = Some ms /\
        Sub now (adapter.LastUpdate ms) <= adapter.StaleThreshold (adapter.cfg cb)) /\
     (Exchange order = adapter.ExchangePolymarket \/
      Exchange order = adapter.ExchangeKalshi) /\
     Status (Validate v order).1 = StatusValidated) /\
  (adapter.halted cb = true ->
     (Validate v order).2 <> None /\
     Status (Validate v order).1 = StatusRejected).
Proof.
  intros v.
  assert ((Validate v order).2 = validate v order /\
          Status (Validate v order).1 =
            match validate v order with
    | Some _ => StatusRejected
    | None => StatusValidated
    end) as [-> ->].
  { unfold Validate. by destruct (validate v order). }
  pose proof (validate_cases v order) as Hc.
  split.
  - intros Hv. rewrite Hv in Hc |- *.
    destruct Hc as (_ & _ & (ec & Hec & _ & _) & Hgate). simpl in Hgate, Hec.
    unfold adapter.CanTrade in Hgate.
    destruct (adapter.halted cb); [done|]. split; [done|].
    split; [|split; [|done]].
    + destruct (match adapter.conns cb !! Exchange order with
                | Some _ => _ | None => _ end); [done|].
      destruct (adapter.markets cb !! (Exchange order, MarketID order)) as [ms|];
        [|done].
      exists ms. split; [done|].
      destruct (Z.ltb_spec (adapter.StaleThreshold (adapter.cfg cb))
                  (Sub now (adapter.LastUpdate ms))); [done|lia].
    + unfold DefaultConstraints in Hec.
      apply lookup_insert_Some in Hec as [[<- _]|[_ Hec]]; [by left|].
      apply lookup_singleton_Some in Hec as [<- _]. by right.
  - intros Hh.
    destruct (validate v order) as [e|] eqn:Hv; [done|].
    destruct Hc as (_ & _ & _ & Hgate). simpl in Hgate.
    unfold adapter.CanTrade in Hgate. by rewrite Hh in Hgate.
Qed.

Lemma ltb_nan_l (x y : float) :
  Prim2SF x = S754_nan -> PrimFloat.ltb x y = false.
Proof. intros Hx. rewrite ltb_spec. unfold SFltb. by rewrite Hx. Qed.

(** X26.  What the validator does not check.  The price of a market order
    is not looked at: any price, negative, huge or not a number, gives the
    same verdict.  A quantity that is not a number is never refused as too
    low, since the comparison with the lot size is false. *)
Theorem unchecked_price_and_quantity v order :
  (Type_ order = Market ->
     forall p, validate v (set_Price order p) = validate v order) /\
  (Prim2SF (Quantity order) = S754_nan ->
     forall quantity lot, validate v order <> Some (ErrQuantityTooLow quantity lot)).
Proof.
  split.
  - intros Ht p. unfold validate. simpl. by rewrite Ht.
  - intros Hnan quantity lot Hv.
    pose proof (validate_cases v order) as Hc. rewrite Hv in Hc.
    destruct Hc as (_ & _ & ec & _ & _ & _ & _ & Hlt).
    by rewrite ltb_nan_l in Hlt.
Qed.

End engine.
